(** * throttle::linmath::matrix: a shallow embedding of [matrix.hpp]

    The class keeps two layers: a contiguous element buffer
    ([m_contiguous_matrix]) and a vector of row pointers ([m_rows_vec]).
    Row pointers are raw [T*] values, so the embedding carries an explicit
    store of buffers; every member function is a computation over that
    store, which may return, throw [std::runtime_error], or run into
    undefined behaviour (an access outside a live buffer). *)

From Stdlib Require Import ZArith Floats String.
From stdpp Require Import base list.

Set Default Proof Using "Type".

(** ** Element types *)

(** What the template needs from [T]: [value_type{}], the literal [1],
    the four arithmetic operators, [std::abs], [std::less] and
    [operator==]. *)
Class Numeric (T : Type) := {
  n_zero : T;
  n_one : T;
  n_add : T -> T -> T;
  n_sub : T -> T -> T;
  n_mul : T -> T -> T;
  n_div : T -> T -> T;
  n_abs : T -> T;
  n_less : T -> T -> bool;
  n_eq : T -> T -> bool
}.

(** [double]: IEEE 754 binary64, which is what the kernel's floats are. *)
#[export] Instance double_numeric : Numeric float := {
  n_zero := PrimFloat.zero;
  n_one := PrimFloat.one;
  n_add := PrimFloat.add;
  n_sub := PrimFloat.sub;
  n_mul := PrimFloat.mul;
  n_div := PrimFloat.div;
  n_abs := PrimFloat.abs;
  n_less := PrimFloat.ltb;
  n_eq := PrimFloat.eqb
}.

(** ** Pointers and the store *)

(** A [T*]: the buffer it points into and the element offset. *)
Record ptr := Ptr { p_buf : nat; p_off : nat }.

Definition ptr_add (p : ptr) (n : nat) : ptr := Ptr (p_buf p) (p_off p + n).

Section Matrix.
Context {T : Type} `{Numeric T}.

(** The store: the live buffers, and the element accesses made so far
    (every read or write through a pointer, most recent first). *)
Record store := Store { bufs : list (list T); accesses : list ptr }.

Inductive outcome (A : Type) :=
| Ret (a : A) (s : store)
| Throw (what : string) (s : store)
| Undefined.
Arguments Ret {A} a s.
Arguments Throw {A} what s.
Arguments Undefined {A}.

Definition M (A : Type) : Type := store -> outcome A.

Definition ret {A} (a : A) : M A := fun s => Ret a s.

Definition bind {A B} (c : M A) (k : A -> M B) : M B :=
  fun s => match c s with
           | Ret a s' => k a s'
           | Throw w s' => Throw w s'
           | Undefined => Undefined
           end.

Definition throw {A} (what : string) : M A := fun s => Throw what s.

Notation "'let*' x ':=' c 'in' k" := (bind c (fun x => k))
  (at level 10, x pattern, c at level 100, k at level 200).

(** [for (size_type i = ...; ...; i++) body], over the indices in [l],
    threading the loop-carried value. *)
Fixpoint for_each {S} (l : list nat) (body : nat -> S -> M S) (acc : S) : M S :=
  match l with
  | [] => ret acc
  | i :: l' => let* acc' := body i acc in for_each l' body acc'
  end.

(** [*p] as an rvalue. *)
Definition load (p : ptr) : M T :=
  fun s => match bufs s !! p_buf p with
           | Some d => match d !! p_off p with
                       | Some v => Ret v (Store (bufs s) (p :: accesses s))
                       | None => Undefined
                       end
           | None => Undefined
           end.

(** [*p = v]. *)
Definition store_to (p : ptr) (v : T) : M unit :=
  fun s => match bufs s !! p_buf p with
           | Some d => if decide (p_off p < length d)
                       then Ret tt (Store (<[p_buf p := <[p_off p := v]> d]> (bufs s))
                                          (p :: accesses s))
                       else Undefined
           | None => Undefined
           end.

(** A fresh buffer holding [d]. *)
Definition alloc (d : list T) : M nat :=
  fun s => Ret (length (bufs s)) (Store (bufs s ++ [d]) (accesses s)).

(** ** contiguous_matrix *)

(** Modelled from the spec: [contiguous_matrix.hpp] is not among the
    sources. The buffer owns [rows * cols] elements in row-major order;
    the object is its shape and the buffer it owns. *)
Record contiguous_matrix := CMatrix { cm_rows : nat; cm_cols : nat; cm_data : nat }.

(** Modelled from the spec: [with_value(rows, cols, v)], all elements
    equal [v]. *)
Definition cm_with_value (r c : nat) (v : T) : M contiguous_matrix :=
  let* b := alloc (replicate (r * c) v) in ret (CMatrix r c b).

(** Modelled from the spec: [from_list(rows, cols, list)] fills in
    row-major order; missing positions take the default value, excess
    input is ignored. *)
Definition cm_from_list (r c : nat) (l : list T) : M contiguous_matrix :=
  let* b := alloc (resize (r * c) n_zero l) in ret (CMatrix r c b).

(** Modelled from the spec: copying produces an independent buffer with
    the same contents. *)
Definition cm_copy (cm : contiguous_matrix) : M contiguous_matrix :=
  fun s => match bufs s !! cm_data cm with
           | Some d => (let* b := alloc d in ret (CMatrix (cm_rows cm) (cm_cols cm) b)) s
           | None => Undefined
           end.

(** Modelled from the spec: [data()] points at the first element. *)
Definition data (cm : contiguous_matrix) : ptr := Ptr (cm_data cm) 0.

(** ** matrix *)

Record matrix := Matrix {
  m_contiguous_matrix : contiguous_matrix;
  m_rows_vec : list ptr
}.

Definition rows (m : matrix) : nat := cm_rows (m_contiguous_matrix m).
Definition cols (m : matrix) : nat := cm_cols (m_contiguous_matrix m).
Definition square (m : matrix) : bool := Nat.eqb (cols m) (rows m).

(** [update_rows_vec]: [std::generate_n] appends [rows()] pointers,
    starting at [data()] and advancing by [cols()]. *)
Definition update_rows_vec (m : matrix) : matrix :=
  Matrix (m_contiguous_matrix m)
         (m_rows_vec m ++
          map (fun k => ptr_add (data (m_contiguous_matrix m)) (k * cols m))
              (seq 0 (rows m))).

(** [matrix(rows, cols, val)]. *)
Definition matrix_value (r c : nat) (v : T) : M matrix :=
  let* cm := cm_with_value r c v in ret (update_rows_vec (Matrix cm [])).

(** [matrix(rows, cols, initializer_list)]. *)
Definition matrix_list (r c : nat) (l : list T) : M matrix :=
  let* cm := cm_from_list r c l in ret (update_rows_vec (Matrix cm [])).

(** The class declares no copy constructor: [matrix tmp = *this] is the
    implicit member-wise copy. The buffer member is copied into a fresh
    buffer; the row vector is copied element by element, and its elements
    are pointers. *)
Definition matrix_copy (m : matrix) : M matrix :=
  let* cm := cm_copy (m_contiguous_matrix m) in ret (Matrix cm (m_rows_vec m)).

(** [m_rows_vec[index]]. *)
Definition row_at (m : matrix) (i : nat) : M ptr :=
  fun s => match m_rows_vec m !! i with
           | Some p => Ret p s
           | None => Undefined
           end.

(** [this[i][j]], read and written. *)
Definition get (m : matrix) (i j : nat) : M T :=
  let* p := row_at m i in load (ptr_add p j).

Definition set (m : matrix) (i j : nat) (v : T) : M unit :=
  let* p := row_at m i in store_to (ptr_add p j) v.

(** [std::equal(first1, last1, first2)] over [n] elements. *)
Fixpoint std_equal (p : ptr) (n : nat) (q : ptr) : M bool :=
  match n with
  | 0 => ret true
  | S n' =>
      let* a := load p in
      let* b := load q in
      if n_eq a b then std_equal (ptr_add p 1) n' (ptr_add q 1) else ret false
  end.

Definition equal (m other : matrix) : M bool :=
  let res := Nat.eqb (rows m) (rows other) && Nat.eqb (cols m) (cols other) in
  for_each (seq 0 (length (m_rows_vec m)))
    (fun i (res : bool) =>
       if res
       then let* p := row_at m i in
            let* q := row_at other i in
            std_equal p (cols m) q
       else ret false)
    res.

(** [transpose()]: the loop-carried value is unit, the effect is on the
    store; [*this = std::move(transposed)] makes the object the new one. *)
Definition transpose (m : matrix) : M matrix :=
  let* transposed := matrix_value (cols m) (rows m) n_zero in
  let* _ := for_each (seq 0 (rows m)) (fun i _ =>
              for_each (seq 0 (cols m)) (fun j _ =>
                let* v := get m i j in set transposed j i v) tt) tt in
  ret transposed.

(** [std::swap(m_rows_vec[idx1], m_rows_vec[idx2])]. *)
Definition swap_rows (m : matrix) (idx1 idx2 : nat) : M matrix :=
  let* p1 := row_at m idx1 in
  let* p2 := row_at m idx2 in
  ret (Matrix (m_contiguous_matrix m) (<[idx2 := p1]> (<[idx1 := p2]> (m_rows_vec m)))).

(** [max_in_col_greater_eq(col, minimum_row)] with the default [std::less]. *)
Definition max_in_col_greater_eq (m : matrix) (col minimum_row : nat) : M (nat * T) :=
  let* max_row_idx :=
    for_each (seq minimum_row (rows m - minimum_row))
      (fun row max_row_idx =>
         let* a := get m max_row_idx col in
         let* b := get m row col in
         ret (if n_less (n_abs a) (n_abs b) then row else max_row_idx))
      minimum_row in
  let* v := get m max_row_idx col in
  ret (max_row_idx, v).

Definition max_in_col (m : matrix) (col : nat) : M (nat * T) :=
  max_in_col_greater_eq m col 0.

(** The body of the [to_elim_row] loop; [n_cols] is the local [cols]. *)
Definition eliminate_row (mat : matrix) (n_cols i : nat) (pivot_elem : T)
                         (to_elim_row : nat) : M unit :=
  if decide (i <> to_elim_row)
  then let* x := get mat to_elim_row i in
       let coef := n_div x pivot_elem in
       for_each (seq 0 n_cols) (fun col _ =>
         let* b := get mat i col in
         let* a := get mat to_elim_row col in
         set mat to_elim_row col (n_sub a (n_mul coef b))) tt
  else ret tt.

Definition gauss_jordan_elimination (m : matrix) : M matrix :=
  let n_rows := rows m in
  let n_cols := cols m in
  for_each (seq 0 n_rows) (fun i mat =>
    let* (pivot_row, pivot_elem) := max_in_col_greater_eq mat i i in
    let* mat := swap_rows mat i pivot_row in
    let* _ := for_each (seq 0 n_rows) (fun to_elim_row _ =>
                eliminate_row mat n_cols i pivot_elem to_elim_row) tt in
    ret mat) m.

(** [determinant() const requires std::is_floating_point_v<value_type>]. *)
Definition determinant (m : matrix) : M T :=
  if negb (square m) then throw "Mismatched matrix size for determinant"
  else
    let* tmp := matrix_copy m in
    let* tmp := gauss_jordan_elimination tmp in
    for_each (seq 0 (rows tmp)) (fun i res =>
      let* d := get tmp i i in ret (n_mul res d)) n_one.

(** [std::transform(first1, last1, first2, d_first, op)] over [n] elements. *)
Fixpoint std_transform (p : ptr) (n : nat) (q d : ptr) (op : T -> T -> T) : M unit :=
  match n with
  | 0 => ret tt
  | S n' =>
      let* a := load p in
      let* b := load q in
      let* _ := store_to d (op a b) in
      std_transform (ptr_add p 1) n' (ptr_add q 1) (ptr_add d 1) op
  end.

(** The common body of [operator+=] and [operator-=]; the object itself
    (shape and row vector) is not changed, only the elements are. *)
Definition elementwise_assign (op : T -> T -> T) (m other : matrix) : M unit :=
  if negb (Nat.eqb (rows m) (rows other)) || negb (Nat.eqb (cols m) (cols other))
  then throw "Mismatched matrix sizes"
  else
    for_each (seq 0 (rows m)) (fun i _ =>
      let* row_first := row_at m i in
      let* row_second := row_at other i in
      std_transform row_first (cols m) row_second row_first op) tt.

Definition operator_plus_assign : matrix -> matrix -> M unit := elementwise_assign n_add.
Definition operator_minus_assign : matrix -> matrix -> M unit := elementwise_assign n_sub.

(** Modelled from the spec: [algorithm.hpp] is not among the sources.
    [multiply_accumulate(a_begin, a_end, b_begin, init)] returns
    [init + sum of a_k * b_k], added up in index order. *)
Fixpoint multiply_accumulate (p : ptr) (n : nat) (q : ptr) (init : T) : M T :=
  match n with
  | 0 => ret init
  | S n' =>
      let* a := load p in
      let* b := load q in
      multiply_accumulate (ptr_add p 1) n' (ptr_add q 1) (n_add init (n_mul a b))
  end.

(** [operator*=(const matrix &)]; the final [std::swap] of [*this] and
    [res] makes the object the product. *)
Definition operator_mul_assign (m rhs : matrix) : M matrix :=
  if negb (Nat.eqb (cols m) (rows rhs)) then throw "Mismatched matrix sizes"
  else
    let* res := matrix_value (rows m) (cols rhs) n_zero in
    let* t_rhs := matrix_copy rhs in
    let* t_rhs := transpose t_rhs in
    let* _ := for_each (seq 0 (rows m)) (fun i _ =>
                for_each (seq 0 (rows t_rhs)) (fun j _ =>
                  let* a := row_at m i in
                  let* b := row_at t_rhs j in
                  let* v := multiply_accumulate a (cols m) b n_zero in
                  set res i j v) tt) tt in
    ret res.

(** The free function [transpose(mat)]: copy, transpose the copy, return it. *)
Definition free_transpose (mat : matrix) : M matrix :=
  let* res := matrix_copy mat in transpose res.

End Matrix.

Arguments store T : clear implicits.
Arguments outcome T A : clear implicits.
Arguments M T A : clear implicits.
Arguments Ret {T A} a s.
Arguments Throw {T A} what s.
Arguments Undefined {T A}.

Notation "'let*' x ':=' c 'in' k" := (bind c (fun x => k))
  (at level 10, x pattern, c at level 100, k at level 200).

(** ** The free operators *)

Section Operators.
Context {T : Type} `{Numeric T}.

(** [operator+(lhs, rhs)]: [auto res = lhs; res += rhs; return res;]. *)
Definition operator_plus (lhs rhs : matrix) : M T matrix :=
  let* res := matrix_copy lhs in
  let* _ := operator_plus_assign res rhs in
  ret res.

(** [operator-(lhs, rhs)]. *)
Definition operator_minus (lhs rhs : matrix) : M T matrix :=
  let* res := matrix_copy lhs in
  let* _ := operator_minus_assign res rhs in
  ret res.

(** [operator*(lhs, rhs)] on two matrices. *)
Definition operator_mul (lhs rhs : matrix) : M T matrix :=
  let* res := matrix_copy lhs in operator_mul_assign res rhs.

(** [operator*=(value_type)] and [operator/=(value_type)] hand over to
    the buffer object, whose code is not among the sources: what it does
    to the elements it owns is the parameter [on_buffer]; it is applied
    to the buffer of [m_contiguous_matrix] and to nothing else. *)
Definition operator_scalar_assign (on_buffer : T -> list T -> list T)
                                  (m : matrix) (rhs : T) : M T unit :=
  fun s => match bufs s !! cm_data (m_contiguous_matrix m) with
           | Some d => Ret tt (Store (<[cm_data (m_contiguous_matrix m)
                                        := on_buffer rhs d]> (bufs s))
                                     (accesses s))
           | None => Undefined
           end.

(** [operator*(lhs, T rhs)], [operator*(T lhs, rhs)] and
    [operator/(lhs, T rhs)]: [auto res = lhs; res *= rhs; return res;]. *)
Definition operator_scalar (on_buffer : T -> list T -> list T)
                           (lhs : matrix) (rhs : T) : M T matrix :=
  let* res := matrix_copy lhs in
  let* _ := operator_scalar_assign on_buffer res rhs in
  ret res.

End Operators.

(** ** The logical matrix behind an object *)

Section View.
Context {T : Type} `{Numeric T}.

(** The [c] elements a row pointer denotes. *)
Definition row_of (hp : list (list T)) (c : nat) (p : ptr) : list T :=
  take c (drop (p_off p) (default [] (hp !! p_buf p))).

(** The logical matrix: its rows in the order of the row vector. *)
Definition view (hp : list (list T)) (m : matrix) : list (list T) :=
  map (row_of hp (cols m)) (m_rows_vec m).

Definition entry (A : list (list T)) (i j : nat) : T :=
  default n_zero (A !! i ≫= fun r => r !! j).

(** A row pointer is live when its [c] elements lie inside a buffer. *)
Definition row_ok (hp : list (list T)) (c : nat) (p : ptr) : bool :=
  match hp !! p_buf p with
  | Some d => bool_decide (p_off p + c <= length d)
  | None => false
  end.

(** Two row pointers denote disjoint element ranges. *)
Definition rows_apart (c : nat) (p q : ptr) : bool :=
  negb (Nat.eqb (p_buf p) (p_buf q))
  || Nat.leb (p_off p + c) (p_off q) || Nat.leb (p_off q + c) (p_off p).

Fixpoint all_apart (c : nat) (l : list ptr) : bool :=
  match l with
  | [] => true
  | p :: l' => forallb (rows_apart c p) l' && all_apart c l'
  end.

(** The invariant of the data model, seen from the store: the object's
    buffer holds [rows * cols] elements, there is one live row pointer per
    row, and distinct rows never share an element. *)
Definition buffer_ok (hp : list (list T)) (cm : contiguous_matrix) : bool :=
  match hp !! cm_data cm with
  | Some d => Nat.eqb (length d) (cm_rows cm * cm_cols cm)
  | None => false
  end.

Definition valid (hp : list (list T)) (m : matrix) : bool :=
  buffer_ok hp (m_contiguous_matrix m)
  && Nat.eqb (length (m_rows_vec m)) (rows m)
  && forallb (row_ok hp (cols m)) (m_rows_vec m).

Definition wf (hp : list (list T)) (m : matrix) : bool :=
  valid hp m && all_apart (cols m) (m_rows_vec m).

(** Logical equality of two objects, each read in its own store: same
    shape and the same element at every logical index. *)
Definition same_matrix (hp : list (list T)) (m : matrix)
                       (hp' : list (list T)) (m' : matrix) : Prop :=
  rows m = rows m' /\ cols m = cols m' /\ view hp m = view hp' m'.

(** ** A weakest-precondition reading of computations *)

(** [wp c Q s]: from [s], [c] returns normally and [Q] holds of the
    result and the final store. *)
Definition wp {A} (c : M T A) (Q : A -> store T -> Prop) (s : store T) : Prop :=
  match c s with
  | Ret a s' => Q a s'
  | _ => False
  end.

(** ** Elements and writes *)

(** The element a pointer denotes, when it lies in a live buffer. *)
Definition cell (hp : list (list T)) (p : ptr) : option T :=
  hp !! p_buf p ≫= fun d => d !! p_off p.

(** ** The algorithms on the logical matrix *)

(** The search as a function of the logical matrix: one comparison per
    candidate row, keeping the current best unless it is strictly less. *)
Definition pivot_step (A : list (list T)) (col mx row : nat) : nat :=
  if n_less (n_abs (entry A mx col)) (n_abs (entry A row col)) then row else mx.

Definition pivot_search (A : list (list T)) (col start n : nat) : nat :=
  fold_left (pivot_step A col) (seq start n) start.

(** [r] is the first row of [start .. n) whose absolute value in column
    [col] is not less than that of any row of the range. *)
Definition not_less_than_all (A : list (list T)) (col start n r : nat) : Prop :=
  forall r', start <= r' < n ->
    n_less (n_abs (entry A r col)) (n_abs (entry A r' col)) = false.

Definition first_maximal (A : list (list T)) (col start n r : nat) : Prop :=
  start <= r < n /\ not_less_than_all A col start n r
  /\ forall r0, start <= r0 < r -> ~ not_less_than_all A col start n r0.

(** [std::less] restricted to the values [l] is a strict weak order:
    irreflexive, transitive, and with transitive incomparability. *)
Definition strict_weak_on (l : list T) : bool :=
  forallb (fun x => negb (n_less x x)) l
  && forallb (fun x => forallb (fun y => forallb (fun z =>
       implb (n_less x z) (n_less x y || n_less y z)
       && implb (n_less x y && n_less y z) (n_less x z)) l) l) l.

Definition candidates (A : list (list T)) (col start n : nat) : list T :=
  map (fun r => n_abs (entry A r col)) (seq start (n - start)).

(** The buffers after [*p = v]. *)
Definition poke (hp : list (list T)) (p : ptr) (v : T) : list (list T) :=
  alter (fun d => <[p_off p := v]> d) (p_buf p) hp.

(** The routine as the specification words it, on the logical matrix:
    for each [i], pick the pivot of column [i] among the rows from [i]
    on, swap it into row [i], then for every other row [r] take
    [c = M[r][i] / p] and subtract [c * M[i][k]] from [M[r][k]] for all
    [k]. The pivot row is not scaled. *)
Definition swap_rows_spec (A : list (list T)) (a b : nat) : list (list T) :=
  match A !! a, A !! b with
  | Some ra, Some rb => <[b := ra]> (<[a := rb]> A)
  | _, _ => A
  end.

Definition eliminate_spec (A : list (list T)) (i : nat) (p : T) : list (list T) :=
  imap (fun r row =>
          if decide (i = r) then row
          else let c := n_div (entry A r i) p in
               imap (fun k a => n_sub a (n_mul c (entry A i k))) row) A.

Definition gauss_jordan_step (A : list (list T)) (i : nat) : list (list T) :=
  let r := pivot_search A i i (length A - i) in
  let p := entry A r i in
  eliminate_spec (swap_rows_spec A i r) i p.

Definition gauss_jordan_spec (A : list (list T)) : list (list T) :=
  fold_left gauss_jordan_step (seq 0 (length A)) A.

Definition diagonal_product (A : list (list T)) : T :=
  fold_left (fun res i => n_mul res (entry A i i)) (seq 0 (length A)) n_one.

(** One pass of the column loop over row [r], on the logical matrix. *)
Definition clear_row_spec (A : list (list T)) (i : nat) (p : T) (r : nat) : list (list T) :=
  if decide (i = r) then A
  else <[r := imap (fun k a =>
                      n_sub a (n_mul (n_div (entry A r i) p) (entry A i k)))
                   (default [] (A !! r))]> A.

(** The buffers that existed in [hp] are the same in [hp']. *)
Definition agree (hp hp' : list (list T)) : Prop :=
  forall b, b < length hp -> hp' !! b = hp !! b.

(** The dot product of row [i] of [A] with column [j] of [B], added up
    in index order from the initial value zero. *)
Definition dot (A B : list (list T)) (i j n : nat) : T :=
  fold_left (fun acc k => n_add acc (n_mul (entry A i k) (entry B k j)))
            (seq 0 n) n_zero.

Definition ptr_eqb (p q : ptr) : bool :=
  Nat.eqb (p_buf p) (p_buf q) && Nat.eqb (p_off p) (p_off q).

(** The right operand may be the left operand itself, row for row;
    otherwise none of its rows shares an element with a row of the left
    operand. *)
Definition compatible (m other : matrix) : bool :=
  forallb (fun ip =>
    forallb (fun jq =>
      rows_apart (cols m) ip.2 jq.2 || (Nat.eqb ip.1 jq.1 && ptr_eqb ip.2 jq.2))
      (imap pair (m_rows_vec other)))
    (imap pair (m_rows_vec m)).

(** The matrix before step [i] of the elimination, and the pivot that
    step selects. *)
Definition reduced_to (A : list (list T)) (i : nat) : list (list T) :=
  fold_left gauss_jordan_step (seq 0 i) A.

Definition pivot_at (A : list (list T)) (i : nat) : T :=
  let Ai := reduced_to A i in
  entry Ai (pivot_search Ai i i (length Ai - i)) i.

Definition zero_pivot_met (A : list (list T)) : bool :=
  existsb (fun i => n_eq (pivot_at A i) n_zero) (seq 0 (length A)).

Definition square_shape (n : nat) (A : list (list T)) : Prop :=
  length A = n /\ forall r row, A !! r = Some row -> length row = n.

(** ** Computations that may not return *)

(** [wpp c Q s]: from [s], [c] does not throw, and if it returns then [Q]
    holds of the result and the final store. *)
Definition wpp {A} (c : M T A) (Q : A -> store T -> Prop) (s : store T) : Prop :=
  match c s with
  | Ret a s' => Q a s'
  | Throw _ _ => False
  | Undefined => True
  end.

(** The [c] elements of the row at [p] are the last ones of its buffer. *)
Definition row_ends_buffer (hp : list (list T)) (c : nat) (p : ptr) : bool :=
  match hp !! p_buf p with
  | Some d => Nat.eqb (p_off p + c) (length d)
  | None => false
  end.

End View.

(** ** Concrete matrices of [double] *)

Section Examples.
Open Scope float_scope.

(** Infinite or NaN. *)
Definition nonfinite (x : float) : bool :=
  match Prim2SF x with
  | S754_nan | S754_infinity _ => true
  | _ => false
  end.

(** Four buffers: a 2x2, another 2x2, a 2x3 and a 3x2 matrix. *)
Definition ex_store : store float :=
  Store [[1; 2; 3; 4]; [5; 6; 7; 8]; [1; 2; 3; 4; 5; 6]; [1; 0; 0; 1; 1; 1]] [].

Definition ex_a : matrix := Matrix (CMatrix 2 2 0) [Ptr 0 0; Ptr 0 2].
Definition ex_b : matrix := Matrix (CMatrix 2 2 1) [Ptr 1 0; Ptr 1 2].
Definition ex_c : matrix := Matrix (CMatrix 2 3 2) [Ptr 2 0; Ptr 2 3].
Definition ex_d : matrix := Matrix (CMatrix 3 2 3) [Ptr 3 0; Ptr 3 2; Ptr 3 4].

(** A column holding a NaN. *)
Definition nan_store : store float := Store [[1; nan; 2]] [].
Definition nan_column : matrix := Matrix (CMatrix 3 1 0) [Ptr 0 0; Ptr 0 1; Ptr 0 2].

(** Singular matrices: the 1x1 zero matrix, and the 3x3 matrix of 1..9. *)
Definition singular_store : store float :=
  Store [[0]; [1; 2; 3; 4; 5; 6; 7; 8; 9]; [1; 2; 2; 4]] [].
Definition singular_1 : matrix := Matrix (CMatrix 1 1 0) [Ptr 0 0].
Definition singular_3 : matrix := Matrix (CMatrix 3 3 1) [Ptr 1 0; Ptr 1 3; Ptr 1 6].
Definition singular_2 : matrix := Matrix (CMatrix 2 2 2) [Ptr 2 0; Ptr 2 2].

(** The value a computation returns, if it returns. *)
Definition returned {A} (o : outcome float A) : option A :=
  match o with Ret a _ => Some a | _ => None end.

Definition empty_store : store float := Store [] [].

(** The logical identity matrix of size [n], and a 3x3 object holding it
    with its row order permuted. *)
Definition unity_view (n : nat) : list (list float) :=
  map (fun i => map (fun j => if Nat.eqb i j then 1 else 0) (seq 0 n)) (seq 0 n).

Definition unity_store : store float := Store [[0; 1; 0; 1; 0; 0; 0; 0; 1]] [].
Definition unity_3 : matrix := Matrix (CMatrix 3 3 0) [Ptr 0 3; Ptr 0 0; Ptr 0 6].

(** The logical matrix of an object at this point of a run. *)
Definition snapshot (m : matrix) : M float (list (list float)) :=
  fun s => Ret (view (bufs s) m) s.

End Examples.

(** * Proofs *)

(** ** A weakest-precondition reading of computations *)

Section Wp.
Context {T : Type} `{Numeric T}.

Lemma wp_ret {A} (a : A) (Q : A -> store T -> Prop) (s : store T) :
  Q a s -> wp (ret a) Q s.
Proof. done. Qed.

Lemma wp_bind {A B} (c : M T A) (k : A -> M T B) (Q : B -> store T -> Prop) (s : store T) :
  wp c (fun a s' => wp (k a) Q s') s -> wp (bind c k) Q s.
Proof. unfold wp, bind. by destruct (c s). Qed.

Lemma wp_mono {A} (c : M T A) (Q Q' : A -> store T -> Prop) (s : store T) :
  wp c Q s -> (forall a s', Q a s' -> Q' a s') -> wp c Q' s.
Proof. unfold wp. destruct (c s); auto. Qed.

Lemma wp_elim {A} (c : M T A) (Q : A -> store T -> Prop) (s : store T) :
  wp c Q s -> exists a s', c s = Ret a s' /\ Q a s'.
Proof. unfold wp. destruct (c s); try done. eauto. Qed.

Lemma wp_intro {A} (c : M T A) (Q : A -> store T -> Prop) (s : store T) a s' :
  c s = Ret a s' -> Q a s' -> wp c Q s.
Proof. unfold wp. by intros ->. Qed.

(** The loop rule: an invariant indexed by the number of iterations done. *)
Lemma wp_for_each {S} (I : nat -> S -> store T -> Prop)
      (l : list nat) (body : nat -> S -> M T S) acc s :
  I 0 acc s ->
  (forall k i a s', l !! k = Some i -> I k a s' ->
                    wp (body i a) (fun a' s'' => I (Datatypes.S k) a' s'') s') ->
  wp (for_each l body acc) (fun a s' => I (length l) a s') s.
Proof.
  revert I acc s. induction l as [|i l IH]; intros I acc s H0 Hstep; simpl.
  - by apply wp_ret.
  - apply wp_bind. eapply wp_mono; [apply (Hstep 0 i); done|].
    intros a s' Ha. simpl in Ha.
    apply (IH (fun k => I (Datatypes.S k))); [done|].
    intros k j a' s'' Hk HI. by apply (Hstep (Datatypes.S k) j).
Qed.

End Wp.

(** ** Elements, rows and the store *)

Section Cells.
Context {T : Type} `{Numeric T}.

Lemma row_of_lookup (hp : list (list T)) c p j :
  j < c -> row_of hp c p !! j = cell hp (ptr_add p j).
Proof.
  intros Hj. unfold row_of, cell. simpl.
  rewrite lookup_take_lt by done. rewrite lookup_drop.
  by destruct (hp !! p_buf p).
Qed.

Lemma row_ok_cell (hp : list (list T)) c p j :
  row_ok hp c p = true -> j < c -> is_Some (cell hp (ptr_add p j)).
Proof.
  unfold row_ok, cell. simpl. destruct (hp !! p_buf p) as [d|]; [|done].
  intros Hd%bool_decide_eq_true Hj. simpl. apply lookup_lt_is_Some. lia.
Qed.

Lemma row_of_length (hp : list (list T)) c p : row_ok hp c p = true -> length (row_of hp c p) = c.
Proof.
  unfold row_ok, row_of. destruct (hp !! p_buf p) as [d|]; [|done].
  intros Hd%bool_decide_eq_true. simpl. rewrite length_take, length_drop. lia.
Qed.

Lemma valid_length (hp : list (list T)) m : valid hp m = true -> length (m_rows_vec m) = rows m.
Proof.
  unfold valid. intros [[_ H1]%andb_true_iff _]%andb_true_iff.
  by apply Nat.eqb_eq.
Qed.

Lemma valid_rows_ok (hp : list (list T)) m p :
  valid hp m = true -> p ∈ m_rows_vec m -> row_ok hp (cols m) p = true.
Proof.
  unfold valid. intros [_ Hall]%andb_true_iff Hp.
  rewrite forallb_forall in Hall. by apply Hall, list_elem_of_In.
Qed.

Lemma valid_row (hp : list (list T)) m i :
  valid hp m = true -> i < rows m ->
  exists p, m_rows_vec m !! i = Some p /\ row_ok hp (cols m) p = true.
Proof.
  intros Hv Hi. pose proof (valid_length _ _ Hv) as Hl.
  destruct (lookup_lt_is_Some_2 (m_rows_vec m) i) as [p Hp]; [lia|].
  exists p. split; [done|].
  eapply valid_rows_ok; [done|]. by eapply list_elem_of_lookup_2.
Qed.

Lemma view_length (hp : list (list T)) m : length (view hp m) = length (m_rows_vec m).
Proof. unfold view. by rewrite length_map. Qed.

Lemma view_lookup (hp : list (list T)) m i p :
  m_rows_vec m !! i = Some p -> view hp m !! i = Some (row_of hp (cols m) p).
Proof. intros Hp. unfold view. by rewrite list_lookup_fmap, Hp. Qed.

Lemma entry_cell (hp : list (list T)) m i j p :
  m_rows_vec m !! i = Some p -> j < cols m ->
  entry (view hp m) i j = default n_zero (cell hp (ptr_add p j)).
Proof.
  intros Hp Hj. unfold entry. rewrite (view_lookup _ _ _ _ Hp). simpl.
  by rewrite row_of_lookup.
Qed.

Lemma load_cell (s : store T) p v :
  cell (bufs s) p = Some v -> load p s = Ret v (Store (bufs s) (p :: accesses s)).
Proof.
  unfold cell, load. destruct (bufs s !! p_buf p) as [d|]; [|done]. simpl.
  by intros ->.
Qed.

Lemma wp_load (s : store T) p v (Q : T -> store T -> Prop) :
  cell (bufs s) p = Some v ->
  (forall s', bufs s' = bufs s -> Q v s') ->
  wp (load p) Q s.
Proof. intros Hc HQ. unfold wp. rewrite (load_cell _ _ _ Hc). by apply HQ. Qed.

Lemma wp_row_at (s : store T) m i p (Q : ptr -> store T -> Prop) :
  m_rows_vec m !! i = Some p -> Q p s -> wp (row_at m i) Q s.
Proof. intros Hp HQ. unfold wp, row_at. by rewrite Hp. Qed.

(** Reading a logical element returns the entry of the view. *)
Lemma wp_get (s : store T) m i j (Q : T -> store T -> Prop) :
  valid (bufs s) m = true -> i < rows m -> j < cols m ->
  (forall s', bufs s' = bufs s -> Q (entry (view (bufs s) m) i j) s') ->
  wp (get m i j) Q s.
Proof.
  intros Hv Hi Hj HQ. destruct (valid_row _ _ _ Hv Hi) as (p & Hp & Hok).
  unfold get. apply wp_bind. eapply wp_row_at; [done|].
  destruct (row_ok_cell _ _ _ _ Hok Hj) as [v Hc].
  eapply wp_load; [done|]. intros s' Hs'.
  rewrite (entry_cell _ _ _ _ _ Hp Hj), Hc in HQ. by apply HQ.
Qed.

End Cells.

(** ** Equality *)

Section Equality.
Context {T : Type} `{Numeric T}.

Lemma ptr_add_0 p : ptr_add p 0 = p.
Proof. destruct p. unfold ptr_add. simpl. f_equal. lia. Qed.

Lemma ptr_add_add p a b : ptr_add (ptr_add p a) b = ptr_add p (a + b).
Proof. unfold ptr_add. simpl. f_equal. lia. Qed.

Lemma for_each_false (l : list nat) (body : nat -> bool -> M T bool) (s : store T) :
  (forall i s', body i false s' = Ret false s') ->
  for_each l body false s = Ret false s.
Proof.
  intros Hb. induction l as [|i l IH]; [done|].
  simpl. unfold bind. by rewrite Hb.
Qed.

Lemma wp_std_equal (s : store T) p q n (Q : bool -> store T -> Prop) :
  (forall j, j < n -> is_Some (cell (bufs s) (ptr_add p j))) ->
  (forall j, j < n -> is_Some (cell (bufs s) (ptr_add q j))) ->
  (forall b s', bufs s' = bufs s ->
     (b = true <-> forall j, j < n ->
        n_eq (default n_zero (cell (bufs s) (ptr_add p j)))
             (default n_zero (cell (bufs s) (ptr_add q j))) = true) ->
     Q b s') ->
  wp (std_equal p n q) Q s.
Proof.
  revert s p q Q. induction n as [|n IH]; intros s p q Q Hp Hq HQ; simpl.
  - apply wp_ret. apply HQ; [done|]. split; [intros _ j Hj; lia|done].
  - destruct (Hp 0) as [a Ha]; [lia|]. destruct (Hq 0) as [b Hb]; [lia|].
    rewrite ptr_add_0 in Ha, Hb.
    apply wp_bind. eapply wp_load; [done|]. intros s1 Hs1.
    apply wp_bind. eapply wp_load; [by rewrite Hs1|]. intros s2 Hs2.
    assert (Hs : bufs s2 = bufs s) by congruence.
    destruct (n_eq a b) eqn:Hab.
    + apply IH.
      * intros j Hj. rewrite ptr_add_add, Hs. apply Hp. lia.
      * intros j Hj. rewrite ptr_add_add, Hs. apply Hq. lia.
      * intros r s' Hs' Hr. apply HQ; [congruence|].
        rewrite Hr, Hs. split.
        -- intros Hall [|j] Hj.
           ++ by rewrite !ptr_add_0, Ha, Hb.
           ++ specialize (Hall j). rewrite !ptr_add_add in Hall. apply Hall. lia.
        -- intros Hall j Hj. rewrite !ptr_add_add. apply Hall. lia.
    + apply wp_ret. apply HQ; [done|]. split; [done|].
      intros Hall. specialize (Hall 0). rewrite !ptr_add_0, Ha, Hb in Hall.
      simpl in Hall. rewrite Hab in Hall. apply Hall. lia.
Qed.

Lemma equal_false_of_shape (m other : matrix) (s : store T) :
  rows m <> rows other \/ cols m <> cols other ->
  equal m other s = Ret false s.
Proof.
  intros Hne. unfold equal.
  assert (Nat.eqb (rows m) (rows other) && Nat.eqb (cols m) (cols other) = false)
    as ->.
  { rewrite andb_false_iff, !Nat.eqb_neq. tauto. }
  by apply for_each_false.
Qed.

(** C10. When the shapes of [m] and [other] differ, [equal] returns
    [false] and leaves the store, with its record of element accesses,
    exactly as it was: no element is read, and no row of either matrix is
    indexed (an out-of-range row index would have been undefined
    behaviour, not a return). This holds for arbitrary objects and stores. *)
Theorem equal_shape_mismatch_no_access (m other : matrix) (s : store T) :
  rows m <> rows other \/ cols m <> cols other ->
  equal m other s = Ret false s.
Proof.
  intros Hne. unfold equal.
  destruct (Nat.eqb (rows m) (rows other)) eqn:Hr;
    destruct (Nat.eqb (cols m) (cols other)) eqn:Hc; simpl.
  - apply Nat.eqb_eq in Hr, Hc. tauto.
  - induction (seq 0 (length (m_rows_vec m))) as [|i l IH]; [done|].
    simpl. unfold bind, ret. apply IH.
  - induction (seq 0 (length (m_rows_vec m))) as [|i l IH]; [done|].
    simpl. unfold bind, ret. apply IH.
  - induction (seq 0 (length (m_rows_vec m))) as [|i l IH]; [done|].
    simpl. unfold bind, ret. apply IH.
Qed.

(** With equal shapes the loop compares every logical row. *)
Lemma wp_equal_same_shape (m other : matrix) (s : store T)
      (Q : bool -> store T -> Prop) :
  valid (bufs s) m = true -> valid (bufs s) other = true ->
  rows m = rows other -> cols m = cols other ->
  (forall b s', bufs s' = bufs s ->
     (b = true <-> forall i j, i < rows m -> j < cols m ->
        n_eq (entry (view (bufs s) m) i j) (entry (view (bufs s) other) i j) = true) ->
     Q b s') ->
  wp (equal m other) Q s.
Proof.
  intros Hm Ho Hr Hc HQ. unfold equal.
  rewrite (proj2 (Nat.eqb_eq _ _) Hr), (proj2 (Nat.eqb_eq _ _) Hc). simpl.
  rewrite (valid_length _ _ Hm).
  eapply wp_mono.
  - apply (wp_for_each (fun k (res : bool) s' =>
             bufs s' = bufs s /\
             (res = true <-> forall i j, i < k -> j < cols m ->
                n_eq (entry (view (bufs s) m) i j)
                     (entry (view (bufs s) other) i j) = true))).
    + split; [done|]. split; [intros _ i j Hi; lia|done].
    + intros k i res s' [-> Hk]%lookup_seq [Hs' Hres]. simpl in *.
      destruct res.
      * destruct (valid_row _ _ _ Hm Hk) as (p & Hp & Hpok).
        destruct (valid_row _ _ k Ho) as (q & Hq & Hqok); [lia|].
        apply wp_bind. eapply wp_row_at; [done|].
        apply wp_bind. eapply wp_row_at; [done|].
        apply wp_std_equal.
        -- intros j Hj. rewrite Hs'. by eapply row_ok_cell.
        -- intros j Hj. rewrite Hs'. eapply row_ok_cell; [done|lia].
        -- intros b s'' Hs'' Hb. split; [congruence|].
           rewrite Hb, Hs'. split.
           ++ intros Hrow i j Hi Hj.
              destruct (decide (i = k)) as [->|].
              ** rewrite (entry_cell _ _ _ _ _ Hp Hj).
                 rewrite (entry_cell _ _ _ _ _ Hq) by lia. by apply Hrow.
              ** apply (proj1 Hres eq_refl); [lia|done].
           ++ intros Hall j Hj.
              rewrite <- (entry_cell _ _ _ _ _ Hp Hj).
              rewrite <- (entry_cell _ other _ _ _ Hq) by lia.
              apply Hall; [lia|done].
      * apply wp_ret. split; [done|]. split; [done|].
        intros Hall. apply (proj2 Hres). intros i j Hi Hj. apply Hall; [lia|done].
  - intros b s' [Hs' Hb]. simpl in Hb. rewrite length_seq in Hb. by apply HQ.
Qed.

(** C7. For live objects [m] and [other], [equal] returns, reads only,
    and answers [true] exactly when the shapes agree and at every logical
    index the two elements compare equal under [operator==]. The elements
    are those of the views, so the order of the rows in the buffers plays
    no part. *)
Theorem equal_iff_logical (m other : matrix) (s : store T) :
  valid (bufs s) m = true -> valid (bufs s) other = true ->
  exists b s',
    equal m other s = Ret b s' /\ bufs s' = bufs s /\
    (b = true <->
     rows m = rows other /\ cols m = cols other /\
     forall i j, i < rows m -> j < cols m ->
       n_eq (entry (view (bufs s) m) i j) (entry (view (bufs s) other) i j) = true).
Proof.
  intros Hm Ho.
  destruct (decide (rows m = rows other /\ cols m = cols other)) as [[Hr Hc]|Hne].
  - destruct (wp_elim (equal m other)
      (fun b s' => bufs s' = bufs s /\
         (b = true <-> forall i j, i < rows m -> j < cols m ->
            n_eq (entry (view (bufs s) m) i j)
                 (entry (view (bufs s) other) i j) = true)) s)
      as (b & s' & Hrun & Hs' & Hb).
    { by apply wp_equal_same_shape. }
    exists b, s'. split_and!; try done. rewrite Hb.
    split; [by intros ?|by intros (_ & _ & ?)].
  - exists false, s. split_and!; try done.
    + apply equal_false_of_shape.
      destruct (decide (rows m = rows other)); [right|left]; tauto.
    + split; [done|]. intros (? & ? & _). tauto.
Qed.

End Equality.

(** ** Column pivot search *)

Section Pivot.
Context {T : Type} `{Numeric T}.

Lemma pivot_search_S A col start n :
  pivot_search A col start (S n)
  = pivot_step A col (pivot_search A col start n) (start + n).
Proof. unfold pivot_search. by rewrite seq_S, fold_left_app. Qed.

Lemma pivot_search_range A col start n :
  start <= pivot_search A col start n <= start + (n - 1).
Proof.
  induction n as [|n IH]; [unfold pivot_search; simpl; lia|].
  rewrite pivot_search_S. unfold pivot_step.
  destruct (n_less _ _); lia.
Qed.

Lemma wp_max_in_col_greater_eq (s : store T) m col start
      (Q : nat * T -> store T -> Prop) :
  valid (bufs s) m = true -> col < cols m -> start < rows m ->
  (forall s', bufs s' = bufs s ->
     let r := pivot_search (view (bufs s) m) col start (rows m - start) in
     Q (r, entry (view (bufs s) m) r col) s') ->
  wp (max_in_col_greater_eq m col start) Q s.
Proof.
  intros Hv Hc Hs HQ. unfold max_in_col_greater_eq.
  apply wp_bind. eapply wp_mono.
  - apply (wp_for_each (fun k mx s' =>
             bufs s' = bufs s /\ mx = pivot_search (view (bufs s) m) col start k)).
    + done.
    + intros k i mx s' [-> Hk]%lookup_seq [Hs' ->].
      pose proof (pivot_search_range (view (bufs s) m) col start k) as [? ?].
      simpl in Hk.
      apply wp_bind. apply wp_get; [by rewrite Hs'|lia|done|].
      intros s1 Hs1. apply wp_bind. apply wp_get; [congruence|lia|done|].
      intros s2 Hs2. apply wp_ret. split; [congruence|].
      rewrite pivot_search_S. unfold pivot_step. by rewrite Hs1, Hs'.
  - intros mx s' [Hs' ->]. simpl. rewrite length_seq.
    pose proof (pivot_search_range (view (bufs s) m) col start (rows m - start))
      as [? ?].
    apply wp_bind. apply wp_get; [by rewrite Hs'|lia|done|].
    intros s1 Hs1. apply wp_ret. rewrite Hs'. apply HQ. congruence.
Qed.

Lemma strict_weak_on_spec (l : list T) :
  strict_weak_on l = true ->
  (forall x, x ∈ l -> n_less x x = false)
  /\ (forall x y z, x ∈ l -> y ∈ l -> z ∈ l ->
        n_less x z = true -> n_less x y = true \/ n_less y z = true)
  /\ (forall x y z, x ∈ l -> y ∈ l -> z ∈ l ->
        n_less x y = true -> n_less y z = true -> n_less x z = true).
Proof.
  unfold strict_weak_on. rewrite andb_true_iff, !forallb_forall.
  intros [Hirr Hxyz].
  assert (Hall : forall x y z, x ∈ l -> y ∈ l -> z ∈ l ->
            implb (n_less x z) (n_less x y || n_less y z)
            && implb (n_less x y && n_less y z) (n_less x z) = true).
  { intros x y z Hx%list_elem_of_In Hy%list_elem_of_In Hz%list_elem_of_In.
    specialize (Hxyz x Hx). rewrite forallb_forall in Hxyz.
    specialize (Hxyz y Hy). rewrite forallb_forall in Hxyz. by apply Hxyz. }
  split; [|split].
  - intros x Hx%list_elem_of_In. apply negb_true_iff. by apply Hirr.
  - intros x y z Hx Hy Hz Hxz. specialize (Hall x y z Hx Hy Hz).
    rewrite Hxz in Hall. simpl in Hall.
    apply andb_true_iff in Hall as [Hor _]. by apply orb_true_iff.
  - intros x y z Hx Hy Hz Hxy Hyz. specialize (Hall x y z Hx Hy Hz).
    rewrite Hxy, Hyz in Hall. simpl in Hall.
    by apply andb_true_iff in Hall as [_ ?].
Qed.

Lemma elem_of_candidates A col start n r :
  start <= r < n -> n_abs (entry A r col) ∈ candidates A col start n.
Proof.
  intros Hr. unfold candidates. apply list_elem_of_fmap.
  exists r. split; [done|]. apply elem_of_seq. lia.
Qed.

(** Under a strict weak order the fold keeps the first maximal row. *)
Lemma pivot_search_first_maximal A col start n :
  start < n -> strict_weak_on (candidates A col start n) = true ->
  first_maximal A col start n (pivot_search A col start (n - start)).
Proof.
  intros Hsn (Hirr & Hneg & Htr)%strict_weak_on_spec.
  set (a := fun r => n_abs (entry A r col)).
  assert (Hin : forall r, start <= r < n -> a r ∈ candidates A col start n)
    by (intros; by apply elem_of_candidates).
  assert (Hinv : forall k, k <= n - start ->
            let r := pivot_search A col start k in
            (forall r', start <= r' < start + k -> n_less (a r) (a r') = false)
            /\ (forall r0, start <= r0 < r -> n_less (a r0) (a r) = true)).
  { induction k as [|k IH]; intros Hk; simpl.
    - unfold pivot_search. simpl. split; intros; lia.
    - destruct IH as [IH1 IH2]; [lia|].
      pose proof (pivot_search_range A col start k) as Hrg.
      rewrite pivot_search_S. unfold pivot_step. fold (a (start + k)).
      set (mx := pivot_search A col start k) in *. fold (a mx).
      assert (Hmx : start <= mx < n).
      { split; [lia|]. destruct k; [unfold mx, pivot_search; simpl|]; lia. }
      destruct (n_less (a mx) (a (start + k))) eqn:Hlt.
      + split.
        * intros r' Hr'. destruct (decide (r' = start + k)) as [->|Hne].
          -- apply Hirr, Hin. lia.
          -- destruct (n_less (a (start + k)) (a r')) eqn:Hx; [|done].
             rewrite <- (IH1 r') by lia. symmetry.
             apply (Htr _ (a (start + k))); try apply Hin; try done; lia.
        * intros r0 Hr0. destruct (decide (r0 < mx)) as [Hlo|Hhi].
          -- apply (Htr _ (a mx)); try apply Hin; try done; try lia.
             apply IH2. lia.
          -- destruct (decide (r0 = mx)) as [->|Hne]; [done|].
             destruct (Hneg (a mx) (a r0) (a (start + k))) as [Hbad|Hok];
               try apply Hin; try done; try lia.
             rewrite IH1 in Hbad by lia. done.
      + split.
        * intros r' Hr'. destruct (decide (r' = start + k)) as [->|Hne]; [done|].
          apply IH1. lia.
        * done. }
  pose proof (pivot_search_range A col start (n - start)) as Hrg.
  destruct (Hinv (n - start)) as [H1 H2]; [lia|]. simpl in H1, H2.
  unfold a in H1, H2.
  split; [lia|]. split.
  - intros r' Hr'. apply H1. lia.
  - intros r0 Hr0 Hall. specialize (H2 r0 Hr0).
    rewrite Hall in H2; [done|]. lia.
Qed.

(** C5, with the side condition it needs. For a live matrix, a column
    [col < cols] and a start row [start < rows], when [std::less] is a
    strict weak order on the absolute values of the candidates (so none
    of them is a NaN), the search returns, reading only, the first row of
    [start .. rows) whose absolute value in the column is not less than
    that of any candidate, together with the signed element there. *)
Theorem max_in_col_greater_eq_first_maximal (m : matrix) (col start : nat) (s : store T) :
  valid (bufs s) m = true -> col < cols m -> start < rows m ->
  strict_weak_on (candidates (view (bufs s) m) col start (rows m)) = true ->
  exists r v s',
    max_in_col_greater_eq m col start s = Ret (r, v) s' /\ bufs s' = bufs s /\
    first_maximal (view (bufs s) m) col start (rows m) r /\
    v = entry (view (bufs s) m) r col.
Proof.
  intros Hv Hc Hs Hswo.
  pose proof (pivot_search_first_maximal _ _ _ _ Hs Hswo) as Hfm.
  destruct (wp_elim (max_in_col_greater_eq m col start)
    (fun rv s' => bufs s' = bufs s /\
       rv = (pivot_search (view (bufs s) m) col start (rows m - start),
             entry (view (bufs s) m)
               (pivot_search (view (bufs s) m) col start (rows m - start)) col)) s)
    as ([r v] & s' & Hrun & Hs' & [= -> ->]).
  { apply wp_max_in_col_greater_eq; try done. }
  eauto 10.
Qed.

End Pivot.

(** ** Writing through a pointer *)

Section Writes.
Context {T : Type} `{Numeric T}.

Lemma store_to_poke (s : store T) p v :
  is_Some (cell (bufs s) p) ->
  store_to p v s = Ret tt (Store (poke (bufs s) p v) (p :: accesses s)).
Proof.
  unfold cell, store_to, poke. intros [x Hx].
  destruct (bufs s !! p_buf p) as [d|] eqn:Hd; [|done]. simpl in Hx.
  apply lookup_lt_Some in Hx. rewrite decide_True by done.
  do 2 f_equal. apply list_eq. intros b.
  destruct (decide (b = p_buf p)) as [->|Hne].
  - rewrite list_lookup_insert_eq by (by eapply lookup_lt_Some).
    by rewrite list_lookup_alter_eq, Hd.
  - rewrite list_lookup_insert_ne by done. by rewrite list_lookup_alter_ne.
Qed.

Lemma wp_store_to (s : store T) p v (Q : unit -> store T -> Prop) :
  is_Some (cell (bufs s) p) ->
  (forall s', bufs s' = poke (bufs s) p v -> Q tt s') ->
  wp (store_to p v) Q s.
Proof. intros Hc HQ. unfold wp. rewrite (store_to_poke _ _ _ Hc). by apply HQ. Qed.

Lemma cell_poke_eq (hp : list (list T)) p v :
  is_Some (cell hp p) -> cell (poke hp p v) p = Some v.
Proof.
  unfold cell, poke. intros [x Hx]. rewrite list_lookup_alter_eq.
  destruct (hp !! p_buf p) as [d|]; [|done]. simpl in *.
  apply list_lookup_insert_eq. by eapply lookup_lt_Some.
Qed.

Lemma cell_poke_ne (hp : list (list T)) p q v :
  p <> q -> cell (poke hp p v) q = cell hp q.
Proof.
  unfold cell, poke. intros Hne.
  destruct (decide (p_buf q = p_buf p)) as [Hb|Hb].
  - rewrite Hb, list_lookup_alter_eq. destruct (hp !! p_buf p) as [d|]; [|by simpl].
    simpl. apply list_lookup_insert_ne. intros Ho. apply Hne.
    destruct p, q; simpl in *; congruence.
  - by rewrite list_lookup_alter_ne.
Qed.

Lemma cell_poke_is_Some (hp : list (list T)) p q v :
  is_Some (cell (poke hp p v) q) <-> is_Some (cell hp q).
Proof.
  unfold cell, poke.
  destruct (decide (p_buf q = p_buf p)) as [Hb|Hb].
  - rewrite Hb, list_lookup_alter_eq. destruct (hp !! p_buf p) as [d|]; [|by simpl].
    simpl. rewrite !lookup_lt_is_Some. by rewrite length_insert.
  - by rewrite list_lookup_alter_ne.
Qed.

Lemma poke_length (hp : list (list T)) p v : length (poke hp p v) = length hp.
Proof. unfold poke. apply length_alter. Qed.

Lemma row_ok_poke (hp : list (list T)) c p q v :
  row_ok (poke hp p v) c q = row_ok hp c q.
Proof.
  unfold row_ok, poke.
  destruct (decide (p_buf q = p_buf p)) as [Hb|Hb].
  - rewrite Hb, list_lookup_alter_eq. destruct (hp !! p_buf p) as [d|]; [|by simpl].
    simpl. by rewrite length_insert.
  - by rewrite list_lookup_alter_ne.
Qed.

Lemma valid_poke (hp : list (list T)) m p v :
  valid (poke hp p v) m = valid hp m.
Proof.
  unfold valid. f_equal; [f_equal|].
  - unfold buffer_ok, poke.
    destruct (decide (cm_data (m_contiguous_matrix m) = p_buf p)) as [->|Hb].
    + rewrite list_lookup_alter_eq. destruct (hp !! p_buf p) as [d|]; [|done].
      simpl. by rewrite length_insert.
    + by rewrite list_lookup_alter_ne.
  - induction (m_rows_vec m) as [|q l IH]; [done|].
    simpl. by rewrite row_ok_poke, IH.
Qed.

(** Rows are determined by their cells. *)
Lemma row_of_ext (hp hp' : list (list T)) c q :
  (forall j, j < c -> cell hp' (ptr_add q j) = cell hp (ptr_add q j)) ->
  row_of hp' c q = row_of hp c q.
Proof.
  intros Hc. apply list_eq. intros j. destruct (decide (j < c)) as [Hj|Hj].
  - rewrite !row_of_lookup by done. by apply Hc.
  - unfold row_of. rewrite !lookup_take_ge by lia. done.
Qed.

Lemma row_of_poke_apart (hp : list (list T)) c p q j v :
  rows_apart c p q = true -> j < c ->
  row_of (poke hp (ptr_add p j) v) c q = row_of hp c q.
Proof.
  intros Hap Hj. apply row_of_ext. intros j' Hj'. apply cell_poke_ne.
  unfold rows_apart in Hap. rewrite !orb_true_iff, negb_true_iff in Hap.
  rewrite Nat.eqb_neq, !Nat.leb_le in Hap.
  unfold ptr_add. intros [= Hb Ho]. lia.
Qed.

Lemma row_of_poke_same (hp : list (list T)) c p j v :
  row_ok hp c p = true -> j < c ->
  row_of (poke hp (ptr_add p j) v) c p = <[j := v]> (row_of hp c p).
Proof.
  intros Hok Hj. apply list_eq. intros j'.
  destruct (decide (j' < c)) as [Hj'|Hj'].
  - rewrite row_of_lookup by done. destruct (decide (j' = j)) as [->|Hne].
    + rewrite cell_poke_eq by (by eapply row_ok_cell).
      symmetry. apply list_lookup_insert_eq. by rewrite row_of_length.
    + rewrite list_lookup_insert_ne by done. rewrite row_of_lookup by done.
      apply cell_poke_ne. unfold ptr_add. intros [= ?]. lia.
  - rewrite list_lookup_insert_ne by lia.
    unfold row_of. rewrite !lookup_take_ge by lia. done.
Qed.

Lemma all_apart_lookup c (l : list ptr) i j p q :
  all_apart c l = true -> l !! i = Some p -> l !! j = Some q -> i <> j ->
  rows_apart c p q = true.
Proof.
  assert (Hsym : forall a b, rows_apart c a b = rows_apart c b a).
  { intros a b. unfold rows_apart. rewrite (Nat.eqb_sym (p_buf a)).
    destruct (negb _), (_ <=? _), (_ <=? _); done. }
  revert i j. induction l as [|x l IH]; intros i j Hall Hi Hj Hne; [done|].
  simpl in Hall. apply andb_true_iff in Hall as [Hx Hl].
  rewrite forallb_forall in Hx.
  destruct i as [|i], j as [|j]; simpl in *; simplify_eq.
  - apply Hx, list_elem_of_In. by eapply list_elem_of_lookup_2.
  - rewrite Hsym. apply Hx, list_elem_of_In. by eapply list_elem_of_lookup_2.
  - eapply IH; eauto.
Qed.

(** Writing one element of a well-formed matrix changes that entry of
    the view and nothing else of it. *)
Lemma view_poke (hp : list (list T)) m i j p v :
  wf hp m = true -> m_rows_vec m !! i = Some p -> j < cols m ->
  view (poke hp (ptr_add p j) v) m
  = <[i := <[j := v]> (row_of hp (cols m) p)]> (view hp m).
Proof.
  intros [Hv Hap]%andb_true_iff Hp Hj. apply list_eq. intros i'.
  destruct (decide (i' = i)) as [->|Hne].
  - rewrite list_lookup_insert_eq by (rewrite view_length; by eapply lookup_lt_Some).
    rewrite (view_lookup _ _ _ _ Hp). f_equal.
    apply row_of_poke_same; [|done].
    eapply valid_rows_ok; [done|]. by eapply list_elem_of_lookup_2.
  - rewrite list_lookup_insert_ne by done. unfold view.
    rewrite !list_lookup_fmap. destruct (m_rows_vec m !! i') as [q|] eqn:Hq; [|done].
    simpl. f_equal. apply row_of_poke_apart; [|done].
    by eapply all_apart_lookup.
Qed.

Lemma wf_poke (hp : list (list T)) m p v : wf (poke hp p v) m = wf hp m.
Proof. unfold wf. by rewrite valid_poke. Qed.

Lemma wp_set (s : store T) m i j v p (Q : unit -> store T -> Prop) :
  m_rows_vec m !! i = Some p -> is_Some (cell (bufs s) (ptr_add p j)) ->
  (forall s', bufs s' = poke (bufs s) (ptr_add p j) v -> Q tt s') ->
  wp (set m i j v) Q s.
Proof.
  intros Hp Hc HQ. unfold set. apply wp_bind. eapply wp_row_at; [done|].
  by apply wp_store_to.
Qed.

End Writes.

(** ** Gauss–Jordan elimination on the logical matrix *)

Section Elimination.
Context {T : Type} `{Numeric T}.

(** *** Well-formedness, pointwise *)

Lemma all_apart_intro c (l : list ptr) :
  (forall i j p q, l !! i = Some p -> l !! j = Some q -> i <> j ->
                   rows_apart c p q = true) ->
  all_apart c l = true.
Proof.
  induction l as [|x l IH]; intros Hall; [done|]. simpl.
  apply andb_true_iff. split.
  - apply forallb_forall. intros q [j Hj]%list_elem_of_In%list_elem_of_lookup_1.
    by apply (Hall 0 (S j)).
  - apply IH. intros i j p q Hi Hj Hne. apply (Hall (S i) (S j)); auto.
Qed.

Lemma wf_valid (hp : list (list T)) m : wf hp m = true -> valid hp m = true.
Proof. unfold wf. by intros [? _]%andb_true_iff. Qed.

Lemma swap_lookup {X} (l : list X) i j x y k :
  l !! i = Some x -> l !! j = Some y ->
  <[j := x]> (<[i := y]> l) !! k
  = l !! (if decide (k = j) then i else if decide (k = i) then j else k).
Proof.
  intros Hi Hj. destruct (decide (k = j)) as [->|Hkj].
  - rewrite list_lookup_insert_eq; [done|].
    rewrite length_insert. by eapply lookup_lt_Some.
  - rewrite list_lookup_insert_ne by done.
    destruct (decide (k = i)) as [->|Hki].
    + rewrite list_lookup_insert_eq; [done|]. by eapply lookup_lt_Some.
    + by rewrite list_lookup_insert_ne.
Qed.

Lemma wp_swap_rows (s : store T) m i j (Q : matrix -> store T -> Prop) :
  wf (bufs s) m = true -> i < rows m -> j < rows m ->
  (forall m', rows m' = rows m -> cols m' = cols m -> wf (bufs s) m' = true ->
              view (bufs s) m' = swap_rows_spec (view (bufs s) m) i j -> Q m' s) ->
  wp (swap_rows m i j) Q s.
Proof.
  intros Hwf Hi Hj HQ. pose proof (wf_valid _ _ Hwf) as Hv.
  destruct (valid_row _ _ _ Hv Hi) as (p1 & Hp1 & _).
  destruct (valid_row _ _ _ Hv Hj) as (p2 & Hp2 & _).
  unfold swap_rows. apply wp_bind. eapply wp_row_at; [done|].
  apply wp_bind. eapply wp_row_at; [done|]. apply wp_ret.
  apply HQ; try done.
  - unfold wf, valid in *. simpl. unfold rows, cols in *. simpl.
    apply andb_true_iff in Hwf as [[[Hb Hl]%andb_true_iff Hok]%andb_true_iff Hap].
    rewrite Hb, !length_insert, Hl. simpl. apply andb_true_iff. split.
    + apply forallb_forall.
      intros q [k Hk]%list_elem_of_In%list_elem_of_lookup_1.
      rewrite (swap_lookup _ _ _ _ _ _ Hp1 Hp2) in Hk.
      rewrite forallb_forall in Hok. apply Hok, list_elem_of_In.
      by eapply list_elem_of_lookup_2.
    + apply all_apart_intro. intros a b p q Ha Hb' Hne.
      rewrite (swap_lookup _ _ _ _ _ _ Hp1 Hp2) in Ha.
      rewrite (swap_lookup _ _ _ _ _ _ Hp1 Hp2) in Hb'.
      eapply all_apart_lookup; [done|done|done|].
      repeat case_decide; lia.
  - unfold view, swap_rows_spec, cols. simpl.
    rewrite !list_lookup_fmap, Hp1, Hp2. simpl.
    by rewrite !list_fmap_insert.
Qed.

(** *** The loops of [gauss_jordan_elimination] *)

Lemma entry_insert_ne (A : list (list T)) r row i j :
  r <> i -> entry (<[r := row]> A) i j = entry A i j.
Proof. intros Hne. unfold entry. by rewrite list_lookup_insert_ne. Qed.

Lemma entry_insert_eq (A : list (list T)) r row j :
  r < length A -> entry (<[r := row]> A) r j = default n_zero (row !! j).
Proof. intros Hr. unfold entry. by rewrite list_lookup_insert_eq. Qed.

Lemma entry_lookup (A : list (list T)) r row j x :
  A !! r = Some row -> row !! j = Some x -> entry A r j = x.
Proof. intros Hr Hj. unfold entry. rewrite Hr. simpl. by rewrite Hj. Qed.

Lemma valid_view_row (hp : list (list T)) m r :
  valid hp m = true -> r < rows m ->
  exists p row, m_rows_vec m !! r = Some p /\ row_ok hp (cols m) p = true
                /\ view hp m !! r = Some row /\ row = row_of hp (cols m) p
                /\ length row = cols m.
Proof.
  intros Hv Hr. destruct (valid_row _ _ _ Hv Hr) as (p & Hp & Hok).
  exists p, (row_of hp (cols m) p). split_and!; try done.
  - by apply view_lookup.
  - by apply row_of_length.
Qed.

Lemma wp_eliminate_row (s : store T) mat c i pe r (Q : unit -> store T -> Prop) :
  c = cols mat ->
  wf (bufs s) mat = true -> i < rows mat -> i < cols mat -> r < rows mat ->
  (forall s', wf (bufs s') mat = true ->
              view (bufs s') mat = clear_row_spec (view (bufs s) mat) i pe r ->
              Q tt s') ->
  wp (eliminate_row mat c i pe r) Q s.
Proof.
  intros -> Hwf Hi Hic Hr HQ. unfold eliminate_row, clear_row_spec in *.
  destruct (decide (i = r)) as [->|Hne].
  { rewrite decide_False by (by intros ?). by apply wp_ret, HQ. }
  rewrite decide_True by done.
  set (A := view (bufs s) mat) in *.
  pose proof (wf_valid _ _ Hwf) as Hv.
  destruct (valid_view_row _ _ _ Hv Hr) as (pr & Ar & Hpr & Hprok & HAr & _ & HlAr).
  fold A in HAr. rewrite HAr in HQ. simpl in HQ.
  assert (HrA : r < length A) by (by eapply lookup_lt_Some).
  apply wp_bind. apply wp_get; [done..|]. intros s0 Hs0. fold A.
  set (c := n_div (entry A r i) pe) in *.
  set (f := fun k a => n_sub a (n_mul c (entry A i k))) in *.
  eapply wp_mono.
  - apply (wp_for_each (fun k (_ : unit) s' =>
      wf (bufs s') mat = true /\
      exists row, view (bufs s') mat = <[r := row]> A /\ length row = cols mat /\
        forall j, j < cols mat ->
          row !! j = Some (if decide (j < k) then f j (entry A r j) else entry A r j))).
    + rewrite Hs0. split; [done|]. exists Ar. split_and!; try done.
      * fold A. by rewrite list_insert_id.
      * intros j Hj. simpl.
        destruct (lookup_lt_is_Some_2 Ar j) as [x Hx]; [lia|].
        by rewrite Hx, (entry_lookup _ _ _ _ _ HAr Hx).
    + intros k j [] s1 [-> Hk]%lookup_seq (Hwf1 & row & Hview & Hlen & Hrow).
      simpl in *. pose proof (wf_valid _ _ Hwf1) as Hv1.
      apply wp_bind. apply wp_get; [done..|]. intros s2 Hs2.
      apply wp_bind. apply wp_get; [by rewrite Hs2|done..|]. intros s3 Hs3.
      rewrite Hs2 in Hs3. rewrite Hs2, Hview.
      rewrite entry_insert_eq by done. rewrite entry_insert_ne by lia.
      rewrite (Hrow k Hk). rewrite decide_False by lia. simpl.
      destruct (valid_view_row _ _ _ Hv1 Hr) as (pr' & row' & Hpr' & Hok' & Hrow' & Heq' & _).
      assert (pr' = pr) as -> by congruence.
      assert (row' = row) as ->.
      { rewrite Hview, list_lookup_insert_eq in Hrow' by done. congruence. }
      eapply wp_set; [done| |].
      { rewrite Hs3. by eapply row_ok_cell. }
      intros s4 Hs4. rewrite Hs3 in Hs4. rewrite Hs4.
      split; [by rewrite wf_poke|].
      exists (<[k := f k (entry A r k)]> row). split_and!.
      * rewrite (view_poke _ _ _ _ _ _ Hwf1 Hpr) by done.
        rewrite <- Heq', Hview. by rewrite list_insert_insert_eq.
      * by rewrite length_insert.
      * intros j Hj. destruct (decide (j = k)) as [->|Hjk].
        -- rewrite list_lookup_insert_eq by lia. by rewrite decide_True by lia.
        -- rewrite list_lookup_insert_ne by done. rewrite (Hrow j Hj).
           do 2 case_decide; try done; lia.
  - intros [] s' (Hwf' & row & Hview & Hlen & Hrow). simpl.
    rewrite length_seq in Hrow. apply HQ; [done|].
    rewrite Hview. f_equal. apply list_eq. intros j.
    rewrite list_lookup_imap.
    destruct (decide (j < cols mat)) as [Hj|Hj].
    + rewrite (Hrow j Hj), decide_True by done.
      destruct (lookup_lt_is_Some_2 Ar j) as [x Hx]; [lia|].
      rewrite Hx. simpl. by rewrite (entry_lookup _ _ _ _ _ HAr Hx).
    + rewrite !lookup_ge_None_2 by lia. done.
Qed.

Lemma entry_row_ext (A B : list (list T)) r j :
  A !! r = B !! r -> entry A r j = entry B r j.
Proof. unfold entry. by intros ->. Qed.

Lemma eliminate_spec_pivot_row (A : list (list T)) i p :
  eliminate_spec A i p !! i = A !! i.
Proof.
  unfold eliminate_spec. rewrite list_lookup_imap.
  destruct (A !! i); [|done]. simpl. by rewrite decide_True.
Qed.

Lemma eliminate_spec_length (A : list (list T)) i p :
  length (eliminate_spec A i p) = length A.
Proof. unfold eliminate_spec. by rewrite length_imap. Qed.

Lemma wp_clear_rows (s : store T) mat i pe (Q : unit -> store T -> Prop) :
  wf (bufs s) mat = true -> i < rows mat -> i < cols mat ->
  (forall s', wf (bufs s') mat = true ->
              view (bufs s') mat = eliminate_spec (view (bufs s) mat) i pe ->
              Q tt s') ->
  wp (for_each (seq 0 (rows mat))
        (fun r _ => eliminate_row mat (cols mat) i pe r) tt) Q s.
Proof.
  intros Hwf Hi Hic HQ.
  set (A := view (bufs s) mat) in *. set (E := eliminate_spec A i pe) in *.
  assert (HlA : length A = rows mat).
  { unfold A. rewrite view_length. by eapply valid_length, wf_valid. }
  eapply wp_mono.
  - apply (wp_for_each (fun k (_ : unit) s' =>
      wf (bufs s') mat = true /\
      forall j, view (bufs s') mat !! j
                = if decide (j < k) then E !! j else A !! j)).
    + split; [done|]. intros j. by rewrite decide_False by lia.
    + intros k r [] s1 [-> Hk]%lookup_seq [Hwf1 Hrows]. simpl in *.
      apply wp_eliminate_row; [done..|]. intros s2 Hwf2 Hview2.
      split; [done|]. intros j. rewrite Hview2. unfold clear_row_spec.
      assert (HVi : view (bufs s1) mat !! i = A !! i).
      { rewrite Hrows. case_decide; [|done]. apply eliminate_spec_pivot_row. }
      assert (HVk : view (bufs s1) mat !! k = A !! k).
      { rewrite Hrows. by rewrite decide_False by lia. }
      destruct (decide (i = k)) as [->|Hne].
      * rewrite Hrows. destruct (decide (j = k)) as [->|Hjk].
        -- rewrite decide_False, decide_True by lia.
           symmetry. apply eliminate_spec_pivot_row.
        -- do 2 case_decide; try done; lia.
      * destruct (decide (j = k)) as [->|Hjk].
        -- rewrite list_lookup_insert_eq
             by (rewrite view_length, (valid_length _ _ (wf_valid _ _ Hwf1)); lia).
           rewrite decide_True by lia. unfold E, eliminate_spec.
           rewrite list_lookup_imap, HVk.
           destruct (A !! k) as [Ak|] eqn:HAk; [|apply lookup_ge_None_1 in HAk; lia].
           simpl. rewrite decide_False by done. f_equal.
           apply imap_ext. intros c a _. simpl.
           rewrite (entry_row_ext _ A k) by (by rewrite HVk).
           by rewrite (entry_row_ext _ A i) by done.
        -- rewrite list_lookup_insert_ne by done. rewrite Hrows.
           do 2 case_decide; try done; lia.
  - intros [] s' [Hwf' Hrows]. simpl. rewrite length_seq in Hrows.
    apply HQ; [done|]. apply list_eq. intros j. rewrite Hrows.
    case_decide; [done|]. fold A. fold E.
    rewrite !lookup_ge_None_2; [done| |lia].
    unfold E. rewrite eliminate_spec_length. lia.
Qed.

(** One iteration of the outer loop. *)
Lemma wp_gauss_jordan_iteration (s : store T) mat n c i (Q : matrix -> store T -> Prop) :
  wf (bufs s) mat = true -> n = rows mat -> c = cols mat ->
  i < rows mat -> i < cols mat ->
  (forall mat' s', rows mat' = rows mat -> cols mat' = cols mat ->
                   wf (bufs s') mat' = true ->
                   view (bufs s') mat' = gauss_jordan_step (view (bufs s) mat) i ->
                   Q mat' s') ->
  wp (let* (pivot_row, pivot_elem) := max_in_col_greater_eq mat i i in
      let* mat := swap_rows mat i pivot_row in
      let* _ := for_each (seq 0 n) (fun r _ => eliminate_row mat c i pivot_elem r) tt in
      ret mat) Q s.
Proof.
  intros Hwf -> -> Hi Hic HQ. pose proof (wf_valid _ _ Hwf) as Hv.
  set (A := view (bufs s) mat) in *.
  assert (HlA : length A = rows mat).
  { unfold A. rewrite view_length. by eapply valid_length. }
  apply wp_bind. apply wp_max_in_col_greater_eq; [done..|].
  intros s1 Hs1. fold A. simpl.
  pose proof (pivot_search_range A i i (rows mat - i)) as Hrg.
  apply wp_bind. apply wp_swap_rows; [by rewrite Hs1|done|lia|].
  intros mat1 Hr1 Hc1 Hwf1 Hview1.
  apply wp_bind. rewrite <- Hr1, <- Hc1.
  apply wp_clear_rows; [done|lia|lia|].
  intros s2 Hwf2 Hview2. apply wp_ret.
  apply HQ; [done..|].
  rewrite Hview2, Hview1, Hs1. fold A.
  unfold gauss_jordan_step. by rewrite HlA, ?Hr1.
Qed.

Lemma wp_gauss_jordan_elimination (s : store T) m (Q : matrix -> store T -> Prop) :
  wf (bufs s) m = true -> rows m <= cols m ->
  (forall mat s', rows mat = rows m -> cols mat = cols m ->
                  wf (bufs s') mat = true ->
                  view (bufs s') mat = gauss_jordan_spec (view (bufs s) m) ->
                  Q mat s') ->
  wp (gauss_jordan_elimination m) Q s.
Proof.
  intros Hwf Hsq HQ. set (A := view (bufs s) m) in *.
  assert (HlA : length A = rows m).
  { unfold A. rewrite view_length. by eapply valid_length, wf_valid. }
  unfold gauss_jordan_elimination. eapply wp_mono.
  - apply (wp_for_each (fun k mat s' =>
      rows mat = rows m /\ cols mat = cols m /\ wf (bufs s') mat = true /\
      view (bufs s') mat = fold_left gauss_jordan_step (seq 0 k) A)).
    + done.
    + intros k i mat s1 [-> Hk]%lookup_seq (Hr & Hc & Hwf1 & Hview1). simpl in Hk.
      rewrite Nat.add_0_l.
      apply wp_gauss_jordan_iteration; [done|done|done|lia|lia|].
      intros mat' s2 Hr' Hc' Hwf2 Hview2. split_and!; try congruence.
      by rewrite seq_S, fold_left_app, Hview2, Hview1.
  - intros mat s' (Hr & Hc & Hwf' & Hview). simpl in *. rewrite length_seq in Hview.
    apply HQ; try done. unfold gauss_jordan_spec. by rewrite HlA.
Qed.

(** *** The implicit copy *)

Lemma row_ok_app (hp : list (list T)) x c p :
  row_ok hp c p = true -> row_ok (hp ++ x) c p = true.
Proof.
  unfold row_ok. destruct (hp !! p_buf p) as [d|] eqn:Hd; [|done].
  by rewrite (lookup_app_l_Some _ _ _ _ Hd).
Qed.

Lemma row_of_app (hp : list (list T)) x c p :
  row_ok hp c p = true -> row_of (hp ++ x) c p = row_of hp c p.
Proof.
  unfold row_ok, row_of. destruct (hp !! p_buf p) as [d|] eqn:Hd; [|done].
  by rewrite (lookup_app_l_Some _ _ _ _ Hd).
Qed.

(** The copy owns a fresh buffer, but its rows are the rows of the
    original: same pointers, hence the same view, element for element. *)
Lemma wp_matrix_copy (s : store T) m (Q : matrix -> store T -> Prop) :
  wf (bufs s) m = true ->
  (forall tmp s' d, bufs s' = bufs s ++ [d] ->
                    rows tmp = rows m -> cols tmp = cols m ->
                    m_rows_vec tmp = m_rows_vec m ->
                    wf (bufs s') tmp = true ->
                    view (bufs s') tmp = view (bufs s) m -> Q tmp s') ->
  wp (matrix_copy m) Q s.
Proof.
  intros Hwf HQ. pose proof Hwf as [Hv Hap]%andb_true_iff.
  pose proof Hv as [[Hb Hl]%andb_true_iff Hok]%andb_true_iff.
  unfold matrix_copy, cm_copy, wp, bind, alloc, ret. unfold buffer_ok in Hb.
  destruct (bufs s !! cm_data (m_contiguous_matrix m)) as [d|] eqn:Hd; [|done].
  apply (HQ _ _ d); try done; simpl.
  - unfold wf, valid, buffer_ok, rows, cols in *. simpl.
    rewrite lookup_app_r, Nat.sub_diag by done. simpl.
    rewrite Hb, Hl, Hap. simpl. rewrite andb_true_r.
    apply forallb_forall. intros p Hp. apply row_ok_app.
    rewrite forallb_forall in Hok. by apply Hok.
  - unfold view, cols. simpl. apply map_ext_in. intros p Hp.
    apply row_of_app. rewrite forallb_forall in Hok. by apply Hok.
Qed.

Lemma wp_diagonal (s : store T) tmp (Q : T -> store T -> Prop) :
  valid (bufs s) tmp = true -> rows tmp <= cols tmp ->
  (forall s', bufs s' = bufs s -> Q (diagonal_product (view (bufs s) tmp)) s') ->
  wp (for_each (seq 0 (rows tmp)) (fun i res =>
        let* d := get tmp i i in ret (n_mul res d)) n_one) Q s.
Proof.
  intros Hv Hsq HQ. set (A := view (bufs s) tmp) in *.
  eapply wp_mono.
  - apply (wp_for_each (fun k res s' =>
      bufs s' = bufs s /\
      res = fold_left (fun res i => n_mul res (entry A i i)) (seq 0 k) n_one)).
    + done.
    + intros k i res s1 [-> Hk]%lookup_seq [Hs1 ->]. simpl in Hk.
      rewrite Nat.add_0_l.
      apply wp_bind. apply wp_get; [by rewrite Hs1|done|lia|].
      intros s2 Hs2. apply wp_ret. split; [congruence|].
      by rewrite seq_S, fold_left_app, Hs1.
  - intros res s' [Hs' ->]. simpl. rewrite length_seq. 
    unfold diagonal_product in HQ.
    replace (length A) with (rows tmp) in HQ; [by apply HQ|].
    unfold A. rewrite view_length. symmetry. by eapply valid_length.
Qed.

(** The three phases of [determinant] on a square matrix. *)
Lemma wp_determinant_phases (m : matrix) (s : store T) (Q : T -> store T -> Prop) :
  wf (bufs s) m = true -> cols m = rows m ->
  (forall s', Q (diagonal_product (gauss_jordan_spec (view (bufs s) m))) s') ->
  wp (let* tmp := matrix_copy m in
      let* tmp := gauss_jordan_elimination tmp in
      for_each (seq 0 (rows tmp)) (fun i res =>
        let* d := get tmp i i in ret (n_mul res d)) n_one) Q s.
Proof.
  intros Hwf Hsq HQ.
  apply wp_bind. apply wp_matrix_copy; [done|].
  intros tmp s1 d Hs1 Hr Hc Hvec Hwf1 Hview1.
  apply wp_bind. apply wp_gauss_jordan_elimination; [done|lia|].
  intros mat s2 Hr2 Hc2 Hwf2 Hview2.
  apply wp_diagonal; [by apply wf_valid|lia|].
  intros s3 Hs3. rewrite Hview2, Hview1. apply HQ.
Qed.

(** C1. On a well-formed square matrix [determinant] returns the product,
    taken in index order from [1], of the diagonal of the Gauss–Jordan
    reduction (partial pivoting, no scaling of the pivot row) of the
    logical matrix; on a well-formed matrix that is not square it throws
    and changes nothing. *)
Theorem determinant_diagonal_of_reduction (m : matrix) (s : store T) :
  wf (bufs s) m = true ->
  (square m = true ->
   exists s', determinant m s
              = Ret (diagonal_product (gauss_jordan_spec (view (bufs s) m))) s')
  /\ (square m = false ->
      determinant m s = Throw "Mismatched matrix size for determinant" s).
Proof.
  intros Hwf. unfold determinant. split; intros Hsq; rewrite Hsq; simpl; [|done].
  apply Nat.eqb_eq in Hsq.
  destruct (wp_elim
    (let* tmp := matrix_copy m in
     let* tmp := gauss_jordan_elimination tmp in
     for_each (seq 0 (rows tmp)) (fun i res =>
       let* d := get tmp i i in ret (n_mul res d)) n_one)
    (fun v _ => v = diagonal_product (gauss_jordan_spec (view (bufs s) m))) s)
    as (v & s' & Hrun & ->); [|by exists s'].
  by apply wp_determinant_phases.
Qed.

End Elimination.

(** ** Fresh objects and the frame *)

Section Fresh.
Context {T : Type} `{Numeric T}.

Lemma agree_refl (hp : list (list T)) : agree hp hp.
Proof. by intros b _. Qed.

Lemma agree_trans (hp1 hp2 hp3 : list (list T)) :
  agree hp1 hp2 -> agree hp2 hp3 -> length hp1 <= length hp2 -> agree hp1 hp3.
Proof. intros H12 H23 Hl b Hb. rewrite H23 by lia. by apply H12. Qed.

Lemma agree_app (hp x : list (list T)) : agree hp (hp ++ x).
Proof. intros b Hb. by apply lookup_app_l. Qed.

Lemma agree_poke (hp hp' : list (list T)) p v :
  agree hp hp' -> length hp <= p_buf p -> agree hp (poke hp' p v).
Proof.
  intros Hag Hp b Hb. unfold poke. rewrite list_lookup_alter_ne by lia.
  by apply Hag.
Qed.

Lemma row_ok_agree (hp hp' : list (list T)) c p :
  agree hp hp' -> row_ok hp c p = true ->
  row_ok hp' c p = true /\ row_of hp' c p = row_of hp c p.
Proof.
  intros Hag. unfold row_ok, row_of.
  destruct (hp !! p_buf p) as [d|] eqn:Hd; [|done].
  rewrite Hag, Hd by (by eapply lookup_lt_Some). done.
Qed.

Lemma valid_agree (hp hp' : list (list T)) m :
  agree hp hp' -> valid hp m = true ->
  valid hp' m = true /\ view hp' m = view hp m.
Proof.
  intros Hag Hv. pose proof Hv as [[Hb Hl]%andb_true_iff Hok]%andb_true_iff.
  rewrite forallb_forall in Hok. split.
  - unfold valid. rewrite Hl. simpl. apply andb_true_iff. split.
    + rewrite andb_true_r. unfold buffer_ok in *.
      destruct (hp !! cm_data (m_contiguous_matrix m)) as [d|] eqn:Hd; [|done].
      by rewrite Hag, Hd by (by eapply lookup_lt_Some).
    + apply forallb_forall. intros p Hp.
      by apply (row_ok_agree hp hp' _ _ Hag), Hok.
  - unfold view. apply map_ext_in. intros p Hp.
    by apply (row_ok_agree hp hp' _ _ Hag), Hok.
Qed.

Lemma wf_agree (hp hp' : list (list T)) m :
  agree hp hp' -> wf hp m = true -> wf hp' m = true /\ view hp' m = view hp m.
Proof.
  intros Hag [Hv Hap]%andb_true_iff.
  destruct (valid_agree _ _ _ Hag Hv) as [Hv' Hview]. split; [|done].
  unfold wf. by rewrite Hv', Hap.
Qed.

(** Writing one element of a well-formed matrix, entry by entry. *)
Lemma entry_poke (hp : list (list T)) m i j p v i' j' :
  wf hp m = true -> m_rows_vec m !! i = Some p -> j < cols m ->
  entry (view (poke hp (ptr_add p j) v) m) i' j'
  = if decide (i' = i /\ j' = j) then v else entry (view hp m) i' j'.
Proof.
  intros Hwf Hp Hj. rewrite (view_poke _ _ _ _ _ _ Hwf Hp Hj).
  pose proof (wf_valid _ _ Hwf) as Hv.
  assert (Hi : i < length (view hp m)).
  { rewrite view_length. by eapply lookup_lt_Some. }
  assert (Hlen : length (row_of hp (cols m) p) = cols m).
  { apply row_of_length. eapply valid_rows_ok; [done|].
    by eapply list_elem_of_lookup_2. }
  unfold entry. destruct (decide (i' = i)) as [->|Hne].
  - rewrite list_lookup_insert_eq by done. simpl.
    rewrite (view_lookup _ _ _ _ Hp). simpl.
    destruct (decide (j' = j)) as [->|Hnj].
    + rewrite list_lookup_insert_eq by lia. by rewrite decide_True.
    + rewrite list_lookup_insert_ne by done. by rewrite decide_False by tauto.
  - rewrite list_lookup_insert_ne by done. by rewrite decide_False by tauto.
Qed.

(** Two logical matrices of the same shape with the same entries. *)
Lemma matrix_ext (A B : list (list T)) r c :
  length A = r -> length B = r ->
  (forall i row, A !! i = Some row -> length row = c) ->
  (forall i row, B !! i = Some row -> length row = c) ->
  (forall i j, i < r -> j < c -> entry A i j = entry B i j) ->
  A = B.
Proof.
  intros HA HB HrA HrB Hent. apply list_eq. intros i.
  destruct (decide (i < r)) as [Hi|Hi].
  - destruct (lookup_lt_is_Some_2 A i) as [ra Hra]; [lia|].
    destruct (lookup_lt_is_Some_2 B i) as [rb Hrb]; [lia|].
    rewrite Hra, Hrb. f_equal. apply list_eq. intros j.
    destruct (decide (j < c)) as [Hj|Hj].
    + specialize (Hent i j Hi Hj). unfold entry in Hent.
      rewrite Hra, Hrb in Hent. simpl in Hent.
      destruct (lookup_lt_is_Some_2 ra j) as [x Hx]; [by rewrite (HrA _ _ Hra)|].
      destruct (lookup_lt_is_Some_2 rb j) as [y Hy]; [by rewrite (HrB _ _ Hrb)|].
      rewrite Hx, Hy in *. simpl in Hent. by subst.
    + rewrite !lookup_ge_None_2; [done| |].
      * rewrite (HrB _ _ Hrb). lia.
      * rewrite (HrA _ _ Hra). lia.
  - rewrite !lookup_ge_None_2 by lia. done.
Qed.

Lemma view_row_length (hp : list (list T)) m i row :
  valid hp m = true -> view hp m !! i = Some row -> length row = cols m.
Proof.
  intros Hv Hrow. unfold view in Hrow. rewrite list_lookup_fmap in Hrow.
  destruct (m_rows_vec m !! i) as [p|] eqn:Hp; [|done]. simpl in Hrow.
  injection Hrow as <-. apply row_of_length.
  eapply valid_rows_ok; [done|]. by eapply list_elem_of_lookup_2.
Qed.

(** [matrix(rows, cols, val)]: a fresh buffer, rows in physical order. *)
Lemma wp_matrix_value (s : store T) r c v (Q : matrix -> store T -> Prop) :
  (forall t s', bufs s' = bufs s ++ [replicate (r * c) v] ->
                rows t = r -> cols t = c ->
                (forall k, k < r ->
                   m_rows_vec t !! k = Some (Ptr (length (bufs s)) (0 + k * c))) ->
                wf (bufs s') t = true ->
                (forall i j, i < r -> j < c -> entry (view (bufs s') t) i j = v) ->
                Q t s') ->
  wp (matrix_value r c v) Q s.
Proof.
  intros HQ. unfold matrix_value, cm_with_value, wp, bind, alloc, ret. simpl.
  set (b := length (bufs s)).
  set (t := update_rows_vec (Matrix (CMatrix r c b) [])).
  assert (Hvec : forall k, k < r -> m_rows_vec t !! k = Some (Ptr b (0 + k * c))).
  { intros k Hk. unfold t, update_rows_vec, rows, cols. simpl.
    rewrite list_lookup_fmap, lookup_seq_lt by done. done. }
  assert (Hwf : wf (bufs s ++ [replicate (r * c) v]) t = true).
  { unfold wf, valid, buffer_ok, rows, cols. simpl.
    rewrite lookup_app_r, Nat.sub_diag by done. simpl.
    rewrite length_replicate, Nat.eqb_refl, length_map, length_seq, Nat.eqb_refl.
    simpl. apply andb_true_iff. split.
    - apply forallb_forall. intros p [k [-> Hk%elem_of_seq]]%list_elem_of_In%list_elem_of_fmap.
      unfold row_ok. simpl. rewrite lookup_app_r, Nat.sub_diag by done. simpl.
      apply bool_decide_eq_true. rewrite length_replicate.
      unfold rows, cols in *. simpl in *. nia.
    - apply all_apart_intro. intros i j p q Hi Hj Hne.
      rewrite list_lookup_fmap in Hi. rewrite list_lookup_fmap in Hj.
      apply fmap_Some in Hi as [i' [[-> Hi]%lookup_seq ->]].
      apply fmap_Some in Hj as [j' [[-> Hj]%lookup_seq ->]].
      unfold rows_apart, rows, cols in *. simpl in *. rewrite Nat.eqb_refl. simpl.
      apply orb_true_iff. rewrite !Nat.leb_le. nia. }
  apply (HQ t); try done.
  intros i j Hi Hj. rewrite (entry_cell _ _ _ _ _ (Hvec i Hi)) by done.
  unfold cell. simpl. rewrite lookup_app_r, Nat.sub_diag by done. simpl.
  rewrite lookup_replicate_2; [done|]. nia.
Qed.

End Fresh.

(** ** Transpose *)

Section Transpose.
Context {T : Type} `{Numeric T}.

Lemma wp_transpose (s : store T) m (Q : matrix -> store T -> Prop) :
  valid (bufs s) m = true ->
  (forall t s', rows t = cols m -> cols t = rows m ->
                wf (bufs s') t = true -> agree (bufs s) (bufs s') ->
                length (bufs s) <= length (bufs s') ->
                (forall p, p ∈ m_rows_vec t -> p_buf p = length (bufs s)) ->
                (forall i j, i < rows m -> j < cols m ->
                   entry (view (bufs s') t) j i = entry (view (bufs s) m) i j) ->
                Q t s') ->
  wp (transpose m) Q s.
Proof.
  intros Hv HQ. set (A := view (bufs s) m) in *.
  unfold transpose. apply wp_bind. apply wp_matrix_value.
  intros t s1 Hs1 Hrt Hct Hvec Hwf1 _.
  set (P := fun (i : nat) (hp' : list (list T)) =>
    agree (bufs s) hp' /\ length hp' = Datatypes.S (length (bufs s)) /\
    wf hp' t = true /\
    forall i' j', i' < i -> j' < cols m ->
      entry (view hp' t) j' i' = entry A i' j').
  apply wp_bind. eapply wp_mono.
  - apply (wp_for_each (fun i (_ : unit) s' => P i (bufs s'))).
    + unfold P. rewrite Hs1 in Hwf1 |- *. split_and!; try done.
      * apply agree_app.
      * rewrite length_app. simpl. lia.
      * intros; lia.
    + intros i ? [] s2 [-> Hi]%lookup_seq (Hag & Hlen & Hwf2 & Hdone).
      simpl in Hi. rewrite Nat.add_0_l. eapply wp_mono.
      * apply (wp_for_each (fun j (_ : unit) s' =>
          P i (bufs s') /\
          forall j', j' < j -> entry (view (bufs s') t) j' i = entry A i j')).
        -- split; [done|]. intros; lia.
        -- intros j ? [] s3 [-> Hj]%lookup_seq [(Hag3 & Hlen3 & Hwf3 & Hdone3) Hrow].
           simpl in Hj. rewrite Nat.add_0_l.
           destruct (valid_agree _ _ _ Hag3 Hv) as [Hv3 Hview3].
           apply wp_bind. apply wp_get; [done..|]. intros s4 Hs4.
           rewrite Hview3. fold A.
           assert (Hpj : m_rows_vec t !! j = Some (Ptr (length (bufs s)) (0 + j * rows m))).
           { by apply Hvec. }
           eapply wp_set; [done| |].
           { rewrite Hs4. apply (row_ok_cell _ (cols t)); [|by rewrite Hct].
             eapply valid_rows_ok; [by apply wf_valid|].
             by eapply list_elem_of_lookup_2. }
           intros s5 Hs5. rewrite Hs4 in Hs5. rewrite Hs5.
           assert (Hent : forall j' i', entry (view (poke (bufs s3)
                     (ptr_add (Ptr (length (bufs s)) (0 + j * rows m)) i)
                     (entry A i j)) t) j' i'
                   = if decide (j' = j /\ i' = i) then entry A i j
                     else entry (view (bufs s3) t) j' i').
           { intros j' i'. apply entry_poke; [done|done|]. by rewrite Hct. }
           split; [split_and!|].
           ++ apply agree_poke; [done|]. simpl. lia.
           ++ by rewrite poke_length.
           ++ by rewrite wf_poke.
           ++ intros i' j' Hi' Hj'. rewrite Hent, decide_False by lia.
              by apply Hdone3.
           ++ intros j' Hj'. rewrite Hent. case_decide as Hd.
              ** by destruct Hd as [-> _].
              ** apply Hrow. lia.
      * intros [] s3 [(Hag3 & Hlen3 & Hwf3 & Hdone3) Hrow]. simpl.
        rewrite length_seq in Hrow. split_and!; try done.
        intros i' j' Hi' Hj'. destruct (decide (i' = i)) as [->|Hne].
        -- by apply Hrow.
        -- apply Hdone3; [lia|done].
  - intros [] s2 (Hag & Hlen & Hwf2 & Hdone). simpl. rewrite length_seq in Hdone.
    apply wp_ret. apply HQ; try done; [lia|].
    intros p [k Hk]%list_elem_of_lookup_1.
    rewrite Hvec in Hk; [by injection Hk as <-|].
    apply lookup_lt_Some in Hk.
    by rewrite (valid_length _ _ (wf_valid _ _ Hwf2)), Hrt in Hk.
Qed.

Lemma wp_free_transpose (s : store T) m (Q : matrix -> store T -> Prop) :
  wf (bufs s) m = true ->
  (forall t s', rows t = cols m -> cols t = rows m ->
                wf (bufs s') t = true -> agree (bufs s) (bufs s') ->
                length (bufs s) <= length (bufs s') ->
                (forall i j, i < rows m -> j < cols m ->
                   entry (view (bufs s') t) j i = entry (view (bufs s) m) i j) ->
                Q t s') ->
  wp (free_transpose m) Q s.
Proof.
  intros Hwf HQ. unfold free_transpose. apply wp_bind.
  apply wp_matrix_copy; [done|]. intros res s1 d Hs1 Hr Hc Hvec Hwf1 Hview1.
  apply wp_transpose; [by apply wf_valid|].
  intros t s2 Hrt Hct Hwf2 Hag Hlen _ Hent.
  assert (Hl1 : length (bufs s1) = Datatypes.S (length (bufs s))).
  { rewrite Hs1, length_app. simpl. lia. }
  apply HQ; try congruence.
  - eapply agree_trans; [|done|lia]. rewrite Hs1. apply agree_app.
  - lia.
  - intros i j Hi Hj. rewrite <- Hview1. apply Hent; congruence.
Qed.

(** C9. For a well-formed [m] of shape [rows x cols], [transpose(m)]
    returns a matrix of shape [cols x rows] whose entry [(j, i)] is the
    entry [(i, j)] of [m], and [transpose(transpose(m))] is logically
    equal to [m]: same shape, same element at every logical index. When
    moreover every entry of [m] compares equal to itself, the comparison
    [transpose(transpose(m)) == m] returns [true]. *)
Theorem transpose_twice_is_identity (m : matrix) (s : store T) :
  wf (bufs s) m = true ->
  exists t1 s1 t2 s2,
    free_transpose m s = Ret t1 s1 /\
    rows t1 = cols m /\ cols t1 = rows m /\
    (forall i j, i < rows m -> j < cols m ->
       entry (view (bufs s1) t1) j i = entry (view (bufs s) m) i j) /\
    free_transpose t1 s1 = Ret t2 s2 /\
    rows t2 = cols t1 /\ cols t2 = rows t1 /\
    (forall i j, i < rows t1 -> j < cols t1 ->
       entry (view (bufs s2) t2) j i = entry (view (bufs s1) t1) i j) /\
    same_matrix (bufs s2) t2 (bufs s) m /\
    ((forall i j, i < rows m -> j < cols m ->
        n_eq (entry (view (bufs s) m) i j) (entry (view (bufs s) m) i j) = true) ->
     exists s3, equal t2 m s2 = Ret true s3).
Proof.
  intros Hwf.
  destruct (wp_elim (free_transpose m)
    (fun t s' => rows t = cols m /\ cols t = rows m /\ wf (bufs s') t = true /\
       agree (bufs s) (bufs s') /\ length (bufs s) <= length (bufs s') /\
       forall i j, i < rows m -> j < cols m ->
         entry (view (bufs s') t) j i = entry (view (bufs s) m) i j) s)
    as (t1 & s1 & Hrun1 & Hr1 & Hc1 & Hwf1 & Hag1 & Hlen1 & Hent1).
  { apply wp_free_transpose; [done|]. intros; split_and!; done. }
  destruct (wp_elim (free_transpose t1)
    (fun t s' => rows t = cols t1 /\ cols t = rows t1 /\ wf (bufs s') t = true /\
       agree (bufs s1) (bufs s') /\
       forall i j, i < rows t1 -> j < cols t1 ->
         entry (view (bufs s') t) j i = entry (view (bufs s1) t1) i j) s1)
    as (t2 & s2 & Hrun2 & Hr2 & Hc2 & Hwf2 & Hag2 & Hent2).
  { apply wp_free_transpose; [done|]. intros; split_and!; done. }
  assert (Hsame : view (bufs s2) t2 = view (bufs s) m).
  { pose proof (wf_valid _ _ Hwf) as Hv. pose proof (wf_valid _ _ Hwf2) as Hv2.
    apply (matrix_ext _ _ (rows m) (cols m)).
    - rewrite view_length, (valid_length _ _ Hv2). congruence.
    - by rewrite view_length, (valid_length _ _ Hv).
    - intros i row Hrow. rewrite (view_row_length _ _ _ _ Hv2 Hrow). congruence.
    - intros i row Hrow. by rewrite (view_row_length _ _ _ _ Hv Hrow).
    - intros i j Hi Hj. rewrite Hent2 by lia. apply Hent1; lia. }
  exists t1, s1, t2, s2. split_and!; try done.
  - unfold same_matrix. split_and!; congruence.
  - intros Hrefl.
    assert (Hag : agree (bufs s) (bufs s2)) by (by eapply agree_trans).
    destruct (valid_agree _ _ _ Hag (wf_valid _ _ Hwf)) as [Hvm2 Hviewm2].
    destruct (wp_elim (equal t2 m) (fun b _ => b = true) s2)
      as (b & s3 & Hrun3 & ->); [|by exists s3].
    apply wp_equal_same_shape; [by apply wf_valid|done|congruence|congruence|].
    intros b s3 _ Hb. apply Hb. intros i j Hi Hj.
    rewrite Hviewm2, Hsame. apply Hrefl; congruence.
Qed.

End Transpose.

(** ** Matrix product *)

Section Product.
Context {T : Type} `{Numeric T}.

Lemma cell_entry (hp : list (list T)) m i j p :
  valid hp m = true -> m_rows_vec m !! i = Some p -> j < cols m ->
  cell hp (ptr_add p j) = Some (entry (view hp m) i j).
Proof.
  intros Hv Hp Hj. rewrite (entry_cell _ _ _ _ _ Hp Hj).
  destruct (row_ok_cell hp (cols m) p j) as [x Hx]; [|done|by rewrite Hx].
  eapply valid_rows_ok; [done|]. by eapply list_elem_of_lookup_2.
Qed.

Lemma wp_multiply_accumulate (s : store T) (a b : nat -> T) n p q init st
      (Q : T -> store T -> Prop) :
  (forall k, k < n -> cell (bufs s) (ptr_add p k) = Some (a (st + k))) ->
  (forall k, k < n -> cell (bufs s) (ptr_add q k) = Some (b (st + k))) ->
  (forall s', bufs s' = bufs s ->
     Q (fold_left (fun acc k => n_add acc (n_mul (a k) (b k))) (seq st n) init) s') ->
  wp (multiply_accumulate p n q init) Q s.
Proof.
  revert s p q init st Q. induction n as [|n IH]; intros s p q init st Q Ha Hb HQ.
  - apply wp_ret. by apply HQ.
  - simpl. pose proof (Ha 0 ltac:(lia)) as Ha0. pose proof (Hb 0 ltac:(lia)) as Hb0.
    rewrite ptr_add_0, Nat.add_0_r in Ha0, Hb0.
    apply wp_bind. eapply wp_load; [done|]. intros s1 Hs1.
    apply wp_bind. eapply wp_load; [by rewrite Hs1|]. intros s2 Hs2.
    apply (IH _ _ _ _ (Datatypes.S st)).
    + intros k Hk. rewrite ptr_add_add, Hs2, Hs1, Ha by lia. f_equal. f_equal. lia.
    + intros k Hk. rewrite ptr_add_add, Hs2, Hs1, Hb by lia. f_equal. f_equal. lia.
    + intros s' Hs'. apply HQ. congruence.
Qed.

(** Writing into a buffer that holds none of the rows of [m]. *)
Lemma view_poke_other (hp : list (list T)) m p v :
  (forall q, q ∈ m_rows_vec m -> p_buf q <> p_buf p) ->
  view (poke hp p v) m = view hp m.
Proof.
  intros Hq. unfold view. apply map_ext_in. intros q Hin%list_elem_of_In.
  apply row_of_ext. intros j _. apply cell_poke_ne.
  intros ->. by apply (Hq q).
Qed.

Lemma valid_row_buf (hp : list (list T)) m q :
  valid hp m = true -> q ∈ m_rows_vec m -> p_buf q < length hp.
Proof.
  intros Hv Hq. pose proof (valid_rows_ok _ _ _ Hv Hq) as Hok.
  unfold row_ok in Hok. destruct (hp !! p_buf q) eqn:Hd; [|done].
  by eapply lookup_lt_Some.
Qed.

Lemma fold_left_ext_in {X} (f g : T -> X -> T) (l : list X) (a : T) :
  (forall acc k, k ∈ l -> f acc k = g acc k) -> fold_left f l a = fold_left g l a.
Proof.
  revert a. induction l as [|x l IH]; intros a Hfg; [done|]. simpl.
  rewrite Hfg by left. apply IH. intros acc k Hk. apply Hfg. by right.
Qed.

Lemma wp_operator_mul_assign (s : store T) m rhs (Q : matrix -> store T -> Prop) :
  wf (bufs s) m = true -> wf (bufs s) rhs = true -> cols m = rows rhs ->
  (forall res s', rows res = rows m -> cols res = cols rhs ->
                  wf (bufs s') res = true -> agree (bufs s) (bufs s') ->
                  (forall i j, i < rows m -> j < cols rhs ->
                     entry (view (bufs s') res) i j
                     = dot (view (bufs s) m) (view (bufs s) rhs) i j (cols m)) ->
                  Q res s') ->
  wp (operator_mul_assign m rhs) Q s.
Proof.
  intros Hwfm Hwfr Heq HQ.
  set (A := view (bufs s) m) in *. set (B := view (bufs s) rhs) in *.
  pose proof (wf_valid _ _ Hwfm) as Hvm.
  unfold operator_mul_assign. rewrite (proj2 (Nat.eqb_eq _ _) Heq). simpl.
  apply wp_bind. apply wp_matrix_value.
  intros res s1 Hs1 Hrr Hcr Hvres Hwfres _.
  assert (Hag1 : agree (bufs s) (bufs s1)) by (rewrite Hs1; apply agree_app).
  assert (Hl1 : length (bufs s1) = Datatypes.S (length (bufs s))).
  { rewrite Hs1, length_app. simpl. lia. }
  destruct (wf_agree _ _ _ Hag1 Hwfr) as [Hwfr1 Hviewr1].
  apply wp_bind. apply wp_matrix_copy; [done|].
  intros t0 s2 d Hs2 Hr0 Hc0 _ Hwf0 Hview0.
  assert (Hag12 : agree (bufs s1) (bufs s2)) by (rewrite Hs2; apply agree_app).
  assert (Hl2 : length (bufs s2) = Datatypes.S (length (bufs s1))).
  { rewrite Hs2, length_app. simpl. lia. }
  apply wp_bind. apply wp_transpose; [by apply wf_valid|].
  intros t s3 Hrt Hct Hwft Hag23 Hlen23 Hbuft Hentt.
  assert (Hag3 : agree (bufs s) (bufs s3)).
  { eapply agree_trans; [|done|lia]. eapply agree_trans; [done..|lia]. }
  assert (Hag13 : agree (bufs s1) (bufs s3)).
  { eapply agree_trans; [done..|lia]. }
  destruct (wf_agree _ _ _ Hag13 Hwfres) as [Hwfres3 _].
  set (Vt := view (bufs s3) t) in *.
  assert (HVt : forall j k, j < cols rhs -> k < cols m -> entry Vt j k = entry B k j).
  { intros j k Hj Hk. unfold Vt. rewrite Hentt by lia.
    by rewrite Hview0, Hviewr1. }
  set (P := fun (i : nat) (hp' : list (list T)) =>
    agree (bufs s) hp' /\ view hp' t = Vt /\ valid hp' t = true /\
    wf hp' res = true /\
    forall i' j', i' < i -> j' < cols rhs ->
      entry (view hp' res) i' j' = dot A B i' j' (cols m)).
  apply wp_bind. eapply wp_mono.
  - apply (wp_for_each (fun i (_ : unit) s' => P i (bufs s'))).
    + unfold P. split_and!; try done; [by apply wf_valid|intros; lia].
    + intros i ? [] s4 [-> Hi]%lookup_seq HP. simpl in Hi. rewrite Nat.add_0_l.
      eapply wp_mono.
      * apply (wp_for_each (fun j (_ : unit) s' =>
          P i (bufs s') /\
          forall j', j' < j -> entry (view (bufs s') res) i j' = dot A B i j' (cols m))).
        -- split; [done|]. intros; lia.
        -- intros j ? [] s5 [-> Hj]%lookup_seq [(Hag5 & Hvt5 & Hvalt5 & Hwfres5 & Hdone5) Hrow].
           simpl in Hj. rewrite Nat.add_0_l. rewrite Hrt, Hc0 in Hj.
           destruct (valid_agree _ _ _ Hag5 Hvm) as [Hvm5 Hviewm5].
           destruct (valid_row _ _ _ Hvm5 Hi) as (p & Hp & _).
           destruct (valid_row _ _ j Hvalt5) as (q & Hq & _); [lia|].
           apply wp_bind. eapply wp_row_at; [done|].
           apply wp_bind. eapply wp_row_at; [done|].
           apply wp_bind.
           apply (wp_multiply_accumulate _ (fun k => entry A i k)
                    (fun k => entry Vt j k) _ _ _ _ 0).
           { intros k Hk. rewrite (cell_entry _ _ _ _ _ Hvm5 Hp Hk).
             by rewrite Hviewm5. }
           { intros k Hk. rewrite (cell_entry _ _ _ _ _ Hvalt5 Hq) by lia.
             by rewrite Hvt5. }
           intros s6 Hs6.
           rewrite (fold_left_ext_in _
             (fun acc k => n_add acc (n_mul (entry A i k) (entry B k j)))).
           2:{ intros acc k [_ Hk]%elem_of_seq. rewrite HVt by lia. done. }
           fold (dot A B i j (cols m)).
           assert (Hpres : m_rows_vec res !! i
                           = Some (Ptr (length (bufs s)) (0 + i * cols rhs))).
           { by apply Hvres. }
           eapply wp_set; [done| |].
           { rewrite Hs6. apply (row_ok_cell _ (cols res)); [|by rewrite Hcr].
             eapply valid_rows_ok; [by apply wf_valid|].
             by eapply list_elem_of_lookup_2. }
           intros s7 Hs7. rewrite Hs6 in Hs7. rewrite Hs7.
           assert (Hent : forall i' j', entry (view (poke (bufs s5)
                     (ptr_add (Ptr (length (bufs s)) (0 + i * cols rhs)) j)
                     (dot A B i j (cols m))) res) i' j'
                   = if decide (i' = i /\ j' = j) then dot A B i j (cols m)
                     else entry (view (bufs s5) res) i' j').
           { intros i' j'. apply entry_poke; [done|done|]. by rewrite Hcr. }
           split; [split_and!|].
           ++ apply agree_poke; [done|]. simpl. lia.
           ++ rewrite view_poke_other; [done|]. intros q' Hq'. simpl.
              rewrite (Hbuft q' Hq'). lia.
           ++ by rewrite valid_poke.
           ++ by rewrite wf_poke.
           ++ intros i' j' Hi' Hj'. rewrite Hent, decide_False by lia.
              by apply Hdone5.
           ++ intros j' Hj'. rewrite Hent. case_decide as Hd.
              ** by destruct Hd as [_ ->].
              ** apply Hrow. lia.
      * intros [] s5 [(Hag5 & Hvt5 & Hvalt5 & Hwfres5 & Hdone5) Hrow]. simpl.
        rewrite length_seq, Hrt, Hc0 in Hrow. split_and!; try done.
        intros i' j' Hi' Hj'. destruct (decide (i' = i)) as [->|Hne].
        -- by apply Hrow.
        -- apply Hdone5; [lia|done].
  - intros [] s4 (Hag4 & _ & _ & Hwfres4 & Hdone4). simpl.
    rewrite length_seq in Hdone4. apply wp_ret. by apply HQ.
Qed.

(** C6. For well-formed [m] and [rhs]: when [m.cols] differs from
    [rhs.rows], [operator*=] throws and changes nothing; otherwise it
    makes the object a matrix of shape [m.rows x rhs.cols] whose entry
    [(i, j)] is the dot product of row [i] of [m] and column [j] of
    [rhs], added up in index order from the initial value zero. *)
Theorem operator_mul_assign_dot_products (m rhs : matrix) (s : store T) :
  wf (bufs s) m = true -> wf (bufs s) rhs = true ->
  (cols m <> rows rhs ->
   operator_mul_assign m rhs s = Throw "Mismatched matrix sizes" s)
  /\ (cols m = rows rhs ->
      exists res s',
        operator_mul_assign m rhs s = Ret res s' /\
        rows res = rows m /\ cols res = cols rhs /\
        forall i j, i < rows m -> j < cols rhs ->
          entry (view (bufs s') res) i j
          = dot (view (bufs s) m) (view (bufs s) rhs) i j (cols m)).
Proof.
  intros Hm Hr. split.
  - intros Hne. unfold operator_mul_assign.
    by rewrite (proj2 (Nat.eqb_neq _ _) Hne).
  - intros Heq.
    destruct (wp_elim (operator_mul_assign m rhs)
      (fun res s' => rows res = rows m /\ cols res = cols rhs /\
         forall i j, i < rows m -> j < cols rhs ->
           entry (view (bufs s') res) i j
           = dot (view (bufs s) m) (view (bufs s) rhs) i j (cols m)) s)
      as (res & s' & Hrun & Hres); [|by exists res, s'].
    apply wp_operator_mul_assign; try done.
Qed.

End Product.

(** ** Element-wise compound assignment *)

Section Elementwise.
Context {T : Type} `{Numeric T}.

Lemma ptr_eqb_eq p q : ptr_eqb p q = true -> p = q.
Proof.
  unfold ptr_eqb. intros [Hb Ho]%andb_true_iff.
  apply Nat.eqb_eq in Hb, Ho. destruct p, q; simpl in *; congruence.
Qed.

Lemma compatible_spec m other i j p q :
  compatible m other = true ->
  m_rows_vec m !! i = Some p -> m_rows_vec other !! j = Some q ->
  rows_apart (cols m) p q = true \/ (i = j /\ p = q).
Proof.
  unfold compatible. rewrite forallb_forall. intros Hall Hp Hq.
  specialize (Hall (i, p)). rewrite forallb_forall in Hall.
  specialize (Hall ltac:(apply list_elem_of_In, (list_elem_of_lookup_2 _ i);
                         by rewrite list_lookup_imap, Hp) (j, q)
                   ltac:(apply list_elem_of_In, (list_elem_of_lookup_2 _ j);
                         by rewrite list_lookup_imap, Hq)).
  simpl in Hall. apply orb_true_iff in Hall as [?|[Hij Hpq]%andb_true_iff]; [by left|].
  right. split; [by apply Nat.eqb_eq|by apply ptr_eqb_eq].
Qed.

(** [std::transform] writing over its first input: the [n] elements
    from [p] become [op a b]; no other element changes. *)
Lemma wp_std_transform (s : store T) op (a b : nat -> T) n p q
      (Q : unit -> store T -> Prop) :
  (forall k, k < n -> cell (bufs s) (ptr_add p k) = Some (a k)) ->
  (forall k, k < n -> cell (bufs s) (ptr_add q k) = Some (b k)) ->
  q = p \/ rows_apart n p q = true ->
  (forall s',
     (forall k, k < n -> cell (bufs s') (ptr_add p k) = Some (op (a k) (b k))) ->
     (forall r, (forall k, k < n -> r <> ptr_add p k) ->
                cell (bufs s') r = cell (bufs s) r) ->
     (forall mm, valid (bufs s') mm = valid (bufs s) mm) ->
     Q tt s') ->
  wp (std_transform p n q p op) Q s.
Proof.
  revert s a b p q Q. induction n as [|n IH]; intros s a b p q Q Ha Hb Hpq HQ.
  - apply wp_ret. apply HQ; [intros; lia|done|done].
  - simpl. pose proof (Ha 0 ltac:(lia)) as Ha0. pose proof (Hb 0 ltac:(lia)) as Hb0.
    rewrite ptr_add_0 in Ha0, Hb0.
    apply wp_bind. eapply wp_load; [done|]. intros s1 Hs1.
    apply wp_bind. eapply wp_load; [by rewrite Hs1|]. intros s2 Hs2.
    apply wp_bind. apply wp_store_to; [by rewrite Hs2, Hs1, Ha0|].
    intros s3 Hs3. rewrite Hs2, Hs1 in Hs3.
    assert (Hp1 : forall k, ptr_add p (Datatypes.S k) <> p).
    { intros k. destruct p. unfold ptr_add. simpl. intros [= ?]. lia. }
    assert (Hq1 : forall k, k < n -> ptr_add q (Datatypes.S k) <> p).
    { intros k Hk. destruct Hpq as [->|Hap]; [apply Hp1|].
      unfold rows_apart in Hap. rewrite !orb_true_iff, negb_true_iff in Hap.
      rewrite Nat.eqb_neq, !Nat.leb_le in Hap.
      destruct p, q. unfold ptr_add. simpl in *. intros [= ? ?]. lia. }
    apply (IH _ (fun k => a (Datatypes.S k)) (fun k => b (Datatypes.S k))).
    + intros k Hk. rewrite ptr_add_add, Hs3. simpl.
      rewrite cell_poke_ne by (by apply not_eq_sym, Hp1). apply Ha. lia.
    + intros k Hk. rewrite ptr_add_add, Hs3. simpl.
      rewrite cell_poke_ne by (by apply not_eq_sym, Hq1). apply Hb. lia.
    + destruct Hpq as [->|Hap]; [by left|]. right.
      unfold rows_apart in *. rewrite !orb_true_iff, negb_true_iff in *.
      rewrite Nat.eqb_neq, !Nat.leb_le in *. simpl. lia.
    + intros s' Hdone Hrest Hval. apply HQ.
      * intros [|k] Hk.
        -- rewrite ptr_add_0, Hrest, Hs3.
           ++ apply cell_poke_eq. by rewrite Ha0.
           ++ intros k' _. rewrite ptr_add_add. by apply not_eq_sym, Hp1.
        -- specialize (Hdone k). rewrite ptr_add_add in Hdone. apply Hdone. lia.
      * intros r Hr. rewrite Hrest, Hs3.
        -- apply cell_poke_ne. specialize (Hr 0). rewrite ptr_add_0 in Hr.
           apply not_eq_sym, Hr. lia.
        -- intros k Hk. rewrite ptr_add_add. apply Hr. lia.
      * intros mm. by rewrite Hval, Hs3, valid_poke.
Qed.

Lemma rows_apart_ne c p q j k :
  rows_apart c p q = true -> j < c -> k < c -> ptr_add q j <> ptr_add p k.
Proof.
  unfold rows_apart. rewrite !orb_true_iff, negb_true_iff.
  rewrite Nat.eqb_neq, !Nat.leb_le. intros Hap Hj Hk.
  destruct p, q. unfold ptr_add. simpl in *. intros [= ? ?]. lia.
Qed.

Lemma wp_elementwise_assign (s : store T) op m other (Q : unit -> store T -> Prop) :
  wf (bufs s) m = true -> valid (bufs s) other = true ->
  compatible m other = true ->
  rows m = rows other -> cols m = cols other ->
  (forall s', valid (bufs s') m = true ->
              (forall i j, i < rows m -> j < cols m ->
                 entry (view (bufs s') m) i j
                 = op (entry (view (bufs s) m) i j) (entry (view (bufs s) other) i j)) ->
              Q tt s') ->
  wp (elementwise_assign op m other) Q s.
Proof.
  intros Hwf Hvo Hcompat Hr Hc HQ.
  pose proof Hwf as [Hvm Hap]%andb_true_iff.
  set (A := view (bufs s) m) in *. set (B := view (bufs s) other) in *.
  unfold elementwise_assign.
  rewrite (proj2 (Nat.eqb_eq _ _) Hr), (proj2 (Nat.eqb_eq _ _) Hc). simpl.
  eapply wp_mono.
  - apply (wp_for_each (fun i (_ : unit) s' =>
      (forall mm, valid (bufs s') mm = valid (bufs s) mm) /\
      (forall i' j p, i' < rows m -> j < cols m -> m_rows_vec m !! i' = Some p ->
         cell (bufs s') (ptr_add p j)
         = Some (if decide (i' < i) then op (entry A i' j) (entry B i' j)
                 else entry A i' j)) /\
      (forall i' j q, i <= i' < rows m -> j < cols m ->
         m_rows_vec other !! i' = Some q ->
         cell (bufs s') (ptr_add q j) = Some (entry B i' j)))).
    + split_and!; [done| |].
      * intros i' j p Hi' Hj Hp. rewrite decide_False by lia.
        by apply cell_entry.
      * intros i' j q Hi' Hj Hq. apply cell_entry; [done|done|]. by rewrite <- Hc.
    + intros i ? [] s1 [-> Hi]%lookup_seq (Hval & Hm & Ho).
      simpl in Hi. rewrite Nat.add_0_l.
      destruct (valid_row _ _ _ Hvm Hi) as (p & Hp & _).
      destruct (valid_row _ _ i Hvo) as (q & Hq & _); [lia|].
      apply wp_bind. eapply wp_row_at; [done|].
      apply wp_bind. eapply wp_row_at; [done|].
      apply (wp_std_transform _ op (fun k => entry A i k) (fun k => entry B i k)).
      * intros k Hk. rewrite (Hm i k p) by done. by rewrite decide_False by lia.
      * intros k Hk. by apply (Ho i k q); [lia|done|done].
      * destruct (compatible_spec _ _ _ _ _ _ Hcompat Hp Hq) as [?|[_ ->]]; auto.
      * intros s2 Hdone Hrest Hval2. split_and!.
        -- intros mm. by rewrite Hval2.
        -- intros i' j p' Hi' Hj Hp'. destruct (decide (i' = i)) as [->|Hne].
           ++ assert (p' = p) as -> by congruence.
              rewrite decide_True by lia. by apply Hdone.
           ++ rewrite Hrest.
              ** rewrite (Hm i' j p') by done. do 2 case_decide; try done; lia.
              ** intros k Hk. apply rows_apart_ne with (c := cols m); try done.
                 by apply (all_apart_lookup _ _ i i' _ _ Hap).
        -- intros i' j q' Hi' Hj Hq'. rewrite Hrest; [apply Ho; [lia|done|done]|].
           intros k Hk. apply rows_apart_ne with (c := cols m); try done.
           destruct (compatible_spec _ _ _ _ _ _ Hcompat Hp Hq') as [?|[? _]];
             [done|lia].
  - intros [] s' (Hval & Hm & _). simpl. rewrite length_seq in Hm.
    apply HQ; [by rewrite Hval|].
    intros i j Hi Hj. destruct (valid_row _ _ _ Hvm Hi) as (p & Hp & _).
    rewrite (entry_cell _ _ _ _ _ Hp Hj), (Hm i j p) by done.
    by rewrite decide_True by lia.
Qed.

(** X17. For a well-formed [m] and a live [other] that is either [m]
    itself or shares no element with it: [operator+=] and [operator-=]
    throw exactly when the shapes differ, and then the store is exactly as
    before; when the shapes agree they return, and every entry of [m] has
    become the sum (respectively the difference) of the two former
    entries at that logical index. *)
Theorem compound_assign_elementwise (m other : matrix) (s : store T) :
  wf (bufs s) m = true -> valid (bufs s) other = true ->
  compatible m other = true ->
  (rows m <> rows other \/ cols m <> cols other ->
   operator_plus_assign m other s = Throw "Mismatched matrix sizes" s
   /\ operator_minus_assign m other s = Throw "Mismatched matrix sizes" s)
  /\ (rows m = rows other /\ cols m = cols other ->
      (exists s', operator_plus_assign m other s = Ret tt s' /\
         forall i j, i < rows m -> j < cols m ->
           entry (view (bufs s') m) i j
           = n_add (entry (view (bufs s) m) i j) (entry (view (bufs s) other) i j))
      /\ (exists s', operator_minus_assign m other s = Ret tt s' /\
            forall i j, i < rows m -> j < cols m ->
              entry (view (bufs s') m) i j
              = n_sub (entry (view (bufs s) m) i j) (entry (view (bufs s) other) i j))).
Proof.
  intros Hwf Hvo Hcompat. split.
  - intros Hne. unfold operator_plus_assign, operator_minus_assign, elementwise_assign.
    assert (negb (Nat.eqb (rows m) (rows other))
            || negb (Nat.eqb (cols m) (cols other)) = true) as ->; [|done].
    rewrite orb_true_iff, !negb_true_iff, !Nat.eqb_neq. tauto.
  - intros [Hr Hc]. split.
    + destruct (wp_elim (operator_plus_assign m other)
        (fun _ s' => forall i j, i < rows m -> j < cols m ->
           entry (view (bufs s') m) i j
           = n_add (entry (view (bufs s) m) i j) (entry (view (bufs s) other) i j)) s)
        as ([] & s' & Hrun & Hres); [|by exists s'].
      apply wp_elementwise_assign; try done.
    + destruct (wp_elim (operator_minus_assign m other)
        (fun _ s' => forall i j, i < rows m -> j < cols m ->
           entry (view (bufs s') m) i j
           = n_sub (entry (view (bufs s) m) i j) (entry (view (bufs s) other) i j)) s)
        as ([] & s' & Hrun & Hres); [|by exists s'].
      apply wp_elementwise_assign; try done.
Qed.

End Elementwise.

(** ** A zero pivot *)

Section ZeroPivot.
Context {T : Type} `{Numeric T}.

Lemma reduced_to_S A i : reduced_to A (S i) = gauss_jordan_step (reduced_to A i) i.
Proof. unfold reduced_to. by rewrite seq_S, fold_left_app. Qed.

Lemma entry_eliminate_spec (S0 : list (list T)) k p r c row :
  S0 !! r = Some row -> c < length row ->
  entry (eliminate_spec S0 k p) r c
  = if decide (k = r) then entry S0 r c
    else n_sub (entry S0 r c) (n_mul (n_div (entry S0 r k) p) (entry S0 k c)).
Proof.
  intros Hrow Hc. destruct (lookup_lt_is_Some_2 row c Hc) as [x Hx].
  rewrite (entry_lookup _ _ _ _ _ Hrow Hx).
  unfold eliminate_spec. unfold entry at 1. rewrite list_lookup_imap, Hrow. simpl.
  case_decide; [by rewrite Hx|]. by rewrite list_lookup_imap, Hx.
Qed.

Lemma entry_swap_rows_spec (A : list (list T)) a b r c :
  a < length A -> b < length A ->
  entry (swap_rows_spec A a b) r c
  = entry A (if decide (r = b) then a else if decide (r = a) then b else r) c.
Proof.
  intros Ha Hb. unfold swap_rows_spec.
  destruct (lookup_lt_is_Some_2 A a Ha) as [ra Hra].
  destruct (lookup_lt_is_Some_2 A b Hb) as [rb Hrb].
  rewrite Hra, Hrb. unfold entry. by rewrite (swap_lookup _ _ _ _ _ _ Hra Hrb).
Qed.

Lemma square_shape_swap n (A : list (list T)) a b :
  square_shape n A -> square_shape n (swap_rows_spec A a b).
Proof.
  intros [Hl Hrows]. unfold swap_rows_spec.
  destruct (A !! a) as [ra|] eqn:Hra; [|done].
  destruct (A !! b) as [rb|] eqn:Hrb; [|done].
  split; [by rewrite !length_insert|].
  intros r row. rewrite (swap_lookup _ _ _ _ _ _ Hra Hrb). apply Hrows.
Qed.

Lemma square_shape_eliminate n (A : list (list T)) k p :
  square_shape n A -> square_shape n (eliminate_spec A k p).
Proof.
  intros [Hl Hrows]. unfold eliminate_spec. split; [by rewrite length_imap|].
  intros r row. rewrite list_lookup_imap.
  destruct (A !! r) as [row0|] eqn:Hr; [|done]. simpl. intros [= <-].
  case_decide; [by eapply Hrows|]. rewrite length_imap. by eapply Hrows.
Qed.

Lemma square_shape_step n (A : list (list T)) k :
  square_shape n A -> square_shape n (gauss_jordan_step A k).
Proof. intros. by apply square_shape_eliminate, square_shape_swap. Qed.

Lemma square_shape_reduced n (A : list (list T)) k :
  square_shape n A -> square_shape n (reduced_to A k).
Proof.
  intros HA. induction k as [|k IH]; [done|].
  rewrite reduced_to_S. by apply square_shape_step.
Qed.

(** The entries after one step, in terms of the entries before it. *)
Lemma entry_gauss_jordan_step n (A : list (list T)) k r c :
  square_shape n A -> k < n -> r < n -> c < n ->
  let rp := pivot_search A k k (n - k) in
  let sw := fun r => if decide (r = rp) then k else if decide (r = k) then rp else r in
  entry (gauss_jordan_step A k) r c
  = if decide (k = r) then entry A rp c
    else n_sub (entry A (sw r) c)
               (n_mul (n_div (entry A (sw r) k) (entry A rp k)) (entry A rp c)).
Proof.
  intros HA Hk Hr Hc rp sw. pose proof HA as [Hl Hrows].
  pose proof (pivot_search_range A k k (n - k)) as Hrg. fold rp in Hrg.
  unfold gauss_jordan_step. rewrite Hl. fold rp.
  pose proof (square_shape_swap n A k rp HA) as [Hl' Hrows'].
  destruct (lookup_lt_is_Some_2 (swap_rows_spec A k rp) r) as [row Hrow]; [lia|].
  rewrite (entry_eliminate_spec _ _ _ _ _ _ Hrow) by (by rewrite (Hrows' _ _ Hrow)).
  rewrite !entry_swap_rows_spec by lia.
  assert (Hswk : (if decide (k = rp) then k else if decide (k = k) then rp else k) = rp).
  { repeat case_decide; lia. }
  rewrite Hswk. destruct (decide (k = r)) as [<-|Hkr]; [by rewrite Hswk|]. done.
Qed.

(** *** How a zero pivot spreads.
    What the argument needs from the arithmetic: dividing by zero gives
    a non-finite value, a non-finite value times zero is the NaN, the NaN
    absorbs subtraction and multiplication, and non-finite values stay
    non-finite under the operations of the elimination. *)
Section Propagation.
Variable nonfin : T -> bool.
Variable qnan : T.
Hypothesis div_zero : forall x z, n_eq z n_zero = true -> nonfin (n_div x z) = true.
Hypothesis mul_zero : forall c z,
  nonfin c = true -> n_eq z n_zero = true -> n_mul c z = qnan.
Hypothesis sub_nan_r : forall x, n_sub x qnan = qnan.
Hypothesis sub_nan_l : forall x, n_sub qnan x = qnan.
Hypothesis mul_nan_r : forall x, n_mul x qnan = qnan.
Hypothesis mul_nan_l : forall x, n_mul qnan x = qnan.
Hypothesis mul_nonfin_l : forall c y, nonfin c = true -> nonfin (n_mul c y) = true.
Hypothesis mul_nonfin_r : forall x y, nonfin y = true -> nonfin (n_mul x y) = true.
Hypothesis sub_nonfin : forall x u, nonfin u = true -> nonfin (n_sub x u) = true.

(** At the step with the zero pivot, column [k] of every other row
    becomes the NaN. *)
Lemma step_zero_pivot_column n (A : list (list T)) k r :
  square_shape n A -> k < n -> r < n -> r <> k ->
  n_eq (entry A (pivot_search A k k (n - k)) k) n_zero = true ->
  entry (gauss_jordan_step A k) r k = qnan.
Proof using div_zero mul_zero sub_nan_r.
  intros HA Hk Hr Hne Hz.
  rewrite (entry_gauss_jordan_step n) by done. simpl.
  rewrite decide_False by lia.
  rewrite mul_zero; [done| |done]. by apply div_zero.
Qed.

(** At the next step the diagonal entry of row [k] becomes the NaN. *)
Lemma step_after_zero_pivot n (A : list (list T)) k :
  square_shape n A -> S k < n ->
  (forall r, r < n -> r <> k -> entry A r k = qnan) ->
  entry (gauss_jordan_step A (S k)) k k = qnan.
Proof using sub_nan_r mul_nan_r.
  intros HA Hk Hcol.
  pose proof (pivot_search_range A (S k) (S k) (n - S k)) as Hrg.
  rewrite (entry_gauss_jordan_step n) by (done || lia). simpl.
  rewrite decide_False by lia.
  rewrite (Hcol (pivot_search A (S k) (S k) (n - S k))) by lia.
  by rewrite mul_nan_r, sub_nan_r.
Qed.

(** And it stays the NaN at every later step. *)
Lemma step_keeps_nan n (A : list (list T)) j k :
  square_shape n A -> j < n -> k < j ->
  entry A k k = qnan -> entry (gauss_jordan_step A j) k k = qnan.
Proof using sub_nan_l.
  intros HA Hj Hk Hnan.
  pose proof (pivot_search_range A j j (n - j)) as Hrg.
  rewrite (entry_gauss_jordan_step n) by (done || lia). simpl.
  rewrite !decide_False by lia. by rewrite Hnan, sub_nan_l.
Qed.

Lemma fold_diag_nan (B : list (list T)) (l : list nat) :
  fold_left (fun res i => n_mul res (entry B i i)) l qnan = qnan.
Proof using mul_nan_l.
  induction l as [|i l IH]; [done|]. simpl. by rewrite mul_nan_l.
Qed.

Lemma fold_diag_hits_nan (B : list (list T)) (l : list nat) k acc :
  k ∈ l -> entry B k k = qnan ->
  fold_left (fun res i => n_mul res (entry B i i)) l acc = qnan.
Proof using mul_nan_l mul_nan_r.
  intros Hk Hnan. revert acc. induction l as [|i l IH]; intros acc.
  - by apply elem_of_nil in Hk.
  - simpl. destruct (decide (i = k)) as [->|Hne].
    + rewrite Hnan, mul_nan_r. apply fold_diag_nan.
    + apply IH. apply elem_of_cons in Hk as [?|?]; [congruence|done].
Qed.

Lemma diagonal_product_nan (B : list (list T)) k :
  k < length B -> entry B k k = qnan -> diagonal_product B = qnan.
Proof using mul_nan_l mul_nan_r.
  intros Hk Hnan. unfold diagonal_product.
  apply (fold_diag_hits_nan _ _ k); [|done]. apply elem_of_seq. lia.
Qed.

(** A zero pivot at the last step: the earlier diagonal entries become
    non-finite and the last one is the zero pivot itself. *)
Lemma last_step_zero_pivot n (A : list (list T)) k :
  square_shape n A -> n = S k -> 1 <= k ->
  n_eq (entry A (pivot_search A k k (n - k)) k) n_zero = true ->
  diagonal_product (gauss_jordan_step A k) = qnan.
Proof using div_zero mul_zero mul_nonfin_l mul_nonfin_r sub_nonfin.
  intros HA -> Hk Hz.
  pose proof (square_shape_step (S k) A k HA) as [Hl _].
  unfold diagonal_product. rewrite Hl, seq_S, fold_left_app. simpl.
  rewrite (entry_gauss_jordan_step (S k) A k k k) by (done || lia). simpl.
  rewrite decide_True by done.
  apply mul_zero; [|done].
  destruct k as [|k']; [lia|]. rewrite seq_S, fold_left_app. simpl.
  apply mul_nonfin_r.
  rewrite (entry_gauss_jordan_step (S (S k')) A (S k') k' k') by (done || lia). simpl.
  rewrite decide_False by lia.
  apply sub_nonfin, mul_nonfin_l. by apply div_zero.
Qed.

Lemma zero_pivot_diagonal_nan n (A : list (list T)) :
  square_shape n A -> 2 <= n -> zero_pivot_met A = true ->
  diagonal_product (gauss_jordan_spec A) = qnan.
Proof using All.
  intros HA Hn Hz. pose proof HA as [Hl _].
  apply existsb_exists in Hz as (i & [_ Hi]%list_elem_of_In%elem_of_seq & Hz).
  rewrite Hl in Hi. simpl in Hi. unfold pivot_at in Hz.
  pose proof (square_shape_reduced n A i HA) as HAi.
  pose proof HAi as [Hli _]. rewrite Hli in Hz.
  assert (Hspec : gauss_jordan_spec A = reduced_to A n).
  { unfold gauss_jordan_spec, reduced_to. by rewrite Hl. }
  rewrite Hspec.
  destruct (decide (n = S i)) as [Hlast|Hmore].
  - rewrite Hlast, reduced_to_S. apply (last_step_zero_pivot n); try done. lia.
  - assert (Hcol : forall r, r < n -> r <> i -> entry (reduced_to A (S i)) r i = qnan).
    { intros r Hr Hne. rewrite reduced_to_S. by apply (step_zero_pivot_column n). }
    assert (Hdiag : forall j, S (S i) <= j <= n -> entry (reduced_to A j) i i = qnan).
    { intros j Hj. induction j as [|j IH]; [lia|].
      rewrite reduced_to_S. destruct (decide (j = S i)) as [->|Hne].
      - apply (step_after_zero_pivot n); [|lia|done].
        by apply square_shape_reduced.
      - apply (step_keeps_nan n); [by apply square_shape_reduced|lia|lia|].
        apply IH. lia. }
    apply (diagonal_product_nan _ i).
    + pose proof (square_shape_reduced n A n HA) as [-> _]. lia.
    + apply Hdiag. lia.
Qed.

End Propagation.

End ZeroPivot.

(** ** The arithmetic of [double] around zero, infinity and NaN *)

Section Double.
Open Scope float_scope.

Lemma eqb_zero_spec (z : float) :
  n_eq z n_zero = true -> exists sg, Prim2SF z = S754_zero sg.
Proof.
  simpl. rewrite FloatAxioms.eqb_spec. change (Prim2SF 0) with (S754_zero false).
  destruct (Prim2SF z) as [sg|[]| |[] ? ?]; try done. by exists sg.
Qed.

Lemma double_div_zero (x z : float) :
  n_eq z n_zero = true -> nonfinite (n_div x z) = true.
Proof.
  intros [sg Hz]%eqb_zero_spec. unfold nonfinite. simpl.
  rewrite FloatAxioms.div_spec, Hz. by destruct (Prim2SF x).
Qed.

Lemma double_mul_zero (c z : float) :
  nonfinite c = true -> n_eq z n_zero = true -> n_mul c z = nan.
Proof.
  unfold nonfinite. intros Hc [sg Hz]%eqb_zero_spec. simpl.
  apply Prim2SF_inj. rewrite FloatAxioms.mul_spec, Hz. by destruct (Prim2SF c).
Qed.

Lemma double_sub_nan_r (x : float) : n_sub x nan = nan.
Proof.
  simpl. apply Prim2SF_inj. rewrite FloatAxioms.sub_spec.
  change (Prim2SF nan) with S754_nan. by destruct (Prim2SF x).
Qed.

Lemma double_sub_nan_l (x : float) : n_sub nan x = nan.
Proof.
  simpl. apply Prim2SF_inj. rewrite FloatAxioms.sub_spec.
  change (Prim2SF nan) with S754_nan. by destruct (Prim2SF x).
Qed.

Lemma double_mul_nan_r (x : float) : n_mul x nan = nan.
Proof.
  simpl. apply Prim2SF_inj. rewrite FloatAxioms.mul_spec.
  change (Prim2SF nan) with S754_nan. by destruct (Prim2SF x).
Qed.

Lemma double_mul_nan_l (x : float) : n_mul nan x = nan.
Proof.
  simpl. apply Prim2SF_inj. rewrite FloatAxioms.mul_spec.
  change (Prim2SF nan) with S754_nan. by destruct (Prim2SF x).
Qed.

Lemma double_mul_nonfin_l (c y : float) :
  nonfinite c = true -> nonfinite (n_mul c y) = true.
Proof.
  unfold nonfinite. simpl. rewrite FloatAxioms.mul_spec.
  by destruct (Prim2SF c), (Prim2SF y).
Qed.

Lemma double_mul_nonfin_r (x y : float) :
  nonfinite y = true -> nonfinite (n_mul x y) = true.
Proof.
  unfold nonfinite. simpl. rewrite FloatAxioms.mul_spec.
  by destruct (Prim2SF x), (Prim2SF y).
Qed.

Lemma double_sub_nonfin (x u : float) :
  nonfinite u = true -> nonfinite (n_sub x u) = true.
Proof.
  unfold nonfinite. simpl. rewrite FloatAxioms.sub_spec.
  by destruct (Prim2SF x) as [[]|[]| |], (Prim2SF u) as [|[]| |].
Qed.

Lemma wf_square_shape (hp : list (list float)) m :
  wf hp m = true -> square m = true -> square_shape (rows m) (view hp m).
Proof.
  intros Hwf%wf_valid Hsq%Nat.eqb_eq. split.
  - by rewrite view_length, (valid_length _ _ Hwf).
  - intros r row Hrow. by rewrite (view_row_length _ _ _ _ Hwf Hrow).
Qed.

(** C4, as the code has it. On a well-formed square matrix of [double]
    with at least two rows, if some step of the elimination selects a
    pivot equal to zero, [determinant] returns the NaN. (Nothing of the
    kind holds of singular matrices in general: the 1x1 zero matrix and
    matrices whose pivots stay nonzero through rounding get finite
    values.) *)
Theorem determinant_zero_pivot_is_nan (m : matrix) (s : store float) :
  wf (bufs s) m = true -> square m = true -> 2 <= rows m ->
  zero_pivot_met (view (bufs s) m) = true ->
  exists s', determinant m s = Ret nan s'.
Proof.
  intros Hwf Hsq Hn Hz. unfold determinant. rewrite Hsq. simpl.
  destruct (wp_elim
    (let* tmp := matrix_copy m in
     let* tmp := gauss_jordan_elimination tmp in
     for_each (seq 0 (rows tmp)) (fun i res =>
       let* d := get tmp i i in ret (n_mul res d)) n_one)
    (fun v _ => v = nan) s)
    as (v & s' & Hrun & ->); [|by exists s'].
  apply wp_determinant_phases; [done|by apply Nat.eqb_eq|]. intros _.
  apply (zero_pivot_diagonal_nan nonfinite nan) with (n := rows m);
    auto using double_div_zero, double_mul_zero, double_sub_nan_r,
      double_sub_nan_l, double_mul_nan_r, double_mul_nan_l,
      double_mul_nonfin_l, double_mul_nonfin_r, double_sub_nonfin,
      wf_square_shape.
Qed.

End Double.

(** ** The theorems at concrete matrices *)

Section Instances.
Open Scope float_scope.

Lemma determinant_diagonal_of_reduction_witness :
  (square ex_a = true ->
   exists s', determinant ex_a ex_store
              = Ret (diagonal_product (gauss_jordan_spec (view (bufs ex_store) ex_a))) s')
  /\ (square ex_a = false ->
      determinant ex_a ex_store = Throw "Mismatched matrix size for determinant" ex_store).
Proof. apply (determinant_diagonal_of_reduction ex_a ex_store). reflexivity. Defined.

Lemma max_in_col_greater_eq_first_maximal_witness :
  exists r v s',
    max_in_col_greater_eq ex_a 0 0 ex_store = Ret (r, v) s' /\
    bufs s' = bufs ex_store /\
    first_maximal (view (bufs ex_store) ex_a) 0 0 (rows ex_a) r /\
    v = entry (view (bufs ex_store) ex_a) r 0.
Proof.
  apply (max_in_col_greater_eq_first_maximal ex_a 0 0 ex_store).
  - reflexivity.
  - unfold cols; simpl; lia.
  - unfold rows; simpl; lia.
  - vm_compute. reflexivity.
Defined.

(** C5 as stated fails on a column holding a NaN: on the column
    [1; NaN; 2] the search returns row 2, yet row 1 comes earlier and its
    absolute value, a NaN, is not less than any candidate's. *)
Lemma max_in_col_greater_eq_nan_counterexample :
  wf (bufs nan_store) nan_column = true
  /\ returned (max_in_col_greater_eq nan_column 0 0 nan_store) = Some (2%nat, 2)
  /\ ~ first_maximal (view (bufs nan_store) nan_column) 0 0 (rows nan_column) 2.
Proof.
  split; [reflexivity|]. split; [vm_compute; reflexivity|].
  intros (_ & _ & Hfirst). apply (Hfirst 1%nat); [lia|].
  intros r' [_ Hr']. unfold rows in Hr'; simpl in Hr'.
  destruct r' as [|[|[|r']]]; [vm_compute; reflexivity..|lia].
Qed.

Lemma operator_mul_assign_dot_products_witness :
  (cols ex_c <> rows ex_d ->
   operator_mul_assign ex_c ex_d ex_store = Throw "Mismatched matrix sizes" ex_store)
  /\ (cols ex_c = rows ex_d ->
      exists res s',
        operator_mul_assign ex_c ex_d ex_store = Ret res s' /\
        rows res = rows ex_c /\ cols res = cols ex_d /\
        forall i j, (i < rows ex_c)%nat -> (j < cols ex_d)%nat ->
          entry (view (bufs s') res) i j
          = dot (view (bufs ex_store) ex_c) (view (bufs ex_store) ex_d) i j (cols ex_c)).
Proof.
  apply (operator_mul_assign_dot_products ex_c ex_d ex_store); reflexivity.
Defined.

Lemma equal_iff_logical_witness :
  exists b s',
    equal ex_a ex_b ex_store = Ret b s' /\ bufs s' = bufs ex_store /\
    (b = true <->
     rows ex_a = rows ex_b /\ cols ex_a = cols ex_b /\
     forall i j, (i < rows ex_a)%nat -> (j < cols ex_a)%nat ->
       n_eq (entry (view (bufs ex_store) ex_a) i j)
            (entry (view (bufs ex_store) ex_b) i j) = true).
Proof. apply (equal_iff_logical ex_a ex_b ex_store); reflexivity. Defined.

Lemma compound_assign_elementwise_witness :
  (rows ex_a <> rows ex_b \/ cols ex_a <> cols ex_b ->
   operator_plus_assign ex_a ex_b ex_store = Throw "Mismatched matrix sizes" ex_store
   /\ operator_minus_assign ex_a ex_b ex_store = Throw "Mismatched matrix sizes" ex_store)
  /\ (rows ex_a = rows ex_b /\ cols ex_a = cols ex_b ->
      (exists s', operator_plus_assign ex_a ex_b ex_store = Ret tt s' /\
         forall i j, (i < rows ex_a)%nat -> (j < cols ex_a)%nat ->
           entry (view (bufs s') ex_a) i j
           = n_add (entry (view (bufs ex_store) ex_a) i j)
                   (entry (view (bufs ex_store) ex_b) i j))
      /\ (exists s', operator_minus_assign ex_a ex_b ex_store = Ret tt s' /\
            forall i j, (i < rows ex_a)%nat -> (j < cols ex_a)%nat ->
              entry (view (bufs s') ex_a) i j
              = n_sub (entry (view (bufs ex_store) ex_a) i j)
                      (entry (view (bufs ex_store) ex_b) i j))).
Proof.
  apply (compound_assign_elementwise ex_a ex_b ex_store); reflexivity.
Defined.

Lemma transpose_twice_is_identity_witness :
  exists t1 s1 t2 s2,
    free_transpose ex_c ex_store = Ret t1 s1 /\
    rows t1 = cols ex_c /\ cols t1 = rows ex_c /\
    (forall i j, (i < rows ex_c)%nat -> (j < cols ex_c)%nat ->
       entry (view (bufs s1) t1) j i = entry (view (bufs ex_store) ex_c) i j) /\
    free_transpose t1 s1 = Ret t2 s2 /\
    rows t2 = cols t1 /\ cols t2 = rows t1 /\
    (forall i j, (i < rows t1)%nat -> (j < cols t1)%nat ->
       entry (view (bufs s2) t2) j i = entry (view (bufs s1) t1) i j) /\
    same_matrix (bufs s2) t2 (bufs ex_store) ex_c /\
    ((forall i j, (i < rows ex_c)%nat -> (j < cols ex_c)%nat ->
        n_eq (entry (view (bufs ex_store) ex_c) i j)
             (entry (view (bufs ex_store) ex_c) i j) = true) ->
     exists s3, equal t2 ex_c s2 = Ret true s3).
Proof. apply (transpose_twice_is_identity ex_c ex_store). reflexivity. Defined.

Lemma equal_shape_mismatch_no_access_witness :
  equal ex_a ex_c ex_store = Ret false ex_store.
Proof.
  apply (equal_shape_mismatch_no_access ex_a ex_c ex_store).
  right. unfold cols; simpl; lia.
Defined.

(** The example objects are what the constructors build. *)
Lemma examples_constructed :
  (let* a := matrix_list 2 2 [1; 2; 3; 4] in
   let* b := matrix_list 2 2 [5; 6; 7; 8] in
   let* c := matrix_list 2 3 [1; 2; 3; 4; 5; 6] in
   let* d := matrix_list 3 2 [1; 0; 0; 1; 1; 1] in
   ret (a, b, c, d)) empty_store
  = Ret (ex_a, ex_b, ex_c, ex_d) ex_store
  /\ matrix_list 3 1 [1; nan; 2] empty_store = Ret nan_column nan_store
  /\ (let* z1 := matrix_list 1 1 [0] in
      let* z3 := matrix_list 3 3 [1; 2; 3; 4; 5; 6; 7; 8; 9] in
      let* z2 := matrix_list 2 2 [1; 2; 2; 4] in
      ret (z1, z3, z2)) empty_store
     = Ret (singular_1, singular_3, singular_2) singular_store.
Proof. split_and!; reflexivity. Qed.

Lemma determinant_zero_pivot_is_nan_witness :
  exists s', determinant singular_2 singular_store = Ret nan s'.
Proof.
  apply (determinant_zero_pivot_is_nan singular_2 singular_store).
  - reflexivity.
  - reflexivity.
  - unfold rows; simpl; lia.
  - vm_compute. reflexivity.
Defined.

(** C2 does not hold of the code. [determinant] copies the object with
    the implicit copy constructor, which copies the row pointers as they
    are; the elimination then runs through them on the elements of the
    operand itself. Construct [[1, 2], [3, 4]], look at it, call
    [determinant], look again: the call returns 2 and the operand now
    holds [[0, 0.666...], [3, 0]]. *)
Theorem determinant_overwrites_operand :
  returned ((let* m := matrix_list 2 2 [1; 2; 3; 4] in
             let* before := snapshot m in
             let* d := determinant m in
             let* after := snapshot m in
             ret (before, d, after)) empty_store)
  = Some ([[1; 2]; [3; 4]], 2, [[0; 0x1.5555555555556p-1]; [3; 0]]).
Proof. vm_compute. reflexivity. Qed.

(** C3 does not hold of the code. The routine does not count its row
    swaps, so the diagonal product carries the sign of the pivoting
    permutation: [[1, 2], [3, 4]], whose determinant is -2, and the
    matrix obtained from it by swapping its two rows, whose determinant
    is 2, both get the value 2. *)
Theorem determinant_row_swap_same_value :
  returned ((let* m := matrix_list 2 2 [1; 2; 3; 4] in determinant m) empty_store)
  = Some 2
  /\ returned ((let* m := matrix_list 2 2 [1; 2; 3; 4] in
                let* m := swap_rows m 0 1 in
                let* swapped := snapshot m in
                let* d := determinant m in
                ret (swapped, d)) empty_store)
     = Some ([[3; 4]; [1; 2]], 2).
Proof. split; vm_compute; reflexivity. Qed.

(** C8 does not hold of the code. A copy made by the implicit copy
    constructor keeps the row pointers of its original, so after
    [matrix n = m; n.swap_rows(0, 1)] the rows of [n] are the elements of
    [m] in the other order. Construct [m] as [[1, 2], [3, 4]], so that
    [n] reads [[3, 4], [1, 2]]: [m += n] leaves [[4, 6], [7, 10]] in
    [m], where the element-wise sum is [[4, 6], [4, 6]], and [m -= n]
    leaves [[-2, -2], [5, 6]], where the element-wise difference is
    [[-2, -2], [2, 2]]. The second row is computed from the first row as
    already overwritten. Both operands are well-formed objects; what they
    are not is free of shared elements. *)
Theorem compound_assign_aliased_operand :
  returned ((let* m := matrix_list 2 2 [1; 2; 3; 4] in
             let* n := matrix_copy m in
             let* n := swap_rows n 0 1 in
             let* lhs := snapshot m in
             let* rhs := snapshot n in
             let* _ := operator_plus_assign m n in
             let* after := snapshot m in
             ret (lhs, rhs, after)) empty_store)
  = Some ([[1; 2]; [3; 4]], [[3; 4]; [1; 2]], [[4; 6]; [7; 10]])
  /\ returned ((let* m := matrix_list 2 2 [1; 2; 3; 4] in
                let* n := matrix_copy m in
                let* n := swap_rows n 0 1 in
                let* lhs := snapshot m in
                let* rhs := snapshot n in
                let* _ := operator_minus_assign m n in
                let* after := snapshot m in
                ret (lhs, rhs, after)) empty_store)
     = Some ([[1; 2]; [3; 4]], [[3; 4]; [1; 2]], [[-2; -2]; [5; 6]])
  /\ returned ((let* m := matrix_list 2 2 [1; 2; 3; 4] in
                let* n := matrix_copy m in
                let* n := swap_rows n 0 1 in
                fun s => Ret (wf (bufs s) m, wf (bufs s) n, compatible m n) s)
                 empty_store)
     = Some (true, true, false).
Proof. split_and!; vm_compute; reflexivity. Qed.

(** C4 as stated fails: the 1x1 zero matrix and the 3x3 matrix of 1..9
    are singular (the cofactor expansion of the second is written out),
    and [determinant] returns the finite value 0 on both. *)
Lemma determinant_singular_finite_counterexample :
  returned ((let* m := matrix_list 1 1 [0] in determinant m) empty_store) = Some 0
  /\ returned ((let* m := matrix_list 3 3 [1; 2; 3; 4; 5; 6; 7; 8; 9] in
                determinant m) empty_store) = Some 0
  /\ (1 * (5 * 9 - 6 * 8) - 2 * (4 * 9 - 6 * 7) + 3 * (4 * 8 - 5 * 7) = 0)%Z
  /\ PrimFloat.is_finite 0 = true.
Proof. split_and!; vm_compute; reflexivity. Qed.

End Instances.

(** * Further properties of the code *)

(** ** Row swaps and construction *)

Section RowIndex.
Context {T : Type} `{Numeric T}.

(** X1. On a well-formed matrix [swap_rows] returns exactly when both
    indices are rows of the matrix, and is undefined behaviour otherwise.
    When it returns, the store is untouched (no element is read or
    moved), the shape is the same, the object is still well formed, its
    row pointers are a permutation of the former ones, and the logical
    rows at the two indices are exchanged while every other row stays. *)
Theorem swap_rows_exchanges_rows (m : matrix) (a b : nat) (s : store T) :
  wf (bufs s) m = true ->
  (a < rows m /\ b < rows m ->
   exists m',
     swap_rows m a b s = Ret m' s /\
     rows m' = rows m /\ cols m' = cols m /\ wf (bufs s) m' = true /\
     m_rows_vec m' ≡ₚ m_rows_vec m /\
     view (bufs s) m' !! a = view (bufs s) m !! b /\
     view (bufs s) m' !! b = view (bufs s) m !! a /\
     forall i, i <> a -> i <> b -> view (bufs s) m' !! i = view (bufs s) m !! i)
  /\ (~ (a < rows m /\ b < rows m) -> swap_rows m a b s = Undefined).
Proof.
  intros Hwf. pose proof (wf_valid _ _ Hwf) as Hv.
  pose proof (valid_length _ _ Hv) as Hl. split.
  - intros [Ha Hb].
    destruct (valid_row _ _ _ Hv Ha) as (p1 & Hp1 & _).
    destruct (valid_row _ _ _ Hv Hb) as (p2 & Hp2 & _).
    set (m' := Matrix (m_contiguous_matrix m) (<[b := p1]> (<[a := p2]> (m_rows_vec m)))).
    assert (Hrun : swap_rows m a b s = Ret m' s).
    { unfold swap_rows, bind, row_at, ret. by rewrite Hp1, Hp2. }
    assert (Hvec : m_rows_vec m' = <[b := p1]> (<[a := p2]> (m_rows_vec m))) by done.
    pose proof (wp_swap_rows s m a b
      (fun m' _ => rows m' = rows m /\ cols m' = cols m /\
         wf (bufs s) m' = true /\
         view (bufs s) m' = swap_rows_spec (view (bufs s) m) a b)
      Hwf Ha Hb ltac:(intros; split_and!; done)) as Hwp.
    unfold wp in Hwp. rewrite Hrun in Hwp.
    destruct Hwp as (Hr & Hc & Hwf' & Hview).
    exists m'. split_and!; try done.
    + rewrite Hvec. by apply Permutation_insert_swap.
    + rewrite Hview. unfold swap_rows_spec.
      rewrite (view_lookup _ _ _ _ Hp1), (view_lookup _ _ _ _ Hp2).
      rewrite (swap_lookup _ _ _ _ _ a (view_lookup _ _ _ _ Hp1) (view_lookup _ _ _ _ Hp2)).
      repeat case_decide; subst;
        rewrite ?(view_lookup _ _ _ _ Hp1), ?(view_lookup _ _ _ _ Hp2); congruence.
    + rewrite Hview. unfold swap_rows_spec.
      rewrite (view_lookup _ _ _ _ Hp1), (view_lookup _ _ _ _ Hp2).
      rewrite (swap_lookup _ _ _ _ _ b (view_lookup _ _ _ _ Hp1) (view_lookup _ _ _ _ Hp2)).
      rewrite decide_True by done. by rewrite (view_lookup _ _ _ _ Hp1).
    + intros i Hia Hib. rewrite Hview. unfold swap_rows_spec.
      rewrite (view_lookup _ _ _ _ Hp1), (view_lookup _ _ _ _ Hp2).
      rewrite (swap_lookup _ _ _ _ _ i (view_lookup _ _ _ _ Hp1) (view_lookup _ _ _ _ Hp2)).
      by rewrite !decide_False.
  - intros Hout. unfold swap_rows, bind, row_at.
    destruct (m_rows_vec m !! a) as [p1|] eqn:Hp1; [|done].
    destruct (m_rows_vec m !! b) as [p2|] eqn:Hp2; [|done].
    apply lookup_lt_Some in Hp1, Hp2. lia.
Qed.

(** X2. Swapping the same two rows twice gives back the very same
    object: the row vector is restored entry for entry. *)
Theorem swap_rows_twice_restores (m : matrix) (a b : nat) (s : store T) :
  a < length (m_rows_vec m) -> b < length (m_rows_vec m) ->
  exists m', swap_rows m a b s = Ret m' s /\ swap_rows m' a b s = Ret m s.
Proof.
  intros Ha Hb.
  destruct (lookup_lt_is_Some_2 _ _ Ha) as [p1 Hp1].
  destruct (lookup_lt_is_Some_2 _ _ Hb) as [p2 Hp2].
  exists (Matrix (m_contiguous_matrix m) (<[b := p1]> (<[a := p2]> (m_rows_vec m)))).
  unfold swap_rows, bind, row_at, ret. rewrite Hp1, Hp2. split; [done|]. simpl.
  rewrite !(swap_lookup _ _ _ _ _ _ Hp1 Hp2).
  assert (Ha' : <[b:=p1]> (<[a:=p2]> (m_rows_vec m)) !! a = Some p2).
  { rewrite (swap_lookup _ _ _ _ _ _ Hp1 Hp2). repeat case_decide; congruence. }
  assert (Hb' : <[b:=p1]> (<[a:=p2]> (m_rows_vec m)) !! b = Some p1).
  { rewrite (swap_lookup _ _ _ _ _ _ Hp1 Hp2). by rewrite decide_True. }
  replace (if decide (a = b) then a else if decide (a = a) then b else a) with b
    by (repeat case_decide; congruence).
  rewrite decide_True by done. rewrite Hp1, Hp2.
  destruct m as [cm vec]. simpl in *. do 2 f_equal.
  apply list_eq. intros i. rewrite (swap_lookup _ _ _ _ _ _ Ha' Hb').
  rewrite (swap_lookup _ _ _ _ _ _ Hp1 Hp2).
  repeat case_decide; congruence.
Qed.

(** X3. What every constructor does after building its buffer: on an
    empty row vector [update_rows_vec] yields a well-formed matrix of the
    buffer's shape whose row [i] starts at offset [i * cols], so that the
    logical element [(i, j)] is the buffer element [i * cols + j]. *)
Theorem update_rows_vec_physical_order (hp : list (list T)) (cm : contiguous_matrix) :
  buffer_ok hp cm = true ->
  wf hp (update_rows_vec (Matrix cm [])) = true
  /\ rows (update_rows_vec (Matrix cm [])) = cm_rows cm
  /\ cols (update_rows_vec (Matrix cm [])) = cm_cols cm
  /\ (forall i, i < cm_rows cm ->
        m_rows_vec (update_rows_vec (Matrix cm [])) !! i
        = Some (Ptr (cm_data cm) (i * cm_cols cm)))
  /\ (forall i j, i < cm_rows cm -> j < cm_cols cm ->
        cell hp (Ptr (cm_data cm) (i * cm_cols cm + j))
        = Some (entry (view hp (update_rows_vec (Matrix cm []))) i j)).
Proof.
  intros Hb. set (m := update_rows_vec (Matrix cm [])).
  assert (Hvec : forall i, i < cm_rows cm ->
            m_rows_vec m !! i = Some (Ptr (cm_data cm) (i * cm_cols cm))).
  { intros i Hi. unfold m, update_rows_vec, rows, cols, data, ptr_add. simpl.
    by rewrite list_lookup_fmap, lookup_seq_lt. }
  assert (Hwf : wf hp m = true).
  { unfold buffer_ok in Hb.
    destruct (hp !! cm_data cm) as [d|] eqn:Hd; [|done]. apply Nat.eqb_eq in Hb.
    unfold wf, valid, buffer_ok, rows, cols. simpl.
    rewrite Hd, Hb, Nat.eqb_refl, length_map, length_seq, Nat.eqb_refl. simpl.
    apply andb_true_iff. split.
    - apply forallb_forall.
      intros p [k [-> Hk%elem_of_seq]]%list_elem_of_In%list_elem_of_fmap.
      unfold row_ok, data, ptr_add, rows, cols in *. simpl in *. rewrite Hd.
      apply bool_decide_eq_true. nia.
    - apply all_apart_intro. intros i j p q Hi Hj Hne.
      rewrite list_lookup_fmap in Hi. rewrite list_lookup_fmap in Hj.
      apply fmap_Some in Hi as [i' [[-> Hi]%lookup_seq ->]].
      apply fmap_Some in Hj as [j' [[-> Hj]%lookup_seq ->]].
      unfold rows_apart, rows, cols in *. simpl in *. rewrite Nat.eqb_refl. simpl.
      apply orb_true_iff. rewrite !Nat.leb_le. nia. }
  split_and!; try done.
  intros i j Hi Hj.
  pose proof (cell_entry hp m i j _ (wf_valid _ _ Hwf) (Hvec i Hi)) as Hc.
  unfold ptr_add in Hc. simpl in Hc. by apply Hc.
Qed.

End RowIndex.

(** ** Partial correctness *)

Section Partial.
Context {T : Type} `{Numeric T}.

Lemma wpp_ret {A} (a : A) (Q : A -> store T -> Prop) (s : store T) :
  Q a s -> wpp (ret a) Q s.
Proof. done. Qed.

Lemma wpp_bind {A B} (c : M T A) (k : A -> M T B) (Q : B -> store T -> Prop)
      (s : store T) :
  wpp c (fun a s' => wpp (k a) Q s') s -> wpp (bind c k) Q s.
Proof. unfold wpp, bind. by destruct (c s). Qed.

Lemma wpp_mono {A} (c : M T A) (Q Q' : A -> store T -> Prop) (s : store T) :
  wpp c Q s -> (forall a s', Q a s' -> Q' a s') -> wpp c Q' s.
Proof. unfold wpp. destruct (c s); auto. Qed.

Lemma wpp_run {A} (c : M T A) (Q : A -> store T -> Prop) (s : store T) a s' :
  wpp c Q s -> c s = Ret a s' -> Q a s'.
Proof. unfold wpp. intros Hw Hrun. by rewrite Hrun in Hw. Qed.

Lemma wpp_never_returns {A} (c : M T A) (s : store T) :
  wpp c (fun _ _ => False) s -> c s = Undefined.
Proof. unfold wpp. by destruct (c s). Qed.

Lemma wp_and_wpp {A} (c : M T A) (Q1 Q2 : A -> store T -> Prop) (s : store T) :
  wp c Q1 s -> wpp c Q2 s -> wp c (fun a s' => Q1 a s' /\ Q2 a s') s.
Proof. unfold wp, wpp. by destruct (c s). Qed.

Lemma wpp_for_each {S} (I : nat -> S -> store T -> Prop)
      (l : list nat) (body : nat -> S -> M T S) acc s :
  I 0 acc s ->
  (forall k i a s', l !! k = Some i -> I k a s' ->
                    wpp (body i a) (fun a' s'' => I (Datatypes.S k) a' s'') s') ->
  wpp (for_each l body acc) (fun a s' => I (length l) a s') s.
Proof.
  revert I acc s. induction l as [|i l IH]; intros I acc s H0 Hstep; simpl.
  - by apply wpp_ret.
  - apply wpp_bind. eapply wpp_mono; [apply (Hstep 0 i); done|].
    intros a s' Ha. simpl in Ha.
    apply (IH (fun k => I (Datatypes.S k))); [done|].
    intros k j a' s'' Hk HI. by apply (Hstep (Datatypes.S k) j).
Qed.

Lemma wpp_row_at (s : store T) m i (Q : ptr -> store T -> Prop) :
  (forall p, m_rows_vec m !! i = Some p -> Q p s) -> wpp (row_at m i) Q s.
Proof. intros HQ. unfold wpp, row_at. destruct (m_rows_vec m !! i); auto. Qed.

Lemma wpp_load (s : store T) p (Q : T -> store T -> Prop) :
  (forall v s', cell (bufs s) p = Some v -> bufs s' = bufs s -> Q v s') ->
  wpp (load p) Q s.
Proof.
  intros HQ. unfold wpp, load. unfold cell in HQ.
  destruct (bufs s !! p_buf p) as [d|]; [|done]. simpl in HQ.
  destruct (d !! p_off p) as [v|]; [|done]. by apply HQ.
Qed.

Lemma wpp_store_to (s : store T) p v (Q : unit -> store T -> Prop) :
  (forall s', bufs s' = poke (bufs s) p v -> Q tt s') ->
  wpp (store_to p v) Q s.
Proof.
  intros HQ. destruct (cell (bufs s) p) as [x|] eqn:Hc.
  - unfold wpp. rewrite store_to_poke by (by rewrite Hc). by apply HQ.
  - unfold wpp, store_to. unfold cell in Hc.
    destruct (bufs s !! p_buf p) as [d|]; [|done]. simpl in Hc.
    apply lookup_ge_None_1 in Hc. rewrite decide_False by lia. done.
Qed.

Lemma wpp_get (s : store T) m i j (Q : T -> store T -> Prop) :
  (forall p v s', m_rows_vec m !! i = Some p ->
                  cell (bufs s) (ptr_add p j) = Some v -> bufs s' = bufs s ->
                  Q v s') ->
  wpp (get m i j) Q s.
Proof.
  intros HQ. unfold get. apply wpp_bind, wpp_row_at. intros p Hp.
  apply wpp_load. intros v s' Hc Hs'. by eapply HQ.
Qed.

Lemma wpp_set (s : store T) m i j v (Q : unit -> store T -> Prop) :
  (forall p s', m_rows_vec m !! i = Some p ->
                bufs s' = poke (bufs s) (ptr_add p j) v -> Q tt s') ->
  wpp (set m i j v) Q s.
Proof.
  intros HQ. unfold set. apply wpp_bind, wpp_row_at. intros p Hp.
  apply wpp_store_to. intros s' Hs'. by eapply HQ.
Qed.

(** A write changes no buffer length. *)
Lemma poke_lengths (hp : list (list T)) p v :
  length <$> poke hp p v = length <$> hp.
Proof.
  unfold poke. apply list_eq. intros b. rewrite !list_lookup_fmap.
  destruct (decide (b = p_buf p)) as [->|Hne].
  - rewrite list_lookup_alter_eq. destruct (hp !! p_buf p); [|done].
    simpl. by rewrite length_insert.
  - by rewrite list_lookup_alter_ne.
Qed.

(** The pivot search only reads, and its result is not below the start. *)
Lemma wpp_max_in_col_greater_eq (s : store T) m col start
      (Q : nat * T -> store T -> Prop) :
  (forall r v s', bufs s' = bufs s -> start <= r -> Q (r, v) s') ->
  wpp (max_in_col_greater_eq m col start) Q s.
Proof.
  intros HQ. unfold max_in_col_greater_eq. apply wpp_bind. eapply wpp_mono.
  - apply (wpp_for_each (fun k mx s' => bufs s' = bufs s /\ start <= mx)).
    + done.
    + intros k i mx s1 [-> Hk]%lookup_seq [Hs1 Hmx].
      apply wpp_bind, wpp_get. intros p1 a s2 _ _ Hs2.
      apply wpp_bind, wpp_get. intros p2 b s3 _ _ Hs3.
      apply wpp_ret. split; [congruence|]. destruct (n_less _ _); lia.
  - intros mx s1 [Hs1 Hmx]. simpl.
    apply wpp_bind, wpp_get. intros p v s2 _ _ Hs2.
    apply wpp_ret. apply HQ; [congruence|done].
Qed.

(** A swap keeps the buffer object and permutes the row pointers; the
    rows at other indices stay. *)
Lemma wpp_swap_rows (s : store T) m a b (Q : matrix -> store T -> Prop) :
  (forall m', m_contiguous_matrix m' = m_contiguous_matrix m ->
              m_rows_vec m' ≡ₚ m_rows_vec m ->
              (forall i, i <> a -> i <> b -> m_rows_vec m' !! i = m_rows_vec m !! i) ->
              Q m' s) ->
  wpp (swap_rows m a b) Q s.
Proof.
  intros HQ. unfold swap_rows. apply wpp_bind, wpp_row_at. intros p1 Hp1.
  apply wpp_bind, wpp_row_at. intros p2 Hp2. apply wpp_ret.
  apply HQ; simpl; [done|by apply Permutation_insert_swap|].
  intros i Hia Hib. by rewrite !list_lookup_insert_ne.
Qed.

(** Eliminating a row changes no buffer length. *)
Lemma wpp_eliminate_row (s : store T) mat c i pe r (Q : unit -> store T -> Prop) :
  (forall s', length <$> bufs s' = length <$> bufs s -> Q tt s') ->
  wpp (eliminate_row mat c i pe r) Q s.
Proof.
  intros HQ. unfold eliminate_row. case_decide; [|by apply wpp_ret, HQ].
  apply wpp_bind, wpp_get. intros p x s1 _ _ Hs1. eapply wpp_mono.
  - apply (wpp_for_each (fun _ (_ : unit) s' =>
             length <$> bufs s' = length <$> bufs s)).
    + by rewrite Hs1.
    + intros k col [] s2 _ Hs2.
      apply wpp_bind, wpp_get. intros p1 b1 s3 _ _ Hs3.
      apply wpp_bind, wpp_get. intros p2 a1 s4 _ _ Hs4.
      apply wpp_set. intros p3 s5 _ Hs5.
      by rewrite Hs5, poke_lengths, Hs4, Hs3.
  - intros [] s' Hs'. by apply HQ.
Qed.

Lemma wpp_clear_rows (s : store T) mat n c i pe (Q : unit -> store T -> Prop) :
  (forall s', length <$> bufs s' = length <$> bufs s -> Q tt s') ->
  wpp (for_each (seq 0 n) (fun r _ => eliminate_row mat c i pe r) tt) Q s.
Proof.
  intros HQ. eapply wpp_mono.
  - apply (wpp_for_each (fun _ (_ : unit) s' =>
             length <$> bufs s' = length <$> bufs s)); [done|].
    intros k r [] s1 _ Hs1. apply wpp_eliminate_row. intros s2 Hs2. congruence.
  - intros [] s' Hs'. by apply HQ.
Qed.

(** The whole routine keeps the buffer object, permutes the row
    pointers and changes no buffer length. *)
Lemma wpp_gauss_jordan_elimination (s : store T) m (Q : matrix -> store T -> Prop) :
  (forall mat s', m_contiguous_matrix mat = m_contiguous_matrix m ->
                  m_rows_vec mat ≡ₚ m_rows_vec m ->
                  length <$> bufs s' = length <$> bufs s -> Q mat s') ->
  wpp (gauss_jordan_elimination m) Q s.
Proof.
  intros HQ. unfold gauss_jordan_elimination. eapply wpp_mono.
  - apply (wpp_for_each (fun _ mat s' =>
             m_contiguous_matrix mat = m_contiguous_matrix m /\
             m_rows_vec mat ≡ₚ m_rows_vec m /\
             length <$> bufs s' = length <$> bufs s)); [done|].
    intros k i mat s1 _ (Hcm & Hperm & Hlen).
    apply wpp_bind, wpp_max_in_col_greater_eq. intros r v s2 Hs2 _.
    apply wpp_bind, wpp_swap_rows. intros mat' Hcm' Hperm' _.
    apply wpp_bind, wpp_clear_rows. intros s3 Hs3. apply wpp_ret.
    split_and!; [congruence|by etrans|congruence].
  - intros mat s' (Hcm & Hperm & Hlen). by apply HQ.
Qed.

End Partial.

(** ** Gauss–Jordan elimination in place *)

Section InPlace.
Context {T : Type} `{Numeric T}.

(** X4. On a well-formed matrix with no more rows than columns,
    [gauss_jordan_elimination] returns; it keeps the buffer object and
    the length of every buffer, leaves the row pointers permuted, and the
    object then reads as the reduction of the logical matrix it read as
    before. *)
Theorem gauss_jordan_elimination_in_place (m : matrix) (s : store T) :
  wf (bufs s) m = true -> rows m <= cols m ->
  exists mat s',
    gauss_jordan_elimination m s = Ret mat s' /\
    m_contiguous_matrix mat = m_contiguous_matrix m /\
    m_rows_vec mat ≡ₚ m_rows_vec m /\
    wf (bufs s') mat = true /\
    view (bufs s') mat = gauss_jordan_spec (view (bufs s) m) /\
    length <$> bufs s' = length <$> bufs s.
Proof.
  intros Hwf Hwide.
  destruct (wp_elim (gauss_jordan_elimination m)
    (fun mat s' =>
       (wf (bufs s') mat = true /\
        view (bufs s') mat = gauss_jordan_spec (view (bufs s) m)) /\
       (m_contiguous_matrix mat = m_contiguous_matrix m /\
        m_rows_vec mat ≡ₚ m_rows_vec m /\
        length <$> bufs s' = length <$> bufs s)) s)
    as (mat & s' & Hrun & [Hwf' Hview] & Hcm & Hperm & Hlen).
  { apply wp_and_wpp.
    - apply wp_gauss_jordan_elimination; [done|done|]. by intros.
    - apply wpp_gauss_jordan_elimination. by intros. }
  exists mat, s'. by split_and!.
Qed.

(** X5. What [determinant] leaves behind. On a well-formed square
    matrix the call returns, and afterwards the operand reads, up to the
    order of its rows, as the Gauss–Jordan reduction of what it read as
    before: the elimination ran on the operand's own elements. *)
Theorem determinant_leaves_reduction (m : matrix) (s : store T) :
  wf (bufs s) m = true -> square m = true ->
  exists d s',
    determinant m s = Ret d s' /\
    view (bufs s') m ≡ₚ gauss_jordan_spec (view (bufs s) m).
Proof.
  intros Hwf Hsq. unfold determinant. rewrite Hsq. simpl.
  apply Nat.eqb_eq in Hsq.
  apply wp_elim with
    (Q := fun _ s' => view (bufs s') m ≡ₚ gauss_jordan_spec (view (bufs s) m)).
  apply wp_bind. apply wp_matrix_copy; [done|].
  intros tmp s1 d Hs1 Hr Hc Hvec Hwf1 Hview1.
  apply wp_bind. eapply wp_mono.
  - apply wp_and_wpp.
    + apply (wp_gauss_jordan_elimination _ _
               (fun mat s' => rows mat = rows tmp /\ cols mat = cols tmp /\
                  wf (bufs s') mat = true /\
                  view (bufs s') mat = gauss_jordan_spec (view (bufs s1) tmp)));
        [done|lia|]. by intros.
    + apply (wpp_gauss_jordan_elimination _ _
               (fun mat _ => m_rows_vec mat ≡ₚ m_rows_vec tmp)). by intros.
  - intros mat s2 [(Hr2 & Hc2 & Hwf2 & Hview2) Hperm]. simpl.
    apply wp_diagonal; [by apply wf_valid|lia|].
    intros s3 Hs3. rewrite Hs3, <- Hview1, <- Hview2.
    unfold view. rewrite Hc2, Hc. apply fmap_Permutation.
    rewrite Hperm. by rewrite Hvec.
Qed.

Lemma get_undefined (s : store T) m i j p :
  m_rows_vec m !! i = Some p -> cell (bufs s) (ptr_add p j) = None ->
  get m i j s = Undefined.
Proof.
  intros Hp Hc. unfold get, bind, row_at, load. rewrite Hp.
  unfold cell in Hc. destruct (bufs s !! p_buf (ptr_add p j)) as [d|]; [|done].
  change (d !! p_off (ptr_add p j) = None) in Hc. by rewrite Hc.
Qed.

Lemma wpp_get_undefined (s : store T) m i j p (Q : T -> store T -> Prop) :
  m_rows_vec m !! i = Some p -> cell (bufs s) (ptr_add p j) = None ->
  wpp (get m i j) Q s.
Proof. intros Hp Hc. unfold wpp. by rewrite (get_undefined _ _ _ _ _ Hp Hc). Qed.

(** One element past a row that ends its buffer is outside the buffer. *)
Lemma cell_past_end (hp : list (list T)) c p :
  (length <$> hp) !! p_buf p = Some (p_off p + c) ->
  cell hp (ptr_add p c) = None.
Proof.
  rewrite list_lookup_fmap. unfold cell. simpl.
  destruct (hp !! p_buf p) as [d|]; [|done]. simpl. intros [= Hd].
  apply lookup_ge_None_2. lia.
Qed.

(** X6. On a matrix with more rows than columns, one of whose rows ends
    its buffer (as the last row of every constructed matrix does),
    [gauss_jordan_elimination] is undefined behaviour: at step
    [i = cols] every row is read at column [cols], one element past its
    end, and for that row the element lies outside the buffer. *)
Theorem gauss_jordan_elimination_tall_undefined (m : matrix) (s : store T) :
  valid (bufs s) m = true -> cols m < rows m ->
  existsb (row_ends_buffer (bufs s) (cols m)) (m_rows_vec m) = true ->
  gauss_jordan_elimination m s = Undefined.
Proof.
  intros Hv Htall Hends. pose proof (valid_length _ _ Hv) as Hlen.
  apply existsb_exists in Hends as (pl & Hin%list_elem_of_In & Hpl).
  set (F := fun hp : list (list T) =>
              (length <$> hp) !! p_buf pl = Some (p_off pl + cols m)).
  assert (HF : F (bufs s)).
  { unfold F, row_ends_buffer in *. rewrite list_lookup_fmap.
    destruct (bufs s !! p_buf pl) as [d|]; [|done]. simpl.
    apply Nat.eqb_eq in Hpl. by rewrite Hpl. }
  apply wpp_never_returns. unfold gauss_jordan_elimination. eapply wpp_mono.
  - apply (wpp_for_each (fun k mat s' =>
             k <= cols m /\ m_contiguous_matrix mat = m_contiguous_matrix m /\
             length (m_rows_vec mat) = rows m /\ pl ∈ m_rows_vec mat /\
             F (bufs s'))).
    + split_and!; try done. lia.
    + intros k i mat s1 [-> Hk]%lookup_seq (Hkc & Hcm & Hl & Hpin & HF1).
      rewrite Nat.add_0_l. simpl in Hk.
      destruct (decide (k < cols m)) as [Hlt|Hge].
      * apply wpp_bind, wpp_max_in_col_greater_eq. intros r v s2 Hs2 _.
        apply wpp_bind, wpp_swap_rows. intros mat' Hcm' Hperm' _.
        apply wpp_bind, wpp_clear_rows. intros s3 Hs3. apply wpp_ret.
        split_and!; [lia|congruence| | |].
        -- by rewrite Hperm'.
        -- by rewrite Hperm'.
        -- unfold F in *. by rewrite Hs3, Hs2.
      * assert (k = cols m) as -> by lia.
        apply list_elem_of_lookup_1 in Hpin as [L HL].
        assert (HLR : L < rows m) by (rewrite <- Hl; by eapply lookup_lt_Some).
        eapply wpp_mono with (Q := fun _ _ => False); [|done].
        destruct (decide (cols m <= L)) as [Hhigh|Hlow].
        -- (* the pivot search reaches the row *)
           apply wpp_bind. unfold max_in_col_greater_eq.
           apply wpp_bind. eapply wpp_mono.
           ++ apply (wpp_for_each (fun k' (_ : nat) s' =>
                       k' <= L - cols m /\ bufs s' = bufs s1)); [split; [lia|done]|].
              intros k' row mx s2 [-> Hk']%lookup_seq [Hk'L Hs2].
              apply wpp_bind, wpp_get. intros p1 a s3 _ _ Hs3.
              destruct (decide (k' = L - cols m)) as [->|Hne].
              ** replace (cols m + (L - cols m)) with L by lia.
                 apply wpp_bind. eapply wpp_get_undefined; [done|].
                 rewrite Hs3, Hs2. by apply cell_past_end.
              ** apply wpp_bind, wpp_get. intros p2 b s4 _ _ Hs4.
                 apply wpp_ret. split; [lia|congruence].
           ++ intros mx s2 [Hbad _]. simpl in Hbad. rewrite length_seq in Hbad.
              unfold rows in *. rewrite Hcm in Hbad. lia.
        -- (* the elimination loop reaches the row *)
           apply wpp_bind, wpp_max_in_col_greater_eq. intros r v s2 Hs2 Hr.
           apply wpp_bind, wpp_swap_rows. intros mat' Hcm' Hperm' Hsame.
           assert (HL' : m_rows_vec mat' !! L = Some pl).
           { rewrite Hsame by lia. done. }
           apply wpp_bind. eapply wpp_mono.
           ++ apply (wpp_for_each (fun k' (_ : unit) s' =>
                       k' <= L /\ F (bufs s'))).
              { split; [lia|]. unfold F in *. by rewrite Hs2. }
              intros k' r' [] s3 [-> Hk']%lookup_seq [Hk'L HF3].
              rewrite Nat.add_0_l.
              destruct (decide (k' = L)) as [->|Hne].
              ** unfold eliminate_row. rewrite decide_True by lia.
                 apply wpp_bind. eapply wpp_get_undefined; [done|].
                 by apply cell_past_end.
              ** apply wpp_eliminate_row. intros s4 Hs4.
                 split; [lia|]. unfold F in *. by rewrite Hs4.
           ++ intros [] s3 [Hbad _]. simpl in Hbad. rewrite length_seq in Hbad. lia.
  - intros mat s' (Hbad & _). simpl in Hbad. rewrite length_seq in Hbad. lia.
Qed.

End InPlace.

(** ** The pivot search, whatever the comparison *)

Section PivotAnyOrder.
Context {T : Type} `{Numeric T}.

(** No row after the result is strictly greater than it: once the fold
    has settled on a row, every later candidate was compared with it. *)
Lemma pivot_search_later (A : list (list T)) col start n r' :
  pivot_search A col start n < r' < start + n ->
  n_less (n_abs (entry A (pivot_search A col start n) col))
         (n_abs (entry A r' col)) = false.
Proof.
  induction n as [|n IH]; intros Hr'.
  - unfold pivot_search in Hr'. simpl in Hr'. lia.
  - rewrite pivot_search_S in *. unfold pivot_step in *.
    destruct (n_less (n_abs (entry A (pivot_search A col start n) col))
                     (n_abs (entry A (start + n) col))) eqn:Hlt; [lia|].
    destruct (decide (r' = start + n)) as [->|Hne]; [done|]. apply IH. lia.
Qed.

(** A result other than the start row replaced an earlier candidate
    that was strictly less. *)
Lemma pivot_search_replaced (A : list (list T)) col start n :
  pivot_search A col start n <> start ->
  exists r0, start <= r0 < pivot_search A col start n /\
    n_less (n_abs (entry A r0 col))
           (n_abs (entry A (pivot_search A col start n) col)) = true.
Proof.
  induction n as [|n IH]; intros Hne.
  - by unfold pivot_search in Hne.
  - pose proof (pivot_search_range A col start n) as Hrg.
    rewrite pivot_search_S in *. unfold pivot_step in *.
    destruct (n_less (n_abs (entry A (pivot_search A col start n) col))
                     (n_abs (entry A (start + n) col))) eqn:Hlt; [|by apply IH].
    exists (pivot_search A col start n). split; [|done].
    destruct n; [unfold pivot_search in *; simpl in *|]; lia.
Qed.

(** X7. On a live matrix and a column [col < cols], the pivot search
    returns exactly when the start row is a row of the matrix, and is
    undefined behaviour otherwise. When it returns it has only read: the
    row is in [start .. rows), the value is the element there, no later
    row is strictly greater in absolute value, and a result other than
    the start row is strictly greater than some earlier candidate. None
    of this depends on the comparison being an order. *)
Theorem max_in_col_greater_eq_any_order (m : matrix) (col start : nat) (s : store T) :
  valid (bufs s) m = true -> col < cols m ->
  (start < rows m ->
   exists r v s',
     max_in_col_greater_eq m col start s = Ret (r, v) s' /\
     bufs s' = bufs s /\ start <= r < rows m /\
     v = entry (view (bufs s) m) r col /\
     (forall r', r < r' < rows m ->
        n_less (n_abs v) (n_abs (entry (view (bufs s) m) r' col)) = false) /\
     (r <> start -> exists r0, start <= r0 < r /\
        n_less (n_abs (entry (view (bufs s) m) r0 col)) (n_abs v) = true))
  /\ (rows m <= start -> max_in_col_greater_eq m col start s = Undefined).
Proof.
  intros Hv Hc. split.
  - intros Hs. set (A := view (bufs s) m).
    destruct (wp_elim (max_in_col_greater_eq m col start)
      (fun rv s' => bufs s' = bufs s /\
         rv = (pivot_search A col start (rows m - start),
               entry A (pivot_search A col start (rows m - start)) col)) s)
      as ([r v] & s' & Hrun & Hs' & [= -> ->]).
    { by apply wp_max_in_col_greater_eq. }
    pose proof (pivot_search_range A col start (rows m - start)) as Hrg.
    eexists _, _, s'. split_and!; try done; try lia.
    + intros r' Hr'. apply pivot_search_later. lia.
    + apply pivot_search_replaced.
  - intros Hs. unfold max_in_col_greater_eq.
    replace (rows m - start) with 0 by lia. simpl.
    unfold bind, ret, get, row_at.
    rewrite lookup_ge_None_2; [done|]. rewrite (valid_length _ _ Hv). lia.
Qed.

End PivotAnyOrder.

(** ** The pivot search and NaN *)

Section PivotNaN.
Open Scope float_scope.

Lemma double_abs_nan (x : float) : n_abs x = nan <-> x = nan.
Proof.
  simpl. split.
  - intros Hx. apply Prim2SF_inj. apply (f_equal Prim2SF) in Hx.
    rewrite FloatAxioms.abs_spec in Hx. change (Prim2SF nan) with S754_nan in *.
    by destruct (Prim2SF x).
  - by intros ->.
Qed.

Lemma double_less_nan_l (y : float) : n_less nan y = false.
Proof.
  simpl. rewrite FloatAxioms.ltb_spec. change (Prim2SF nan) with S754_nan.
  by destruct (Prim2SF y).
Qed.

Lemma double_less_not_nan (x y : float) : n_less x y = true -> y <> nan.
Proof.
  simpl. rewrite FloatAxioms.ltb_spec. intros Hlt ->.
  change (Prim2SF nan) with S754_nan in Hlt. by destruct (Prim2SF x).
Qed.

Lemma double_nan_dec (x : float) : x = nan \/ x <> nan.
Proof.
  destruct (Prim2SF x) eqn:Hx.
  - right. intros ->. by change (Prim2SF nan) with S754_nan in Hx.
  - right. intros ->. by change (Prim2SF nan) with S754_nan in Hx.
  - left. by apply Prim2SF_inj.
  - right. intros ->. by change (Prim2SF nan) with S754_nan in Hx.
Qed.

(** X8. For [double]: the pivot value is a NaN exactly when the element
    of the start row is one, and then the start row is the result. A NaN
    in a later row is never selected, and a NaN in the start row is never
    replaced. *)
Theorem max_in_col_greater_eq_nan (m : matrix) (col start : nat) (s : store float) :
  valid (bufs s) m = true -> (col < cols m)%nat -> (start < rows m)%nat ->
  exists r v s',
    max_in_col_greater_eq m col start s = Ret (r, v) s' /\
    (v = nan <-> entry (view (bufs s) m) start col = nan) /\
    (entry (view (bufs s) m) start col = nan -> r = start).
Proof.
  intros Hv Hc Hs. set (A := view (bufs s) m).
  destruct (wp_elim (max_in_col_greater_eq m col start)
    (fun rv s' =>
       rv = (pivot_search A col start (rows m - start)%nat,
             entry A (pivot_search A col start (rows m - start)%nat) col)) s)
    as ([r v] & s' & Hrun & [= -> ->]).
  { apply wp_max_in_col_greater_eq; try done. }
  assert (Hinv : forall n,
            (entry A start col = nan -> pivot_search A col start n = start)
            /\ (entry A start col <> nan ->
                entry A (pivot_search A col start n) col <> nan)).
  { induction n as [|n [IH1 IH2]]; [by split|].
    rewrite pivot_search_S. unfold pivot_step. split.
    - intros Hnan. rewrite (IH1 Hnan), Hnan.
      replace (n_abs nan) with nan by (symmetry; by apply double_abs_nan).
      by rewrite double_less_nan_l.
    - intros Hnn. destruct (n_less _ _) eqn:Hlt; [|by apply IH2].
      apply double_less_not_nan in Hlt. by rewrite double_abs_nan in Hlt. }
  destruct (Hinv (rows m - start)%nat) as [H1 H2].
  exists (pivot_search A col start (rows m - start)%nat),
         (entry A (pivot_search A col start (rows m - start)%nat) col), s'.
  split_and!; [done| |done].
  split.
  - intros Hnan. destruct (double_nan_dec (entry A start col)) as [|Hnn]; [done|].
    by destruct (H2 Hnn).
  - intros Hnan. by rewrite (H1 Hnan).
Qed.

End PivotNaN.

(** ** The free operators *)

Section FreeOperators.
Context {T : Type} `{Numeric T}.

Lemma compatible_same_rows m m' other :
  cols m' = cols m -> m_rows_vec m' = m_rows_vec m ->
  compatible m' other = compatible m other.
Proof. intros Hc Hv. unfold compatible. by rewrite Hc, Hv. Qed.

Lemma view_same_rows (hp : list (list T)) m m' :
  cols m' = cols m -> m_rows_vec m' = m_rows_vec m -> view hp m' = view hp m.
Proof. intros Hc Hv. unfold view. by rewrite Hc, Hv. Qed.

(** The body shared by [operator+] and [operator-]. *)
Lemma wp_copy_then_assign (s : store T) op lhs rhs (Q : matrix -> store T -> Prop) :
  wf (bufs s) lhs = true -> valid (bufs s) rhs = true ->
  compatible lhs rhs = true ->
  rows lhs = rows rhs -> cols lhs = cols rhs ->
  (forall res s', m_rows_vec res = m_rows_vec lhs ->
     rows res = rows lhs -> cols res = cols lhs ->
     (forall i j, i < rows lhs -> j < cols lhs ->
        entry (view (bufs s') res) i j
        = op (entry (view (bufs s) lhs) i j) (entry (view (bufs s) rhs) i j)) ->
     view (bufs s') lhs = view (bufs s') res ->
     Q res s') ->
  wp (let* res := matrix_copy lhs in
      let* _ := elementwise_assign op res rhs in
      ret res) Q s.
Proof.
  intros Hwf Hvr Hcompat Hr Hc HQ.
  apply wp_bind. apply wp_matrix_copy; [done|].
  intros res s1 d Hs1 Hr1 Hc1 Hvec Hwf1 Hview1.
  assert (Hag : agree (bufs s) (bufs s1)) by (rewrite Hs1; apply agree_app).
  destruct (valid_agree _ _ _ Hag Hvr) as [Hvr1 Hviewr1].
  apply wp_bind. apply wp_elementwise_assign; try congruence.
  { by rewrite (compatible_same_rows lhs). }
  intros s2 Hv2 Hent. apply wp_ret. apply HQ; try done.
  - intros i j Hi Hj. rewrite Hent by congruence. by rewrite Hview1, Hviewr1.
  - symmetry. by apply view_same_rows.
Qed.

(** X9. [operator+] and [operator-] write into their left operand. For
    a well-formed [lhs] and a live [rhs] of the same shape that shares no
    element with it, the result has the row pointers of [lhs], it reads
    as the element-wise sum (difference), and so does [lhs] from then on:
    the copy the operators work on shares its rows with [lhs]. *)
Theorem operator_plus_minus_overwrite_left (lhs rhs : matrix) (s : store T) :
  wf (bufs s) lhs = true -> valid (bufs s) rhs = true ->
  compatible lhs rhs = true ->
  rows lhs = rows rhs -> cols lhs = cols rhs ->
  (exists res s',
     operator_plus lhs rhs s = Ret res s' /\
     m_rows_vec res = m_rows_vec lhs /\
     view (bufs s') lhs = view (bufs s') res /\
     forall i j, i < rows lhs -> j < cols lhs ->
       entry (view (bufs s') res) i j
       = n_add (entry (view (bufs s) lhs) i j) (entry (view (bufs s) rhs) i j))
  /\ (exists res s',
        operator_minus lhs rhs s = Ret res s' /\
        m_rows_vec res = m_rows_vec lhs /\
        view (bufs s') lhs = view (bufs s') res /\
        forall i j, i < rows lhs -> j < cols lhs ->
          entry (view (bufs s') res) i j
          = n_sub (entry (view (bufs s) lhs) i j) (entry (view (bufs s) rhs) i j)).
Proof.
  intros Hwf Hvr Hcompat Hr Hc. split.
  - destruct (wp_elim (operator_plus lhs rhs)
      (fun res s' => m_rows_vec res = m_rows_vec lhs /\
         view (bufs s') lhs = view (bufs s') res /\
         forall i j, i < rows lhs -> j < cols lhs ->
           entry (view (bufs s') res) i j
           = n_add (entry (view (bufs s) lhs) i j) (entry (view (bufs s) rhs) i j)) s)
      as (res & s' & Hrun & Hres); [|by exists res, s'].
    apply wp_copy_then_assign; try done; by intros.
  - destruct (wp_elim (operator_minus lhs rhs)
      (fun res s' => m_rows_vec res = m_rows_vec lhs /\
         view (bufs s') lhs = view (bufs s') res /\
         forall i j, i < rows lhs -> j < cols lhs ->
           entry (view (bufs s') res) i j
           = n_sub (entry (view (bufs s) lhs) i j) (entry (view (bufs s) rhs) i j)) s)
      as (res & s' & Hrun & Hres); [|by exists res, s'].
    apply wp_copy_then_assign; try done; by intros.
Qed.

Lemma agree_length (hp hp' : list (list T)) :
  agree hp hp' -> length hp <= length hp'.
Proof.
  intros Hag. destruct (decide (length hp <= length hp')) as [|Hn]; [done|].
  exfalso. assert (Hb : length hp' < length hp) by lia.
  pose proof (Hag _ Hb) as Hbad.
  rewrite (lookup_ge_None_2 hp') in Hbad by lia.
  symmetry in Hbad. apply lookup_ge_None_1 in Hbad. lia.
Qed.

(** [operator*] on two matrices: a copy of the left operand, then
    [operator*=]. *)
Lemma wp_operator_mul (s : store T) lhs rhs (Q : matrix -> store T -> Prop) :
  wf (bufs s) lhs = true -> wf (bufs s) rhs = true -> cols lhs = rows rhs ->
  (forall res s', rows res = rows lhs -> cols res = cols rhs ->
     wf (bufs s') res = true -> agree (bufs s) (bufs s') ->
     (forall i j, i < rows lhs -> j < cols rhs ->
        entry (view (bufs s') res) i j
        = dot (view (bufs s) lhs) (view (bufs s) rhs) i j (cols lhs)) ->
     Q res s') ->
  wp (operator_mul lhs rhs) Q s.
Proof.
  intros Hwfl Hwfr Heq HQ. unfold operator_mul.
  apply wp_bind. apply wp_matrix_copy; [done|].
  intros res0 s1 d Hs1 Hr1 Hc1 Hvec Hwf1 Hview1.
  assert (Hag : agree (bufs s) (bufs s1)) by (rewrite Hs1; apply agree_app).
  destruct (wf_agree _ _ _ Hag Hwfr) as [Hwfr1 Hviewr1].
  apply wp_operator_mul_assign; try congruence.
  intros res s' Hr Hc Hwf' Hag' Hent.
  apply HQ; try congruence.
  - apply (agree_trans _ _ _ Hag Hag'). by apply agree_length.
  - intros i j Hi Hj. rewrite Hent by congruence.
    by rewrite Hview1, Hviewr1, Hc1.
Qed.

(** X10. [operator*] on two well-formed matrices: it throws when
    [lhs.cols] differs from [rhs.rows]; otherwise it returns a well-formed
    matrix of shape [lhs.rows x rhs.cols] whose entries are the dot
    products, and every buffer that existed before is unchanged, so both
    operands read as before. *)
Theorem operator_mul_leaves_operands (lhs rhs : matrix) (s : store T) :
  wf (bufs s) lhs = true -> wf (bufs s) rhs = true ->
  (cols lhs <> rows rhs ->
   exists s', operator_mul lhs rhs s = Throw "Mismatched matrix sizes" s'
              /\ agree (bufs s) (bufs s'))
  /\ (cols lhs = rows rhs ->
      exists res s',
        operator_mul lhs rhs s = Ret res s' /\
        rows res = rows lhs /\ cols res = cols rhs /\
        wf (bufs s') res = true /\
        view (bufs s') lhs = view (bufs s) lhs /\
        view (bufs s') rhs = view (bufs s) rhs /\
        forall i j, i < rows lhs -> j < cols rhs ->
          entry (view (bufs s') res) i j
          = dot (view (bufs s) lhs) (view (bufs s) rhs) i j (cols lhs)).
Proof.
  intros Hwfl Hwfr. split.
  - intros Hne.
    destruct (wp_elim (matrix_copy lhs)
      (fun res s' => cols res = cols lhs /\ agree (bufs s) (bufs s')) s)
      as (res & s1 & Hrun & Hc & Hag).
    { apply wp_matrix_copy; [done|]. intros res s1 d Hs1 _ Hc _ _ _.
      split; [done|]. rewrite Hs1. apply agree_app. }
    exists s1. split; [|done].
    unfold operator_mul, bind. rewrite Hrun. unfold operator_mul_assign.
    rewrite Hc. by rewrite (proj2 (Nat.eqb_neq _ _) Hne).
  - intros Heq.
    destruct (wp_elim (operator_mul lhs rhs)
      (fun res s' => rows res = rows lhs /\ cols res = cols rhs /\
         wf (bufs s') res = true /\ agree (bufs s) (bufs s') /\
         forall i j, i < rows lhs -> j < cols rhs ->
           entry (view (bufs s') res) i j
           = dot (view (bufs s) lhs) (view (bufs s) rhs) i j (cols lhs)) s)
      as (res & s' & Hrun & Hr & Hc & Hwf' & Hag & Hent).
    { apply wp_operator_mul; try done; by intros. }
    exists res, s'. split_and!; try done.
    + by apply (wf_agree _ _ _ Hag Hwfl).
    + by apply (wf_agree _ _ _ Hag Hwfr).
Qed.

End FreeOperators.

(** ** Transposing a product *)

Section TransposeProduct.
Context {T : Type} `{Numeric T}.

Lemma dot_transposed (A B tA tB : list (list T)) i j n :
  (forall x y, n_mul x y = n_mul y x) ->
  (forall k, k < n -> entry tB j k = entry B k j) ->
  (forall k, k < n -> entry tA k i = entry A i k) ->
  dot tB tA j i n = dot A B i j n.
Proof.
  intros Hcomm HB HA. unfold dot.
  assert (Hgen : forall l acc, (forall k, k ∈ l -> k < n) ->
    fold_left (fun acc k => n_add acc (n_mul (entry tB j k) (entry tA k i))) l acc
    = fold_left (fun acc k => n_add acc (n_mul (entry A i k) (entry B k j))) l acc).
  { induction l as [|k l IH]; intros acc Hl; [done|]. simpl.
    rewrite HB, HA, Hcomm by (apply Hl; left).
    apply IH. intros k' Hk'. apply Hl. by right. }
  apply Hgen. intros k Hk. apply elem_of_seq in Hk. lia.
Qed.

(** With a commutative element product, [transpose(m * n)] and
    [transpose(n) * transpose(m)], evaluated one after the other, are the
    same logical matrix. *)
Lemma transpose_of_product_comm (m n : matrix) (s : store T) :
  (forall x y, n_mul x y = n_mul y x) ->
  wf (bufs s) m = true -> wf (bufs s) n = true -> cols m = rows n ->
  exists p s1 tp s2 tn s3 tm s4 q s5,
    operator_mul m n s = Ret p s1 /\
    free_transpose p s1 = Ret tp s2 /\
    free_transpose n s2 = Ret tn s3 /\
    free_transpose m s3 = Ret tm s4 /\
    operator_mul tn tm s4 = Ret q s5 /\
    same_matrix (bufs s5) q (bufs s5) tp.
Proof.
  intros Hcomm Hwfm Hwfn Heq.
  set (A := view (bufs s) m). set (B := view (bufs s) n).
  destruct (wp_elim (operator_mul m n)
    (fun res s' => rows res = rows m /\ cols res = cols n /\
       wf (bufs s') res = true /\ agree (bufs s) (bufs s') /\
       forall i j, i < rows m -> j < cols n ->
         entry (view (bufs s') res) i j = dot A B i j (cols m)) s)
    as (p & s1 & Hrun1 & Hrp & Hcp & Hwfp & Hag1 & Hentp).
  { apply wp_operator_mul; try done; by intros. }
  destruct (wf_agree _ _ _ Hag1 Hwfm) as [Hwfm1 Hvm1].
  destruct (wf_agree _ _ _ Hag1 Hwfn) as [Hwfn1 Hvn1].
  destruct (wp_elim (free_transpose p)
    (fun t s' => rows t = cols p /\ cols t = rows p /\ wf (bufs s') t = true /\
       agree (bufs s1) (bufs s') /\
       forall i j, i < rows p -> j < cols p ->
         entry (view (bufs s') t) j i = entry (view (bufs s1) p) i j) s1)
    as (tp & s2 & Hrun2 & Hrtp & Hctp & Hwftp & Hag2 & Henttp).
  { apply wp_free_transpose; [done|]. intros; split_and!; done. }
  destruct (wf_agree _ _ _ Hag2 Hwfm1) as [Hwfm2 Hvm2].
  destruct (wf_agree _ _ _ Hag2 Hwfn1) as [Hwfn2 Hvn2].
  destruct (wp_elim (free_transpose n)
    (fun t s' => rows t = cols n /\ cols t = rows n /\ wf (bufs s') t = true /\
       agree (bufs s2) (bufs s') /\
       forall i j, i < rows n -> j < cols n ->
         entry (view (bufs s') t) j i = entry (view (bufs s2) n) i j) s2)
    as (tn & s3 & Hrun3 & Hrtn & Hctn & Hwftn & Hag3 & Henttn).
  { apply wp_free_transpose; [done|]. intros; split_and!; done. }
  destruct (wf_agree _ _ _ Hag3 Hwfm2) as [Hwfm3 Hvm3].
  destruct (wf_agree _ _ _ Hag3 Hwftp) as [Hwftp3 Hvtp3].
  destruct (wp_elim (free_transpose m)
    (fun t s' => rows t = cols m /\ cols t = rows m /\ wf (bufs s') t = true /\
       agree (bufs s3) (bufs s') /\
       forall i j, i < rows m -> j < cols m ->
         entry (view (bufs s') t) j i = entry (view (bufs s3) m) i j) s3)
    as (tm & s4 & Hrun4 & Hrtm & Hctm & Hwftm & Hag4 & Henttm).
  { apply wp_free_transpose; [done|]. intros; split_and!; done. }
  destruct (wf_agree _ _ _ Hag4 Hwftn) as [Hwftn4 Hvtn4].
  destruct (wf_agree _ _ _ Hag4 Hwftp3) as [Hwftp4 Hvtp4].
  destruct (wp_elim (operator_mul tn tm)
    (fun res s' => rows res = rows tn /\ cols res = cols tm /\
       wf (bufs s') res = true /\ agree (bufs s4) (bufs s') /\
       forall i j, i < rows tn -> j < cols tm ->
         entry (view (bufs s') res) i j
         = dot (view (bufs s4) tn) (view (bufs s4) tm) i j (cols tn)) s4)
    as (q & s5 & Hrun5 & Hrq & Hcq & Hwfq & Hag5 & Hentq).
  { apply wp_operator_mul; try done; try congruence; by intros. }
  destruct (wf_agree _ _ _ Hag5 Hwftp4) as [Hwftp5 Hvtp5].
  exists p, s1, tp, s2, tn, s3, tm, s4, q, s5. split_and!; try done.
  unfold same_matrix. split_and!; try congruence.
  pose proof (wf_valid _ _ Hwfq) as Hvq. pose proof (wf_valid _ _ Hwftp5) as Hvt.
  apply (matrix_ext _ _ (cols n) (rows m)).
  - rewrite view_length, (valid_length _ _ Hvq). congruence.
  - rewrite view_length, (valid_length _ _ Hvt). congruence.
  - intros i row Hrow. rewrite (view_row_length _ _ _ _ Hvq Hrow). congruence.
  - intros i row Hrow. rewrite (view_row_length _ _ _ _ Hvt Hrow). congruence.
  - intros j i Hj Hi.
    rewrite Hentq by congruence.
    rewrite Hvtp5, Hvtp4, Hvtp3, Henttp by congruence.
    rewrite Hentp by congruence.
    rewrite Hctn, <- Heq. apply dot_transposed; [done| |].
    + intros k Hk. rewrite Hvtn4, Henttn by congruence. by rewrite Hvn2, Hvn1.
    + intros k Hk. rewrite Henttm by congruence. by rewrite Hvm3, Hvm2, Hvm1.
Qed.

End TransposeProduct.

Section TransposeProductDouble.
Local Open Scope float_scope.

Lemma double_mul_comm (x y : float) : x * y = y * x.
Proof.
  apply Prim2SF_inj. rewrite !FloatAxioms.mul_spec.
  destruct (Prim2SF x) as [sx|sx| |sx mx ex], (Prim2SF y) as [sy|sy| |sy my ey];
    unfold FloatAxioms.SF64mul, SpecFloat.SFmul; try reflexivity;
    rewrite ?(xorb_comm sx sy); try reflexivity.
  rewrite (Pos.mul_comm mx my), (Z.add_comm ex ey). reflexivity.
Qed.

(** X11. For [double] matrices, the transpose of a product is the
    product of the transposes in reverse order, exactly (no rounding
    difference): with well-formed [m], [n] and [m.cols = n.rows],
    evaluating [transpose(m * n)] and then [transpose(n) * transpose(m)]
    gives two matrices of the same shape with the same element at every
    index. *)
Theorem transpose_of_product (m n : matrix) (s : store float) :
  wf (bufs s) m = true -> wf (bufs s) n = true -> cols m = rows n ->
  exists p s1 tp s2 tn s3 tm s4 q s5,
    operator_mul m n s = Ret p s1 /\
    free_transpose p s1 = Ret tp s2 /\
    free_transpose n s2 = Ret tn s3 /\
    free_transpose m s3 = Ret tm s4 /\
    operator_mul tn tm s4 = Ret q s5 /\
    same_matrix (bufs s5) q (bufs s5) tp.
Proof.
  intros Hwfm Hwfn Heq. apply transpose_of_product_comm; try done.
  intros x y. apply double_mul_comm.
Qed.

End TransposeProductDouble.

(** ** What the member [transpose] and the scalar operators return *)

Section Results.
Context {T : Type} `{Numeric T}.

(** Whatever the loops do, the object [transpose] returns is the one its
    first line constructs. *)
Lemma wpp_transpose_object (s : store T) m (Q : matrix -> store T -> Prop) :
  (forall s', Q (update_rows_vec
                   (Matrix (CMatrix (cols m) (rows m) (length (bufs s))) [])) s') ->
  wpp (transpose m) Q s.
Proof.
  intros HQ. unfold transpose. apply wpp_bind.
  unfold wpp at 1. unfold matrix_value, cm_with_value, bind, alloc, ret. simpl.
  set (t := update_rows_vec _) in *.
  apply wpp_bind. eapply wpp_mono.
  - apply (wpp_for_each (fun _ (_ : unit) _ => True)); [done|].
    intros k i [] s1 _ _. eapply wpp_mono.
    + apply (wpp_for_each (fun _ (_ : unit) _ => True)); [done|].
      intros k' j [] s2 _ _. apply wpp_bind, wpp_get. intros p v s3 _ _ _.
      apply wpp_set. by intros.
    + done.
  - intros [] s' _. apply wpp_ret, HQ.
Qed.

(** X12. The member [transpose] of a live [rows x cols] matrix returns
    a well-formed [cols x rows] matrix that owns a fresh buffer and whose
    row [k] starts at offset [k * rows] of it: whatever order row swaps
    had given the operand, the result is in physical order. Entry
    [(j, i)] of the result is entry [(i, j)] of the operand, and no buffer
    that existed before is written. *)
Theorem transpose_physical_order (m : matrix) (s : store T) :
  valid (bufs s) m = true ->
  exists t s',
    transpose m s = Ret t s' /\
    rows t = cols m /\ cols t = rows m /\
    wf (bufs s') t = true /\
    cm_data (m_contiguous_matrix t) = length (bufs s) /\
    length (m_rows_vec t) = cols m /\
    (forall k, k < cols m ->
       m_rows_vec t !! k = Some (Ptr (length (bufs s)) (k * rows m))) /\
    agree (bufs s) (bufs s') /\
    (forall i j, i < rows m -> j < cols m ->
       entry (view (bufs s') t) j i = entry (view (bufs s) m) i j).
Proof.
  intros Hv.
  destruct (wp_elim (transpose m)
    (fun t s' =>
       (rows t = cols m /\ cols t = rows m /\ wf (bufs s') t = true /\
        agree (bufs s) (bufs s') /\
        forall i j, i < rows m -> j < cols m ->
          entry (view (bufs s') t) j i = entry (view (bufs s) m) i j) /\
       t = update_rows_vec
             (Matrix (CMatrix (cols m) (rows m) (length (bufs s))) [])) s)
    as (t & s' & Hrun & (Hr & Hc & Hwf & Hag & Hent) & Ht).
  { apply wp_and_wpp.
    - apply wp_transpose; [done|]. intros; split_and!; done.
    - by apply wpp_transpose_object. }
  exists t, s'. split_and!; try done.
  - by rewrite Ht.
  - rewrite Ht. unfold update_rows_vec, rows. simpl.
    by rewrite length_map, length_seq.
  - intros k Hk. rewrite Ht. unfold update_rows_vec, rows, cols, data, ptr_add.
    simpl. rewrite list_lookup_fmap, lookup_seq_lt by done. done.
Qed.

(** X13. The free scalar operators [lhs * k], [k * lhs] and [lhs / k]
    return a matrix that reads exactly as [lhs] did: whatever the buffer
    operation does, it is applied to the buffer of the copy, which the
    run appends to the store, while the rows of the result are the row
    pointers of [lhs]; no buffer that existed before is written. *)
Theorem operator_scalar_reads_operand (on_buffer : T -> list T -> list T)
        (lhs : matrix) (k : T) (s : store T) :
  wf (bufs s) lhs = true ->
  exists res d,
    bufs s !! cm_data (m_contiguous_matrix lhs) = Some d /\
    operator_scalar on_buffer lhs k s
    = Ret res (Store (bufs s ++ [on_buffer k d]) (accesses s)) /\
    cm_data (m_contiguous_matrix res) = length (bufs s) /\
    m_rows_vec res = m_rows_vec lhs /\
    rows res = rows lhs /\ cols res = cols lhs /\
    view (bufs s ++ [on_buffer k d]) res = view (bufs s) lhs.
Proof.
  intros Hwf. pose proof (wf_valid _ _ Hwf) as Hv.
  pose proof Hv as [[Hb Hl]%andb_true_iff Hok]%andb_true_iff.
  unfold buffer_ok in Hb.
  destruct (bufs s !! cm_data (m_contiguous_matrix lhs)) as [d|] eqn:Hd; [|done].
  exists (Matrix (CMatrix (cm_rows (m_contiguous_matrix lhs))
                          (cm_cols (m_contiguous_matrix lhs))
                          (length (bufs s))) (m_rows_vec lhs)), d.
  split_and!; try done.
  - unfold operator_scalar, matrix_copy, cm_copy, bind, alloc, ret,
      operator_scalar_assign. rewrite Hd. simpl.
    rewrite lookup_app_r, Nat.sub_diag by done. simpl.
    do 2 f_equal. rewrite insert_app_r_alt, Nat.sub_diag by done. done.
  - rewrite (view_same_rows _ lhs) by done.
    by apply (valid_agree _ _ _ (agree_app _ _) Hv).
Qed.

End Results.

(** ** The determinant of the identity *)

Section Unity.
Local Open Scope float_scope.

Lemma unity_view_length n : length (unity_view n) = n.
Proof. unfold unity_view. by rewrite length_map, length_seq. Qed.

Lemma unity_view_row n i :
  (i < n)%nat ->
  unity_view n !! i
  = Some (map (fun j => if Nat.eqb i j then 1 else 0) (seq 0 n)).
Proof.
  intros Hi. unfold unity_view. by rewrite list_lookup_fmap, lookup_seq_lt.
Qed.

Lemma entry_unity_view n i j :
  (i < n)%nat -> (j < n)%nat ->
  entry (unity_view n) i j = if Nat.eqb i j then 1 else 0.
Proof.
  intros Hi Hj. unfold entry. rewrite unity_view_row by done. simpl.
  by rewrite list_lookup_fmap, lookup_seq_lt.
Qed.

Lemma pivot_search_unity n i l :
  (i < n)%nat -> (forall r, r ∈ l -> (r < n)%nat) ->
  fold_left (pivot_step (unity_view n) i) l i = i.
Proof.
  intros Hi. induction l as [|r l IH]; intros Hl; [done|]. simpl.
  assert (Hstep : pivot_step (unity_view n) i i r = i).
  { unfold pivot_step. rewrite !entry_unity_view by (done || apply Hl; left).
    rewrite Nat.eqb_refl. by destruct (Nat.eqb r i). }
  rewrite Hstep. apply IH. intros r' Hr'. apply Hl. by right.
Qed.

Lemma swap_rows_spec_same {T} (A : list (list T)) i : swap_rows_spec A i i = A.
Proof.
  unfold swap_rows_spec. destruct (A !! i) as [row|] eqn:Hrow; [|done].
  rewrite list_insert_id; [by rewrite list_insert_id|].
  by rewrite list_insert_id.
Qed.

Lemma eliminate_spec_unity n i :
  (i < n)%nat -> eliminate_spec (unity_view n) i 1 = unity_view n.
Proof.
  intros Hi. unfold eliminate_spec. apply list_eq. intros r.
  rewrite list_lookup_imap.
  destruct (decide (r < n)%nat) as [Hr|Hr].
  - rewrite unity_view_row by done. simpl. f_equal.
    destruct (decide (i = r)) as [|Hne]; [done|].
    apply list_eq. intros k. rewrite list_lookup_imap.
    destruct (decide (k < n)%nat) as [Hk|Hk].
    + rewrite list_lookup_fmap, lookup_seq_lt by done. simpl. f_equal.
      rewrite !entry_unity_view by done.
      rewrite (proj2 (Nat.eqb_neq r i)) by done.
      by destruct (Nat.eqb r k), (Nat.eqb i k).
    + rewrite (lookup_ge_None_2 (map _ _)); [done|].
      rewrite length_map, length_seq. lia.
  - rewrite (lookup_ge_None_2 (unity_view n)); [done|].
    rewrite unity_view_length. lia.
Qed.

Lemma gauss_jordan_step_unity n i :
  (i < n)%nat -> gauss_jordan_step (unity_view n) i = unity_view n.
Proof.
  intros Hi. unfold gauss_jordan_step, pivot_search.
  rewrite pivot_search_unity; [|done|].
  - rewrite swap_rows_spec_same, entry_unity_view, Nat.eqb_refl by done.
    by apply eliminate_spec_unity.
  - intros r Hr. apply elem_of_seq in Hr. rewrite unity_view_length in Hr. lia.
Qed.

Lemma gauss_jordan_spec_unity n : gauss_jordan_spec (unity_view n) = unity_view n.
Proof.
  unfold gauss_jordan_spec. rewrite unity_view_length.
  assert (Hgen : forall l, (forall i, i ∈ l -> (i < n)%nat) ->
            fold_left gauss_jordan_step l (unity_view n) = unity_view n).
  { induction l as [|i l IH]; intros Hl; [done|]. simpl.
    rewrite gauss_jordan_step_unity by (apply Hl; left).
    apply IH. intros i' Hi'. apply Hl. by right. }
  apply Hgen. intros i Hi. apply elem_of_seq in Hi. lia.
Qed.

Lemma diagonal_product_unity n : diagonal_product (unity_view n) = 1.
Proof.
  unfold diagonal_product. rewrite unity_view_length.
  assert (Hgen : forall l, (forall i, i ∈ l -> (i < n)%nat) ->
            fold_left (fun res i => n_mul res (entry (unity_view n) i i)) l 1 = 1).
  { induction l as [|i l IH]; intros Hl; [done|]. simpl.
    rewrite entry_unity_view, Nat.eqb_refl by (apply Hl; left).
    change (1 * 1) with 1. apply IH. intros i' Hi'. apply Hl. by right. }
  apply Hgen. intros i Hi. apply elem_of_seq in Hi. lia.
Qed.

(** X14. The determinant of the identity is exactly [1], for every
    size: on a well-formed square [double] matrix that reads as the
    identity (ones on the diagonal, zeros elsewhere; the empty matrix for
    size zero), [determinant] returns [1]. *)
Theorem determinant_of_unity (n : nat) (m : matrix) (s : store float) :
  wf (bufs s) m = true -> square m = true ->
  view (bufs s) m = unity_view n ->
  exists s', determinant m s = Ret 1 s'.
Proof.
  intros Hwf Hsq Hview. unfold determinant. rewrite Hsq. simpl.
  apply Nat.eqb_eq in Hsq.
  destruct (wp_elim
    (let* tmp := matrix_copy m in
     let* tmp := gauss_jordan_elimination tmp in
     for_each (seq 0 (rows tmp)) (fun i res =>
       let* d := get tmp i i in ret (n_mul res d)) n_one)
    (fun v _ => v = 1) s)
    as (v & s' & Hrun & ->); [|by exists s'].
  apply wp_determinant_phases; [done|done|]. intros s' .
  by rewrite Hview, gauss_jordan_spec_unity, diagonal_product_unity.
Qed.

End Unity.

(** ** Comparing [double] matrices *)

Section EqualDouble.
Local Open Scope float_scope.

Lemma SFcompare_eq_sym f1 f2 :
  SpecFloat.SFcompare f1 f2 = Some Eq -> SpecFloat.SFcompare f2 f1 = Some Eq.
Proof.
  destruct f1 as [s1|s1| |s1 m1 e1], f2 as [s2|s2| |s2 m2 e2]; simpl;
    try done; try (by destruct s1, s2); try (by destruct s1); try (by destruct s2).
  destruct s1, s2; try done; intros Hc;
    (assert (e1 = e2 /\ m1 = m2) as [-> ->]; [|exact Hc]);
    (destruct (Z.compare e1 e2) eqn:He; try done);
    apply Z.compare_eq in He; (split; [done|]);
    change (PosDef.Pos.compare_cont Eq m1 m2) with (Pos.compare m1 m2) in Hc;
    (destruct (Pos.compare m1 m2) eqn:Hm; try done);
    by apply Pos.compare_eq.
Qed.

Lemma double_eq_sym (x y : float) : (x =? y) = (y =? x).
Proof.
  rewrite !FloatAxioms.eqb_spec. unfold SpecFloat.SFeqb.
  destruct (SpecFloat.SFcompare (Prim2SF x) (Prim2SF y)) as [[]|] eqn:H1;
  destruct (SpecFloat.SFcompare (Prim2SF y) (Prim2SF x)) as [[]|] eqn:H2;
    try reflexivity;
  first [ apply SFcompare_eq_sym in H1; congruence
        | apply SFcompare_eq_sym in H2; congruence ].
Qed.

Lemma double_eq_refl (x : float) : (x =? x) = true <-> x <> nan.
Proof.
  rewrite FloatAxioms.eqb_spec. unfold SpecFloat.SFeqb. split.
  - intros Hc ->. by vm_compute in Hc.
  - intros Hn. destruct (Prim2SF x) as [s|s| |s m e] eqn:Hx; simpl.
    + reflexivity.
    + by destruct s.
    + exfalso. apply Hn. apply Prim2SF_inj. rewrite Hx. reflexivity.
    + destruct s; rewrite Z.compare_refl;
      change (PosDef.Pos.compare_cont Eq m m) with (Pos.compare m m);
      by rewrite Pos.compare_refl.
Qed.

(** X15. Comparing a live [double] matrix with itself returns [true]
    exactly when none of its elements is a NaN: [equal] is not
    reflexive. *)
Theorem equal_self_iff_no_nan (m : matrix) (s : store float) :
  valid (bufs s) m = true ->
  exists b s',
    equal m m s = Ret b s' /\
    (b = true <->
     forall i j, (i < rows m)%nat -> (j < cols m)%nat ->
       entry (view (bufs s) m) i j <> nan).
Proof.
  intros Hv.
  destruct (wp_elim (equal m m)
    (fun b s' =>
       b = true <-> forall i j, (i < rows m)%nat -> (j < cols m)%nat ->
         n_eq (entry (view (bufs s) m) i j) (entry (view (bufs s) m) i j) = true) s)
    as (b & s' & Hrun & Hb).
  { apply wp_equal_same_shape; try done; by intros. }
  exists b, s'. split; [done|]. rewrite Hb.
  split; intros Hall i j Hi Hj; apply double_eq_refl; by apply Hall.
Qed.

(** X16. On live [double] matrices [equal] is symmetric:
    [m.equal(other)] and [other.equal(m)] return the same answer. *)
Theorem equal_symmetric (m other : matrix) (s : store float) :
  valid (bufs s) m = true -> valid (bufs s) other = true ->
  exists b s1 s2,
    equal m other s = Ret b s1 /\ equal other m s = Ret b s2.
Proof.
  intros Hm Ho.
  destruct (decide (rows m = rows other /\ cols m = cols other)) as [[Hr Hc]|Hne].
  - destruct (wp_elim (equal m other)
      (fun b s' =>
         b = true <-> forall i j, (i < rows m)%nat -> (j < cols m)%nat ->
           n_eq (entry (view (bufs s) m) i j)
                (entry (view (bufs s) other) i j) = true) s)
      as (b1 & s1 & Hrun1 & Hb1).
    { apply wp_equal_same_shape; try done; by intros. }
    destruct (wp_elim (equal other m)
      (fun b s' =>
         b = true <-> forall i j, (i < rows other)%nat -> (j < cols other)%nat ->
           n_eq (entry (view (bufs s) other) i j)
                (entry (view (bufs s) m) i j) = true) s)
      as (b2 & s2 & Hrun2 & Hb2).
    { apply wp_equal_same_shape; try done; by intros. }
    exists b1, s1, s2. split; [done|]. rewrite Hrun2. f_equal.
    assert (Hiff : b1 = true <-> b2 = true).
    { rewrite Hb1, Hb2. rewrite <- Hr, <- Hc.
      split; intros Hall i j Hi Hj; specialize (Hall i j Hi Hj);
        simpl in *; by rewrite double_eq_sym. }
    destruct b1, b2; try done;
      [pose proof (proj1 Hiff eq_refl)|pose proof (proj2 Hiff eq_refl)]; done.
  - exists false, s, s. split; apply equal_false_of_shape.
    + destruct (decide (rows m = rows other)); [right|left]; tauto.
    + destruct (decide (rows other = rows m)); [right|left]; [|done].
      intros Hc. apply Hne. split; congruence.
Qed.

End EqualDouble.

(** ** The further properties at the example objects *)

Section FurtherInstances.

Lemma swap_rows_exchanges_rows_witness :
  (0 < rows ex_d /\ 2 < rows ex_d ->
   exists m',
     swap_rows ex_d 0 2 ex_store = Ret m' ex_store /\
     rows m' = rows ex_d /\ cols m' = cols ex_d /\
     wf (bufs ex_store) m' = true /\
     m_rows_vec m' ≡ₚ m_rows_vec ex_d /\
     view (bufs ex_store) m' !! 0 = view (bufs ex_store) ex_d !! 2 /\
     view (bufs ex_store) m' !! 2 = view (bufs ex_store) ex_d !! 0 /\
     forall i, i <> 0 -> i <> 2 ->
       view (bufs ex_store) m' !! i = view (bufs ex_store) ex_d !! i)
  /\ (~ (0 < rows ex_d /\ 2 < rows ex_d) ->
      swap_rows ex_d 0 2 ex_store = Undefined).
Proof. apply (swap_rows_exchanges_rows ex_d 0 2 ex_store). reflexivity. Defined.

Lemma swap_rows_twice_restores_witness :
  exists m', swap_rows ex_d 0 2 ex_store = Ret m' ex_store
             /\ swap_rows m' 0 2 ex_store = Ret ex_d ex_store.
Proof. apply (swap_rows_twice_restores ex_d 0 2 ex_store); simpl; lia. Defined.

Lemma update_rows_vec_physical_order_witness :
  wf (bufs ex_store) (update_rows_vec (Matrix (CMatrix 2 3 2) [])) = true
  /\ rows (update_rows_vec (Matrix (CMatrix 2 3 2) [])) = cm_rows (CMatrix 2 3 2)
  /\ cols (update_rows_vec (Matrix (CMatrix 2 3 2) [])) = cm_cols (CMatrix 2 3 2)
  /\ (forall i, i < cm_rows (CMatrix 2 3 2) ->
        m_rows_vec (update_rows_vec (Matrix (CMatrix 2 3 2) [])) !! i
        = Some (Ptr (cm_data (CMatrix 2 3 2)) (i * cm_cols (CMatrix 2 3 2))))
  /\ (forall i j, i < cm_rows (CMatrix 2 3 2) -> j < cm_cols (CMatrix 2 3 2) ->
        cell (bufs ex_store)
             (Ptr (cm_data (CMatrix 2 3 2)) (i * cm_cols (CMatrix 2 3 2) + j))
        = Some (entry (view (bufs ex_store)
                            (update_rows_vec (Matrix (CMatrix 2 3 2) []))) i j)).
Proof.
  apply (update_rows_vec_physical_order (bufs ex_store) (CMatrix 2 3 2)).
  reflexivity.
Defined.

Lemma gauss_jordan_elimination_in_place_witness :
  exists mat s',
    gauss_jordan_elimination ex_c ex_store = Ret mat s' /\
    m_contiguous_matrix mat = m_contiguous_matrix ex_c /\
    m_rows_vec mat ≡ₚ m_rows_vec ex_c /\
    wf (bufs s') mat = true /\
    view (bufs s') mat = gauss_jordan_spec (view (bufs ex_store) ex_c) /\
    length <$> bufs s' = length <$> bufs ex_store.
Proof.
  apply (gauss_jordan_elimination_in_place ex_c ex_store);
    [reflexivity|unfold rows, cols; simpl; lia].
Defined.

Lemma determinant_leaves_reduction_witness :
  exists d s',
    determinant ex_a ex_store = Ret d s' /\
    view (bufs s') ex_a ≡ₚ gauss_jordan_spec (view (bufs ex_store) ex_a).
Proof. apply (determinant_leaves_reduction ex_a ex_store); reflexivity. Defined.

Lemma gauss_jordan_elimination_tall_undefined_witness :
  gauss_jordan_elimination ex_d ex_store = Undefined.
Proof.
  apply (gauss_jordan_elimination_tall_undefined ex_d ex_store);
    [reflexivity|unfold rows, cols; simpl; lia|reflexivity].
Defined.

Lemma max_in_col_greater_eq_any_order_witness :
  (0 < rows ex_d ->
   exists r v s',
     max_in_col_greater_eq ex_d 0 0 ex_store = Ret (r, v) s' /\
     bufs s' = bufs ex_store /\ 0 <= r < rows ex_d /\
     v = entry (view (bufs ex_store) ex_d) r 0 /\
     (forall r', r < r' < rows ex_d ->
        n_less (n_abs v) (n_abs (entry (view (bufs ex_store) ex_d) r' 0)) = false) /\
     (r <> 0 -> exists r0, 0 <= r0 < r /\
        n_less (n_abs (entry (view (bufs ex_store) ex_d) r0 0)) (n_abs v) = true))
  /\ (rows ex_d <= 0 -> max_in_col_greater_eq ex_d 0 0 ex_store = Undefined).
Proof.
  apply (max_in_col_greater_eq_any_order ex_d 0 0 ex_store);
    [reflexivity|unfold cols; simpl; lia].
Defined.

Lemma max_in_col_greater_eq_nan_witness :
  exists r v s',
    max_in_col_greater_eq nan_column 0 1 nan_store = Ret (r, v) s' /\
    (v = nan <-> entry (view (bufs nan_store) nan_column) 1 0 = nan) /\
    (entry (view (bufs nan_store) nan_column) 1 0 = nan -> r = 1).
Proof.
  apply (max_in_col_greater_eq_nan nan_column 0 1 nan_store);
    [reflexivity|unfold cols; simpl; lia|unfold rows; simpl; lia].
Defined.

Lemma operator_plus_minus_overwrite_left_witness :
  (exists res s',
     operator_plus ex_a ex_b ex_store = Ret res s' /\
     m_rows_vec res = m_rows_vec ex_a /\
     view (bufs s') ex_a = view (bufs s') res /\
     forall i j, i < rows ex_a -> j < cols ex_a ->
       entry (view (bufs s') res) i j
       = n_add (entry (view (bufs ex_store) ex_a) i j)
               (entry (view (bufs ex_store) ex_b) i j))
  /\ (exists res s',
        operator_minus ex_a ex_b ex_store = Ret res s' /\
        m_rows_vec res = m_rows_vec ex_a /\
        view (bufs s') ex_a = view (bufs s') res /\
        forall i j, i < rows ex_a -> j < cols ex_a ->
          entry (view (bufs s') res) i j
          = n_sub (entry (view (bufs ex_store) ex_a) i j)
                  (entry (view (bufs ex_store) ex_b) i j)).
Proof.
  apply (operator_plus_minus_overwrite_left ex_a ex_b ex_store); reflexivity.
Defined.

Lemma operator_mul_leaves_operands_witness :
  (cols ex_c <> rows ex_d ->
   exists s', operator_mul ex_c ex_d ex_store = Throw "Mismatched matrix sizes" s'
              /\ agree (bufs ex_store) (bufs s'))
  /\ (cols ex_c = rows ex_d ->
      exists res s',
        operator_mul ex_c ex_d ex_store = Ret res s' /\
        rows res = rows ex_c /\ cols res = cols ex_d /\
        wf (bufs s') res = true /\
        view (bufs s') ex_c = view (bufs ex_store) ex_c /\
        view (bufs s') ex_d = view (bufs ex_store) ex_d /\
        forall i j, i < rows ex_c -> j < cols ex_d ->
          entry (view (bufs s') res) i j
          = dot (view (bufs ex_store) ex_c) (view (bufs ex_store) ex_d) i j
                (cols ex_c)).
Proof. apply (operator_mul_leaves_operands ex_c ex_d ex_store); reflexivity. Defined.

Lemma transpose_of_product_witness :
  exists p s1 tp s2 tn s3 tm s4 q s5,
    operator_mul ex_c ex_d ex_store = Ret p s1 /\
    free_transpose p s1 = Ret tp s2 /\
    free_transpose ex_d s2 = Ret tn s3 /\
    free_transpose ex_c s3 = Ret tm s4 /\
    operator_mul tn tm s4 = Ret q s5 /\
    same_matrix (bufs s5) q (bufs s5) tp.
Proof. apply (transpose_of_product ex_c ex_d ex_store); reflexivity. Defined.

Lemma transpose_physical_order_witness :
  exists t s',
    transpose ex_c ex_store = Ret t s' /\
    rows t = cols ex_c /\ cols t = rows ex_c /\
    wf (bufs s') t = true /\
    cm_data (m_contiguous_matrix t) = length (bufs ex_store) /\
    length (m_rows_vec t) = cols ex_c /\
    (forall k, k < cols ex_c ->
       m_rows_vec t !! k = Some (Ptr (length (bufs ex_store)) (k * rows ex_c))) /\
    agree (bufs ex_store) (bufs s') /\
    (forall i j, i < rows ex_c -> j < cols ex_c ->
       entry (view (bufs s') t) j i = entry (view (bufs ex_store) ex_c) i j).
Proof. apply (transpose_physical_order ex_c ex_store). reflexivity. Defined.

Lemma operator_scalar_reads_operand_witness :
  exists res d,
    bufs ex_store !! cm_data (m_contiguous_matrix ex_a) = Some d /\
    operator_scalar (fun k d0 => map (fun x => PrimFloat.mul x k) d0)
                    ex_a 2%float ex_store
    = Ret res (Store (bufs ex_store ++ [map (fun x => PrimFloat.mul x 2%float) d])
                     (accesses ex_store)) /\
    cm_data (m_contiguous_matrix res) = length (bufs ex_store) /\
    m_rows_vec res = m_rows_vec ex_a /\
    rows res = rows ex_a /\ cols res = cols ex_a /\
    view (bufs ex_store ++ [map (fun x => PrimFloat.mul x 2%float) d]) res
    = view (bufs ex_store) ex_a.
Proof.
  apply (operator_scalar_reads_operand
           (fun k d0 => map (fun x => PrimFloat.mul x k) d0) ex_a 2%float ex_store).
  reflexivity.
Defined.

Lemma determinant_of_unity_witness :
  exists s', determinant unity_3 unity_store = Ret 1%float s'.
Proof. apply (determinant_of_unity 3 unity_3 unity_store); reflexivity. Defined.

Lemma equal_self_iff_no_nan_witness :
  exists b s',
    equal nan_column nan_column nan_store = Ret b s' /\
    (b = true <->
     forall i j, i < rows nan_column -> j < cols nan_column ->
       entry (view (bufs nan_store) nan_column) i j <> nan).
Proof. apply (equal_self_iff_no_nan nan_column nan_store). reflexivity. Defined.

Lemma equal_symmetric_witness :
  exists b s1 s2,
    equal ex_a ex_b ex_store = Ret b s1 /\ equal ex_b ex_a ex_store = Ret b s2.
Proof. apply (equal_symmetric ex_a ex_b ex_store); reflexivity. Defined.

End FurtherInstances.
